(** * welshtools: chunked, ordered transcription of Welsh word lists

    A shallow embedding of [welshtools/shared.py] and
    [welshtools/transcription.py], and the properties of the
    transcription pipeline proved about it.

    Python values are embedded as follows.
    - [str] is a list of Unicode code points ([N]); literals are written
      as UTF-8 text and decoded by [u].
    - [bytes] is a list of [Byte.byte].
    - [int] is [Z]; an [int] or [float] used as a duration is a rational
      ([Q]), i.e. float arithmetic is read as exact arithmetic.  The
      number of polling rounds, [int(timeout/0.1)], is where this
      reading and binary64 can part: the theorems on a time-out are
      stated for whole numbers of seconds, on which the two are proved
      to agree against Stdlib's [SpecFloat].
    - a [dict] that is only looked up is a [gmap]; a dict that is
      iterated is an association list in insertion order.
    - an exception is a value of [exn]; a call that may raise returns a
      [result].
    - the file system, the random generator and the Festival subprocess
      are explicit state ([world]) and interfaces ([Unicodedata],
      [Host], [Festival]). *)

From Stdlib Require Import ZArith NArith QArith Qround Lia List String Ascii.
From Stdlib Require Import Lqa.
From Stdlib Require Strings.Byte.
From Stdlib Require Floats.SpecFloat.
From stdpp Require Import base option list gmap fin_maps pretty.

Local Open Scope Z_scope.

(* ===================================================================== *)
(** * Python primitives *)
(* ===================================================================== *)

Module Py.

(** ** Strings *)

Abbreviation str := (list N).

(** Decoder of UTF-8 byte sequences, used for the string literals of
    this file only. *)
Fixpoint utf8_decode (bs : list N) : str :=
  match bs with
  | [] => []
  | b0 :: r0 =>
    if (b0 <? 128)%N then b0 :: utf8_decode r0
    else match r0 with
      | [] => []
      | b1 :: r1 =>
        if (b0 <? 224)%N then
          ((b0 - 192) * 64 + (b1 - 128))%N :: utf8_decode r1
        else match r1 with
          | [] => []
          | b2 :: r2 =>
            if (b0 <? 240)%N then
              ((b0 - 224) * 4096 + (b1 - 128) * 64 + (b2 - 128))%N
                :: utf8_decode r2
            else match r2 with
              | [] => []
              | b3 :: r3 =>
                ((b0 - 240) * 262144 + (b1 - 128) * 4096
                 + (b2 - 128) * 64 + (b3 - 128))%N :: utf8_decode r3
              end
          end
      end
  end.

Definition u (s : string) : str :=
  utf8_decode (List.map N_of_ascii (list_ascii_of_string s)).

(** Code points that have no literal form here. *)
Definition LF : N := 10.
Definition CR : N := 13.
Definition QUOTE : N := 34.       (* the double quote *)
Definition BACKSLASH : N := 92.
Definition COMMA : N := 44.
Definition SPACE : N := 32.

(** ** Exceptions and results *)

(** [During handled raised]: [raised] was raised while [handled] was being
    handled (in an [except] block or in [__exit__]); it is [raised] that
    propagates, [handled] is only its [__context__]. *)
Inductive exn : Type :=
| KeyError (key : str)
| TypeError (msg : str)
| ValueError (msg : str)
| IndexError (msg : str)
| ZeroDivisionError (msg : str)
| UnicodeDecodeError (msg : str)
| FileNotFoundError (path : str)
| OSError (msg : str)
| IOError (msg : str)
| Exception (msg : str)
| During (handled : exn) (raised : exn).

(** The exception that propagates, without its chain of contexts. *)
Fixpoint raised_exn (e : exn) : exn :=
  match e with
  | During _ e' => raised_exn e'
  | _ => e
  end.

(** Outcome of a call: a value, an exception, or [Diverge] when the
    fuel given to an unbounded loop ran out. *)
Inductive result (A : Type) : Type :=
| Ok (a : A)
| Raise (e : exn)
| Diverge.
Arguments Ok {A} a.
Arguments Raise {A} e.
Arguments Diverge {A}.

Definition bind {A B} (r : result A) (k : A -> result B) : result B :=
  match r with
  | Ok a => k a
  | Raise e => Raise e
  | Diverge => Diverge
  end.

Declare Scope py_scope.
Delimit Scope py_scope with py.
Notation "x <- c1 ;; c2" := (bind c1 (fun x => c2))
  (at level 100, c1 at next level, right associativity) : py_scope.

Definition is_ok {A} (r : result A) : bool :=
  match r with Ok _ => true | _ => false end.

(** ** Whitespace, [str.strip], [str.split] *)

(** [str.isspace] on one code point (CPython's [_PyUnicode_IsWhitespace]). *)
Definition isspace (c : N) : bool :=
  ((9 <=? c) && (c <=? 13) || (28 <=? c) && (c <=? 32)
   || (c =? 133) || (c =? 160) || (c =? 5760)
   || (8192 <=? c) && (c <=? 8202)
   || (c =? 8232) || (c =? 8233) || (c =? 8239) || (c =? 8287)
   || (c =? 12288))%N.

Fixpoint lstrip (s : str) : str :=
  match s with
  | [] => []
  | c :: r => if isspace c then lstrip r else s
  end.

Definition rstrip (s : str) : str := rev (lstrip (rev s)).

(** [s.strip()] *)
Definition strip (s : str) : str := rstrip (lstrip s).

(** [s.split()]: the maximal runs of non-whitespace, in order.  [cur] is
    the run being read, reversed. *)
Fixpoint split_ws_aux (cur : str) (s : str) : list str :=
  match s with
  | [] => match cur with [] => [] | _ => [rev cur] end
  | c :: r =>
    if isspace c
    then match cur with
         | [] => split_ws_aux [] r
         | _ => rev cur :: split_ws_aux [] r
         end
    else split_ws_aux (c :: cur) r
  end.

Definition split_ws (s : str) : list str := split_ws_aux [] s.

(** [s.split(sep)] for a separator of one code point: never empty. *)
Fixpoint split_on_aux (sep : N) (cur : str) (s : str) : list str :=
  match s with
  | [] => [rev cur]
  | c :: r =>
    if (c =? sep)%N then rev cur :: split_on_aux sep [] r
    else split_on_aux sep (c :: cur) r
  end.

Definition split_on (sep : N) (s : str) : list str := split_on_aux sep [] s.

(** [s.replace(old, new)] where [old] is one code point: every
    occurrence, left to right. *)
Definition replace (old : N) (new : str) (s : str) : str :=
  flat_map (fun c => if (c =? old)%N then new else [c]) s.

(** ** [range] and slices *)

(** [range(start, stop, step)] as a list. *)
Definition range (start stop step : Z) : result (list Z) :=
  if step =? 0 then Raise (ValueError (u "range() arg 3 must not be zero"))
  else if 0 <? step then
    Ok (List.map (fun k => start + Z.of_nat k * step)
          (seq 0 (Z.to_nat ((stop - start + step - 1) / step))))
  else
    Ok (List.map (fun k => start + Z.of_nat k * step)
          (seq 0 (Z.to_nat ((start - stop - step - 1) / (- step))))).

(** Clamping of a slice bound for a sequence of length [n]. *)
Definition slice_index (n i : Z) : Z :=
  if i <? 0 then Z.max 0 (i + n) else Z.min i n.

(** [lst[i:j]] *)
Definition slice {A} (lst : list A) (i j : Z) : list A :=
  let n := Z.of_nat (length lst) in
  let a := slice_index n i in
  let b := slice_index n j in
  take (Z.to_nat (b - a)) (drop (Z.to_nat a) lst).

(** [range(n)] *)
Definition range1 (n : Z) : list Z :=
  List.map Z.of_nat (seq 0 (Z.to_nat n)).

(** ** Numbers *)

(** [int(x)] of a float, read as a rational: truncation towards zero. *)
Definition int_of_Q (x : Q) : Z := Z.quot (Qnum x) (Z.pos (Qden x)).

(** Python's [float] is IEEE 754 binary64, which Stdlib's [SpecFloat]
    specifies: [float(n)], [x / y], [x * y] with rounding to nearest
    even, the literal [0.1] (the float nearest to one tenth,
    7205759403792794 / 2^56), and [int(x)], which truncates and fails on
    an infinity or a NaN. *)
Definition float : Type := SpecFloat.spec_float.
Definition float_of_int (n : Z) : float :=
  SpecFloat.binary_normalize 53 1024 n 0 false.
Definition float_div (x y : float) : float := SpecFloat.SFdiv 53 1024 x y.
Definition float_mul (x y : float) : float := SpecFloat.SFmul 53 1024 x y.
Definition float_0_1 : float :=
  SpecFloat.S754_finite false 7205759403792794 (-56).
Definition int_of_float (x : float) : option Z :=
  match x with
  | SpecFloat.S754_zero _ => Some 0
  | SpecFloat.S754_finite s m e =>
    let a := match e with
             | Z0 => Z.pos m
             | Zpos p => Z.pos m * 2 ^ Z.pos p
             | Zneg p => Z.pos m / 2 ^ Z.pos p
             end in
    Some (if s then - a else a)
  | _ => None
  end.

(** [divmod(x, y)] of floats read as rationals, for [y > 0]. *)
Definition divmod (x y : Q) : Q * Q :=
  let q := inject_Z (Qfloor (x / y)) in (q, (x - q * y)%Q).

(** ["%d" % z] and ["%02d" % z] *)
Definition fmt_d (z : Z) : str := u (pretty z).
Definition fmt_02d (z : Z) : str :=
  if (0 <=? z) && (z <? 10) then u "0" ++ fmt_d z else fmt_d z.

(** ** [bytes], the ASCII codec *)

(** [s.encode('ASCII', 'ignore')]: code points the codec cannot encode
    are left out. *)
Definition encode_ascii_ignore (s : str) : list Byte.byte :=
  omap (fun c => if (c <? 128)%N then Byte.of_N c else None) s.

(** [str(b, encoding="ASCII")]: strict decoding. *)
Definition decode_ascii (b : list Byte.byte) : result str :=
  if forallb (fun x => (Byte.to_N x <? 128)%N) b
  then Ok (List.map Byte.to_N b)
  else Raise (UnicodeDecodeError
                (u "'ascii' codec can't decode byte: ordinal not in range(128)")).

(** ** Tuples and dicts *)

(** The message of the [TypeError] an assignment into a tuple raises. *)
Definition tuple_is_immutable : str :=
  u "'tuple' object does not support item assignment".

(** [t[i] = v] for a tuple [t], executed while [handled] is being
    handled: tuples are immutable, the assignment always raises. *)
Definition tuple_setitem {A} (t : list A) (i : Z) (v : A) (handled : exn)
  : result (list A) :=
  Raise (During handled (TypeError tuple_is_immutable)).

(** [d.update(other)] *)
Definition update (d other : gmap str str) : gmap str str := other ∪ d.

(** [seq[-1]] *)
Definition last_item {A} (l : list A) : result A :=
  match last l with
  | Some x => Ok x
  | None => Raise (IndexError (u "list index out of range"))
  end.

(** [s.startswith(prefix)] *)
Fixpoint startswith (s prefix : str) : bool :=
  match prefix, s with
  | [], _ => true
  | _ :: _, [] => false
  | p :: prefix', c :: s' => (c =? p)%N && startswith s' prefix'
  end.

(** [for char in string: if not char in chars: return False] and
    [return True] after the loop. *)
Fixpoint all_chars_in (chars : gset N) (string : str) : bool :=
  match string with
  | [] => true
  | char :: rest =>
    if bool_decide (char ∈ chars) then all_chars_in chars rest else false
  end.

End Py.

Import Py.
Local Open Scope py_scope.

(* ===================================================================== *)
(** * shared.py *)
(* ===================================================================== *)

(** [unicodedata.category]: the two-letter general category of a code
    point. *)
Class UnicodeCategory : Type := {
  category : N -> str
}.

Module shared.

(** [chunks(lst, chunk_size)]: the generator, as the list of what it
    yields. *)
Definition chunks {A} (lst : list A) (chunk_size : Z) : result (list (list A)) :=
  r <- range 0 (Z.of_nat (length lst)) chunk_size ;;
  Ok (List.map (fun i => slice lst i (i + chunk_size)) r).

(** [seconds_to_hms(seconds)] *)
Definition seconds_to_hms (seconds : Q) : Q * Q * Q :=
  let '(minutes, seconds) := divmod seconds 60 in
  let '(hours, minutes) := divmod minutes 60 in
  (hours, minutes, seconds).

(** Lines 26 to 29 of [estimate_remaining_time]: the remaining time in
    seconds.  [now] is the value [time.time()] returns. *)
Definition time_remaining (count total : Z) (start_timestamp now : Q)
  : result Q :=
  let time_elapsed := (now - start_timestamp)%Q in
  if count =? 0 then Raise (ZeroDivisionError (u "float division by zero"))
  else
    let time_per_unit := (time_elapsed / inject_Z count)%Q in
    let time_required := (time_per_unit * inject_Z total)%Q in
    Ok (time_required - time_elapsed)%Q.

(** [estimate_remaining_time(count, total, start_timestamp)] *)
Definition estimate_remaining_time (count total : Z) (start_timestamp now : Q)
  : result str :=
  time_remaining <- time_remaining count total start_timestamp now ;;
  let '(h, m, s) := seconds_to_hms time_remaining in
  Ok (fmt_d (int_of_Q h) ++ u "h" ++ fmt_02d (int_of_Q m) ++ u "m"
      ++ fmt_02d (int_of_Q s) ++ u "s").

(** [strip_punctuation(string)] *)
Definition strip_punctuation `{UnicodeCategory} (string : str) : str :=
  (* Punctuation *)
  let string :=
    List.filter (fun c => negb (startswith (category c) (u "P"))) string in
  (* Whitespace *)
  let string :=
    List.filter (fun c => negb (startswith (category c) (u "Z"))) string in
  (* Control characters *)
  let string :=
    List.filter (fun c => negb (startswith (category c) (u "C"))) string in
  string.

(** [is_welsh_utf8(string)] *)
Definition welsh_chars : gset N :=
  list_to_set
    (u "ABCDEFGHIJLMNOPRSTUWYabcdefghijlmnoprstuwy"
     ++ u "ÄËÏÖÜẄŸäëïöüẅÿÂÊÎÔÛŴŶâêîôûŵŷÁÉÍÓÚẂÝáéíóúẃýÀÈÌÒÙẀỲàèìòùẁỳ"
     ++ u "'-").

Definition is_welsh_utf8 `{UnicodeCategory} (string : str) : bool :=
  let string := strip_punctuation string in
  all_chars_in welsh_chars string.

End shared.


(* ===================================================================== *)
(** * The world outside the program *)
(* ===================================================================== *)

(** What the program does to its surroundings, in order. *)
Inductive event : Type :=
| Popen (command : str)   (* festival started and fed [command] *)
| Poll                    (* proc.poll() *)
| Sleep (seconds : Q)     (* time.sleep(seconds) *)
| Kill                    (* proc.kill() *)
| Print (line : str).

(** The regular files ([path] to lines), the number of draws taken from
    the system random generator, and the trace of events. *)
Record world : Type := World {
  fs : gmap str (list str);
  draws : nat;
  trace : list event
}.

Definition set_fs (f : gmap str (list str)) (w : world) : world :=
  World f (draws w) (trace w).

Definition emit (e : event) (w : world) : world :=
  World (fs w) (draws w) (trace w ++ [e]).

(** [unicodedata]: the normalisation the program asks for. *)
Class Unicodedata : Type := {
  normalize_NFKD : str -> str
}.

(** The host: [tempfile.gettempdir()], [os.path.sep], the [k]-th number
    drawn from [random.SystemRandom()], and how a float is printed by
    ["%s"]. *)
Class Host : Type := {
  gettempdir : str;
  path_sep : str;
  system_random : nat -> nat;
  fmt_s_number : Q -> str
}.

(** The Festival executable, run as [festival --pipe] and fed [command]:
    - [festival_start command] is the exception [Popen], [stdin.write]
      or [stdin.flush] raises, if any;
    - [festival_poll command n] is what [proc.poll()] returns after [n]
      sleeps of 0.1 s ([None] while the process runs);
    - [festival_files command] is what the process has done to the files
      by the time a poll reports that it exited. *)
Class Festival : Type := {
  festival_start : str -> option exn;
  festival_poll : str -> nat -> option Z;
  festival_files : str -> gmap str (list str) -> gmap str (list str)
}.

(** The permissions of the host: [open_w_error path] is the text of the
    [IOError] with which [open(path, "w+")] fails, [None] when the file
    can be opened for writing. *)
Class Permissions : Type := {
  open_w_error : str -> option str
}.

(** The host on which every path can be opened for writing. *)
Definition all_writable : Permissions := {| open_w_error := fun _ => None |}.

(** Computations on the world: state passing, the state survives an
    exception. *)
Definition M (A : Type) : Type := world -> result A * world.

Definition ret {A} (a : A) : M A := fun w => (Ok a, w).
Definition raise {A} (e : exn) : M A := fun w => (Raise e, w).
Definition lift {A} (r : result A) : M A := fun w => (r, w).
Definition bindM {A B} (m : M A) (k : A -> M B) : M B :=
  fun w =>
    match m w with
    | (Ok a, w') => k a w'
    | (Raise e, w') => (Raise e, w')
    | (Diverge, w') => (Diverge, w')
    end.

Declare Scope world_scope.
Delimit Scope world_scope with world.
Notation "x <- c1 ;; c2" := (bindM c1 (fun x => c2))
  (at level 100, c1 at next level, right associativity) : world_scope.
Notation "c1 ;;; c2" := (bindM c1 (fun _ => c2))
  (at level 100, right associativity) : world_scope.

(** [os.path.isfile(path)] *)
Definition isfile (path : str) : M bool :=
  fun w => (Ok (bool_decide (is_Some (fs w !! path))), w).

(** [fh = open(path, "w+"); fh.close()]: the file exists and is empty.
    Every path is taken to be writable. *)
Definition create_empty (path : str) : M unit :=
  fun w => (Ok tt, set_fs (<[path := []]> (fs w)) w).

(** [open(path, "w+")] where the host may refuse: the file is created or
    truncated, or an [IOError] is raised and nothing changes. *)
Definition open_w `{Permissions} (path : str) : M unit :=
  match open_w_error path with
  | Some msg => raise (IOError msg)
  | None => create_empty path
  end.

(** [os.unlink(path)] *)
Definition unlink (path : str) : M unit :=
  fun w =>
    match fs w !! path with
    | Some _ => (Ok tt, set_fs (delete path (fs w)) w)
    | None => (Raise (FileNotFoundError path), w)
    end.

(** [with open(path, "r") as fh: output = [line for line in fh]] *)
Definition read_lines (path : str) : M (list str) :=
  fun w =>
    match fs w !! path with
    | Some lines => (Ok lines, w)
    | None => (Raise (FileNotFoundError path), w)
    end.

(** [random.SystemRandom().choice(seq)] for a non-empty [seq]. *)
Definition choice `{Host} (seq : str) : M N :=
  fun w =>
    (Ok (nth (system_random (draws w) mod length seq)%nat seq 0%N),
     World (fs w) (S (draws w)) (trace w)).

Definition do_event (e : event) : M unit := fun w => (Ok tt, emit e w).

Local Open Scope world_scope.

(** [for x in l: body(x)] *)
Fixpoint for_each {A} (l : list A) (body : A -> M unit) : M unit :=
  match l with
  | [] => ret tt
  | x :: r => body x ;;; for_each r body
  end.

(** [first, second = l] *)
Definition unpack2 {A} (l : list A) : result (A * A) :=
  match l with
  | [a; b] => Ok (a, b)
  | _ :: _ :: _ :: _ =>
    Raise (ValueError (u "too many values to unpack (expected 2)"))
  | _ => Raise (ValueError (u "not enough values to unpack"))
  end.

(** [pool.map(f, chunk)]: the results in the order of [chunk], or an
    exception when a call raised one.  [f x] stands for the outcome of
    running the mapped function on [x] in a worker process.  Which
    exception is reported when several calls fail is not fixed by the
    pool; here it is the first one in the order of [chunk]. *)
Fixpoint pool_map {A B} (f : A -> result B) (chunk : list A)
  : result (list B) :=
  match chunk with
  | [] => Ok []
  | x :: r =>
    match f x, pool_map f r with
    | Ok y, Ok ys => Ok (y :: ys)
    | Raise e, _ => Raise e
    | Diverge, _ => Diverge
    | Ok _, Raise e => Raise e
    | Ok _, Diverge => Diverge
    end
  end.

(* ===================================================================== *)
(** * transcription.py *)
(* ===================================================================== *)

Module transcription.

(** ** The symbol mappings *)

(** [festival_escape(string)] *)
Definition escape_mapping : list (N * str) :=
  [ (BACKSLASH, [BACKSLASH; BACKSLASH]); (* Must be first *)
    (QUOTE, [BACKSLASH; QUOTE]) ].

Definition festival_escape (string : str) : str :=
  fold_left (fun string item => replace (fst item) (snd item) string)
    escape_mapping string.

(** [map_utf8_to_festival(string)] *)
Definition utf8_to_festival_mapping : list (N * str) :=
  [ (770%N, u "+");          (* ^ --> + *)
    (776%N, u ":");          (* diaeresis --> : *)
    (769%N, u "/");          (* acute --> / *)
    (768%N, [BACKSLASH]) ].  (* grave --> \ *)

Definition map_utf8_to_festival `{Unicodedata} (string : str) : result str :=
  let string := normalize_NFKD string in
  let string :=
    fold_left (fun string kv => replace (fst kv) (snd kv) string)
      utf8_to_festival_mapping string in
  decode_ascii (encode_ascii_ignore string).

(** [is_welsh_festival_string(string)] *)
Definition festival_chrs : gset N :=
  list_to_set (u "ABCDEFGHILMNOPRSTUWYabcdefghilmnoprstuwy"
               ++ [BACKSLASH] ++ u "/+:").

Definition is_welsh_festival_string `{UnicodeCategory} (string : str) : bool :=
  let string := shared.strip_punctuation string in
  all_chars_in festival_chrs string.

(** [map_festival_to_ipa]: the tables. *)
Definition festival_to_ipa_mapping_0 : gmap str str :=
  list_to_map
  [ (u "i", u "i"); (u "e", u "e"); (u "a", u "a"); (u "o", u "o");
    (u "u", u "u"); (u "y", u "ɨ"); (u "@", u "ə");
    (u "ii", u "iː"); (u "ee", u "eː"); (u "aa", u "aː");
    (u "oo", u "oːː"); (u "uu", u "uː"); (u "yy", u "ɨː");
    (u "@@", u "əː");
    (u "oa", u "oa"); (u "oi", u "oi"); (u "ou", u "ou"); (u "oy", u "oɨ");
    (u "ai", u "ai"); (u "au", u "au"); (u "ay", u "aɨ");
    (u "aay", u "aːɨ"); (u "uy", u "uɨ"); (u "iu", u "iu");
    (u "ei", u "ei"); (u "eu", u "eu"); (u "ey", u "eɨ"); (u "ye", u "ɨe");
    (u "p", u "p"); (u "t", u "t"); (u "k", u "k"); (u "b", u "b");
    (u "d", u "d"); (u "g", u "g"); (u "f", u "f"); (u "th", u "θ");
    (u "h", u "h"); (u "x", u "χ"); (u "v", u "v"); (u "dh", u "ð");
    (u "s", u "s"); (u "z", u "z"); (u "sh", u "ʃ"); (u "zh", u "ʒ");
    (u "ch", [116; 865; 643]%N);      (* t, U+0361, U+0283 *)
    (u "jh", [100; 865; 658]%N);      (* d, U+0361, U+0292 *)
    (u "lh", u "ɬ");
    (u "rh", [114; 805; 688]%N);      (* r, U+0325, U+02B0 *)
    (u "l", u "l"); (u "r", u "r"); (u "w", u "w"); (u "j", u "j");
    (u "m", u "m"); (u "n", u "n"); (u "ng", u "ŋ");
    (u "mh", [109; 805]%N);           (* m, U+0325 *)
    (u "nh", [110; 805]%N);           (* n, U+0325 *)
    (u "ngh", [331; 778]%N);          (* U+014B, U+030A *)
    (u "lw", u "lʷ"); (u "nw", u "nʷ"); (u "rw", u "rʷ") ].

Definition festival_to_ipa_fixes : gmap str str :=
  list_to_map
  [ (u "hh", u "h"); (u "yu", u "ɨu");
    (u "sil", u " ");   (* Silence *)
    (u "#", u "") ].    (* Phrase edge marker *)

Definition festival_tense_lax_augmentation : gmap str str :=
  list_to_map
  [ (u "i", u "ɪ"); (u "e", u "ɛ"); (u "a", u "a"); (u "aa", u "ɑː");
    (u "o", u "ɔ"); (u "u", u "ʊ") ].

Definition festival_labialisation_augmentation : gmap str str :=
  list_to_map [ (u "lw", u "lw"); (u "nw", u "nw"); (u "rw", u "rw") ].

Definition festival_long_schwa_augmentation : gmap str str :=
  list_to_map [ (u "@@", u "ə") ].

(** The loop of [map_festival_to_ipa] over [string.split()]. *)
Fixpoint map_items (festival_to_ipa_mapping : gmap str str)
  (items : list str) (transcription : str) : result str :=
  match items with
  | [] => Ok transcription
  | item :: rest =>
    match festival_to_ipa_mapping !! strip item with
    | Some ipa => map_items festival_to_ipa_mapping rest (transcription ++ ipa)
    | None =>
      (* except KeyError as ex: *)
      let ex := KeyError (strip item) in
      let args := [strip item] in
      bind (tuple_setitem args 0
              (u "The symbol `" ++ item
               ++ u "' was encountered, but it is not specified in the Festival to IPA mapping.")
              ex)
           (fun _ => Raise ex)
    end
  end.

(** Lines 296 to 391 of [map_festival_to_ipa]: the table the loop looks
    the labels up in. *)
Definition festival_to_ipa_mapping
  (encode_tense_lax encode_labialisation encode_long_schwa : bool)
  : gmap str str :=
  let festival_to_ipa_mapping := festival_to_ipa_mapping_0 in
  let festival_to_ipa_mapping :=
    update festival_to_ipa_mapping festival_to_ipa_fixes in
  let festival_to_ipa_mapping :=
    if encode_tense_lax
    then update festival_to_ipa_mapping festival_tense_lax_augmentation
    else festival_to_ipa_mapping in
  let festival_to_ipa_mapping :=
    if negb encode_labialisation
    then update festival_to_ipa_mapping festival_labialisation_augmentation
    else festival_to_ipa_mapping in
  (* the long schwa table is built, and not merged into the mapping *)
  let long_schwa_table :=
    if negb encode_long_schwa
    then Some festival_long_schwa_augmentation
    else None in
  festival_to_ipa_mapping.

(** [map_festival_to_ipa(string, encode_tense_lax=False,
    encode_labialisation=True, encode_long_schwa=True)] *)
Definition map_festival_to_ipa (string : str)
  (encode_tense_lax encode_labialisation encode_long_schwa : bool)
  : result str :=
  let festival_to_ipa_mapping :=
    festival_to_ipa_mapping encode_tense_lax encode_labialisation
      encode_long_schwa in
  bind (map_items festival_to_ipa_mapping (split_ws string) [])
       (fun transcription => Ok (strip transcription)).

(** ** class TempFile *)

Record TempFile : Type := mkTempFile {
  destroyed : bool;
  prefix : str;
  suffix : str;
  tempdir : str;
  randomstring : str;
  filename : str;
  filepath : str
}.

(** [string.ascii_uppercase + string.digits] *)
Definition ascii_uppercase_digits : str :=
  u "ABCDEFGHIJKLMNOPQRSTUVWXYZ0123456789".

(** [TempFile.random_string(length=5)] *)
Fixpoint random_string `{Host} (length : nat) : M str :=
  match length with
  | O => ret []
  | S n =>
    c <- choice ascii_uppercase_digits ;;
    r <- random_string n ;;
    ret (c :: r)
  end.

(** [TempFile.__init__(prefix, suffix)]: the [while True] loop, run for
    at most [fuel] rounds. *)
Fixpoint TempFile_init `{Host} (fuel : nat) (prefix suffix : str)
  : M TempFile :=
  match fuel with
  | O => lift Diverge
  | S fuel' =>
    randomstring <- random_string 5 ;;
    let filename := prefix ++ randomstring ++ suffix in
    let filepath := gettempdir ++ path_sep ++ filename in
    taken <- isfile filepath ;;
    if taken : bool then TempFile_init fuel' prefix suffix
    else
      create_empty filepath ;;;
      ret (mkTempFile false prefix suffix gettempdir randomstring
             filename filepath)
  end.

(** [TempFile.destroy()]; the result is the object after the call.  When
    [os.unlink] raises, [self.destroyed] has not been assigned. *)
Definition destroy (self : TempFile) : M TempFile :=
  if negb (destroyed self) then
    unlink (filepath self) ;;;
    ret (mkTempFile true (prefix self) (suffix self) (tempdir self)
           (randomstring self) (filename self) (filepath self))
  else ret self.

Definition get_filename (self : TempFile) : str := filename self.
Definition get_path (self : TempFile) : str := filepath self.

(** [with TempFile(prefix, suffix) as tempf: body]: [__exit__] calls
    [destroy] on every way out of [body]. *)
Definition with_TempFile `{Host} {A} (fuel : nat) (prefix suffix : str)
  (body : TempFile -> M A) : M A :=
  tempf <- TempFile_init fuel prefix suffix ;;
  fun w =>
    match body tempf w with
    | (Ok a, w') =>
      match destroy tempf w' with
      | (Ok _, w'') => (Ok a, w'')
      | (Raise e, w'') => (Raise e, w'')
      | (Diverge, w'') => (Diverge, w'')
      end
    | (Raise e, w') =>
      match destroy tempf w' with
      | (Ok _, w'') => (Raise e, w'')
      | (Raise e', w'') => (Raise (During e e'), w'')
      | (Diverge, w'') => (Diverge, w'')
      end
    | (Diverge, w') => (Diverge, w')
    end.

(** ** The engine round trip *)

(** The script fed to Festival: [command.format(TEXT=string, PATH=path)]. *)
Definition format_command (string path : str) : str :=
  u "(voice_cb_cy_llg_diphone)" ++ [LF]
  ++ u "(utt.save.segs (utt.synth (Utterance Text " ++ [QUOTE] ++ string
  ++ [QUOTE] ++ u ")) " ++ [QUOTE] ++ path ++ [QUOTE] ++ u ")" ++ [LF]
  ++ u "(exit)" ++ [LF; LF].

(** Lines 209 to 211: start the process, write the script, flush. *)
Definition popen `{Festival} (command : str) : M unit :=
  match festival_start command with
  | Some e => raise e
  | None => do_event (Popen command)
  end.

Definition timeout_message `{Host} (timeout : Q) (command : str) : str :=
  u "Festival subprocess timed out (Timeout: " ++ fmt_s_number timeout
  ++ u "s, Command: " ++ command ++ u ").".

(** The [for i in range(timeout_loops+1)] loop; [indices] is what is
    left of the range.  Iteration [i] runs after [i] sleeps. *)
Fixpoint poll_loop `{Festival} `{Host} (command : str) (timeout : Q)
  (timeout_loops : Z) (indices : list Z) : M unit :=
  match indices with
  | [] => ret tt
  | i :: rest =>
    do_event Poll ;;;
    match festival_poll command (Z.to_nat i) with
    | Some status =>          (* Proc has finished: break *)
      fun w => (Ok tt, set_fs (festival_files command (fs w)) w)
    | None =>                 (* Proc still going *)
      if i <? timeout_loops then
        do_event (Sleep (1 # 10)) ;;;
        poll_loop command timeout timeout_loops rest
      else
        do_event Kill ;;;
        do_event (Print (u "Festivl timed out after "
                         ++ fmt_d (int_of_Q (inject_Z timeout_loops * (1 # 10)))
                         ++ u "s")) ;;;
        raise (Exception (timeout_message timeout command))
    end
  end.

(** The loop over [output]: the last field of every line, each followed
    by a space. *)
Fixpoint last_fields (output : list str) (transcription : str) : result str :=
  match output with
  | [] => Ok transcription
  | line :: rest =>
    bind (last_item (split_ws line))
         (fun field => last_fields rest (transcription ++ field ++ u " "))
  end.

(** [transcribe_string(string, timeout=5)] *)
Definition transcribe_string `{Unicodedata} `{Host} `{Festival}
  (fuel : nat) (string : str) (timeout : Q) : M str :=
  string <- lift (map_utf8_to_festival string) ;;
  output <-
    with_TempFile fuel (u "festival-") (u ".segs") (fun tempf =>
      let string := festival_escape string in
      let path := festival_escape (get_path tempf) in
      let command := format_command string path in
      popen command ;;;
      let timeout_loops := int_of_Q (timeout / (1 # 10)) in
      poll_loop command timeout timeout_loops (range1 (timeout_loops + 1)) ;;;
      read_lines (get_path tempf)) ;;
  transcription <- lift (last_fields output []) ;;
  lift (map_festival_to_ipa transcription false false true).

(** Lines 213 and 222 as binary64 computes them: [int(timeout/0.1)],
    and the [timeout_loops*0.1] that ["%d"] truncates.
    [transcribe_string] above computes both in exact arithmetic. *)
Definition timeout_loops_binary64 (timeout : float) : option Z :=
  int_of_float (float_div timeout float_0_1).
Definition timeout_printed_binary64 (timeout_loops : Z) : option Z :=
  int_of_float (float_mul (float_of_int timeout_loops) float_0_1).

(** [transcribe_line(line, timeout=30)].  Marking the current process as
    non-daemonic changes nothing in [world]. *)
Definition transcribe_line `{Unicodedata} `{Host} `{Festival}
  (fuel : nat) (line : str) (timeout : Q) : M str :=
  fields <- lift (unpack2 (split_on COMMA (strip line))) ;;
  let '(word, count) := fields in
  transcription <- transcribe_string fuel word timeout ;;
  ret (transcription ++ u "," ++ count ++ u "," ++ word ++ [CR; LF]).

(** ** The orchestrator *)

(** [fout.write(line)] *)
Definition write_line (outfile : str) (line : str) : M unit :=
  fun w =>
    (Ok tt, set_fs (<[outfile := default [] (fs w !! outfile) ++ [line]]> (fs w)) w).

(** The loop of [transcribe_file] over the chunks;
    [worker] is [transcribe_line] as run by the pool. *)
Fixpoint write_chunks (worker : str -> result str) (outfile : str)
  (chunks : list (list str)) (count_lines : Z) : M Z :=
  match chunks with
  | [] => ret count_lines
  | chunk :: rest =>
    let count_lines := count_lines + Z.of_nat (length chunk) in
    fout_lines <- lift (pool_map worker chunk) ;;
    for_each fout_lines (write_line outfile) ;;;
    write_chunks worker outfile rest count_lines
  end.

(** [transcribe_file(infile, outfile, nprocs, verbose=False)]; the
    result is [count_lines]. *)
Definition transcribe_file (worker : str -> result str)
  (infile outfile : str) (nprocs : Z) : M Z :=
  is_there <- isfile infile ;;
  if negb is_there then
    raise (IOError (u "Error: Could not open SOURCE_FILE (" ++ infile
                    ++ u ") for reading: [Errno 2] No such file or directory"))
  else
    create_empty outfile ;;;                 (* open(outfile, "w+") *)
    fin_lines <- read_lines infile ;;
    (* multiprocessing.Pool(processes=nprocs) *)
    if nprocs <? 1 then
      raise (ValueError (u "Number of processes must be at least 1"))
    else
      chunks <- lift (shared.chunks fin_lines nprocs) ;;
      write_chunks worker outfile chunks 0.

(** ** Files that cannot be opened, objects that change *)

(** The definitions above take every [open(path, "w+")] to succeed and
    the body of a [with] block to leave its [TempFile] alone.  The ones
    below drop both assumptions. *)

(** [TempFile.__init__(prefix, suffix)] with its [except IOError:
    continue]: a name whose file cannot be opened is given up for the
    next one.  The loop is run for at most [fuel] rounds. *)
Fixpoint TempFile_init_io `{Host} `{Permissions} (fuel : nat)
  (prefix suffix : str) : M TempFile :=
  match fuel with
  | O => lift Diverge
  | S fuel' =>
    randomstring <- random_string 5 ;;
    let filename := prefix ++ randomstring ++ suffix in
    let filepath := gettempdir ++ path_sep ++ filename in
    taken <- isfile filepath ;;
    if taken : bool then TempFile_init_io fuel' prefix suffix
    else
      fun w =>
        match open_w filepath w with
        | (Ok _, w') =>                                      (* break *)
          (Ok (mkTempFile false prefix suffix gettempdir randomstring
                 filename filepath), w')
        | (Raise (IOError _), w') =>                         (* continue *)
          TempFile_init_io fuel' prefix suffix w'
        | (Raise e, w') => (Raise e, w')
        | (Diverge, w') => (Diverge, w')
        end
  end.

(** [with TempFile(prefix, suffix) as tempf: body] for a body that may
    call the methods of [tempf] or assign to its fields: [body tempf]
    gives, with its outcome, the object as it leaves it, and it is on
    that object that [__exit__] calls [destroy]. *)
Definition with_TempFile_obj `{Host} `{Permissions} {A} (fuel : nat)
  (prefix suffix : str)
  (body : TempFile -> world -> result A * TempFile * world) : M A :=
  tempf <- TempFile_init_io fuel prefix suffix ;;
  fun w =>
    match body tempf w with
    | (Ok a, self, w') =>
      match destroy self w' with
      | (Ok _, w'') => (Ok a, w'')
      | (Raise e, w'') => (Raise e, w'')
      | (Diverge, w'') => (Diverge, w'')
      end
    | (Raise e, self, w') =>
      match destroy self w' with
      | (Ok _, w'') => (Raise e, w'')
      | (Raise e', w'') => (Raise (During e e'), w'')
      | (Diverge, w'') => (Diverge, w'')
      end
    | (Diverge, _, w') => (Diverge, w')
    end.

(** [transcribe_file(infile, outfile, nprocs)] with [verbose] left at
    its default [False], and with both [try] blocks: the [IOError] of an
    [open] is caught and another one raised in its place.  As above, a
    source that is in [fs] can be read.  The function has no [return]:
    its value is [None]. *)
Definition transcribe_file_io `{Permissions} (worker : str -> result str)
  (infile outfile : str) (nprocs : Z) : M unit :=
  is_there <- isfile infile ;;
  if negb is_there then
    let ex := u "[Errno 2] No such file or directory: '" ++ infile ++ u "'" in
    raise (During (FileNotFoundError infile)
             (IOError (u "Error: Could not open SOURCE_FILE (" ++ infile
                       ++ u ") for reading: " ++ ex)))
  else
    (fun w =>
       match open_w outfile w with
       | (Raise (IOError ex), w') =>
         (Raise (During (IOError ex)
                   (IOError (u "Error Could not open DEST_FILE (" ++ outfile
                             ++ u ") for writing: " ++ ex))), w')
       | other => other
       end) ;;;
    fin_lines <- read_lines infile ;;
    (* multiprocessing.Pool(processes=nprocs) *)
    if nprocs <? 1 then
      raise (ValueError (u "Number of processes must be at least 1"))
    else
      chunks <- lift (shared.chunks fin_lines nprocs) ;;
      write_chunks worker outfile chunks 0 ;;;
      ret tt.

End transcription.

(* ===================================================================== *)
(** * A concrete environment *)
(* ===================================================================== *)

(** Instances of the interfaces on which the functions above can be run. *)
Module sample.

(** The compatibility decompositions of the accented letters of the
    Welsh alphabet (the letters [shared.is_welsh_utf8] accepts). *)
Definition welsh_decompositions : list (N * str) :=
  [ (196, [65; 776]); (203, [69; 776]); (207, [73; 776]); (214, [79; 776]);
    (220, [85; 776]); (7812, [87; 776]); (376, [89; 776]); (228, [97; 776]);
    (235, [101; 776]); (239, [105; 776]); (246, [111; 776]); (252, [117; 776]);
    (7813, [119; 776]); (255, [121; 776]); (194, [65; 770]); (202, [69; 770]);
    (206, [73; 770]); (212, [79; 770]); (219, [85; 770]); (372, [87; 770]);
    (374, [89; 770]); (226, [97; 770]); (234, [101; 770]); (238, [105; 770]);
    (244, [111; 770]); (251, [117; 770]); (373, [119; 770]); (375, [121; 770]);
    (193, [65; 769]); (201, [69; 769]); (205, [73; 769]); (211, [79; 769]);
    (218, [85; 769]); (7810, [87; 769]); (221, [89; 769]); (225, [97; 769]);
    (233, [101; 769]); (237, [105; 769]); (243, [111; 769]); (250, [117; 769]);
    (7811, [119; 769]); (253, [121; 769]); (192, [65; 768]); (200, [69; 768]);
    (204, [73; 768]); (210, [79; 768]); (217, [85; 768]); (7808, [87; 768]);
    (7922, [89; 768]); (224, [97; 768]); (232, [101; 768]); (236, [105; 768]);
    (242, [111; 768]); (249, [117; 768]); (7809, [119; 768]);
    (7923, [121; 768]) ]%N.

Fixpoint decompose_in (table : list (N * str)) (c : N) : str :=
  match table with
  | [] => [c]
  | (k, d) :: rest => if (c =? k)%N then d else decompose_in rest c
  end.

(** NFKD restricted to ASCII and the Welsh alphabet: the listed letters
    are split into base letter and combining mark, every other code
    point is kept. *)
Definition nfkd_welsh : Unicodedata :=
  {| normalize_NFKD := flat_map (decompose_in welsh_decompositions) |}.

(** A host whose temporary directory is [/tmp] and whose random
    generator draws 0, 1, 2, ... *)
Definition host : Host :=
  {| gettempdir := u "/tmp";
     path_sep := u "/";
     system_random := fun k => k;
     fmt_s_number := fun q => fmt_d (int_of_Q q) |}.

(** A Festival that is seen to have exited at the third poll and has
    then saved the segments k, a, f, i. *)
Definition caffi_segs : list str :=
  [ u "0.0550 100 k" ++ [LF]; u "0.1450 100 a" ++ [LF];
    u "0.2600 100 f" ++ [LF]; u "0.3300 100 i" ++ [LF] ].

Definition festival_caffi : Festival :=
  {| festival_start := fun _ => None;
     festival_poll := fun _ n => if (n <? 2)%nat then None else Some 0;
     festival_files := fun _ f => <[u "/tmp/festival-ABCDE.segs" := caffi_segs]> f |}.

(** A Festival that never exits. *)
Definition festival_hang : Festival :=
  {| festival_start := fun _ => None;
     festival_poll := fun _ _ => None;
     festival_files := fun _ f => f |}.

(** A Festival that cannot be started. *)
Definition festival_missing : Festival :=
  {| festival_start := fun _ => Some (FileNotFoundError (u "festival"));
     festival_poll := fun _ _ => None;
     festival_files := fun _ f => f |}.

(** A Festival that exits only at the 61st poll, six seconds after its
    start. *)
Definition festival_slow : Festival :=
  {| festival_start := fun _ => None;
     festival_poll := fun _ n => if (n <? 60)%nat then None else Some 0;
     festival_files := fun _ f => <[u "/tmp/festival-ABCDE.segs" := caffi_segs]> f |}.

Definition empty_world : world := World ∅ 0 [].

(** A host that refuses to open the first temporary file of [host] and
    the file [/etc/words.txt]. *)
Definition refusing : Permissions :=
  {| open_w_error := fun path =>
       if bool_decide (path = u "/tmp/festival-ABCDE.segs")
       then Some (u "[Errno 13] Permission denied: '/tmp/festival-ABCDE.segs'")
       else if bool_decide (path = u "/etc/words.txt")
       then Some (u "[Errno 13] Permission denied: '/etc/words.txt'")
       else None |}.

(** The general categories of ASCII, of the accented letters of the
    Welsh alphabet and of their combining marks; any other code point
    counts as unassigned. *)
Definition category_ascii_welsh : UnicodeCategory :=
  {| category := fun c =>
       if ((c <=? 31) || (c =? 127))%N then u "Cc"
       else if (c =? 32)%N then u "Zs"
       else if ((97 <=? c) && (c <=? 122))%N then u "Ll"
       else if ((65 <=? c) && (c <=? 90))%N then u "Lu"
       else if ((48 <=? c) && (c <=? 57))%N then u "Nd"
       else if (c =? 95)%N then u "Pc"
       else if (c =? 45)%N then u "Pd"
       else if ((c =? 41) || (c =? 93) || (c =? 125))%N then u "Pe"
       else if ((c =? 40) || (c =? 91) || (c =? 123))%N then u "Ps"
       else if (c =? 36)%N then u "Sc"
       else if ((c =? 94) || (c =? 96))%N then u "Sk"
       else if ((c =? 43) || (60 <=? c) && (c <=? 62) || (c =? 124)
                || (c =? 126))%N then u "Sm"
       else if (c <? 128)%N then u "Po"
       else if ((c =? 768) || (c =? 769) || (c =? 770) || (c =? 776))%N
       then u "Mn"
       else if bool_decide (c ∈ [196; 203; 207; 214; 220; 7812; 376; 194;
                                 202; 206; 212; 219; 372; 374; 193; 201;
                                 205; 211; 218; 7810; 221; 192; 200; 204;
                                 210; 217; 7808; 7922]%N)
       then u "Lu"
       else if bool_decide (c ∈ (List.map fst welsh_decompositions))
       then u "Ll"
       else u "Cn" |}.

(** The temporary file [TempFile('festival-', '.segs')] makes on [host]
    in [empty_world], and the world it leaves. *)
Definition tempfile : transcription.TempFile :=
  transcription.mkTempFile false (u "festival-") (u ".segs") (u "/tmp")
    (u "ABCDE") (u "festival-ABCDE.segs") (u "/tmp/festival-ABCDE.segs").

Definition world_with_tempfile : world :=
  World {[ u "/tmp/festival-ABCDE.segs" := [] ]} 5 [].

End sample.

(* ===================================================================== *)
(** * The specification's vocabulary *)
(* ===================================================================== *)

(** Definitions that follow the words of the specification; the
    properties below compare the code with them. *)
Module spec.

(** The number of chunks of [n] records for a pool of [P]: the length of
    [range(0, n, P)]. *)
Definition nchunks (n : nat) (P : nat) : nat :=
  Z.to_nat ((Z.of_nat n + Z.of_nat P - 1) / Z.of_nat P).

(** [escapeForScript] on one code point: a backslash is doubled, a
    double quote gets a backslash in front, anything else is kept. *)
Definition escape_char (c : N) : str :=
  if (c =? BACKSLASH)%N then [BACKSLASH; BACKSLASH]
  else if (c =? QUOTE)%N then [BACKSLASH; QUOTE]
  else [c].

(** The reverse transformation.  It reads a backslash together with the
    backslash or quote that follows it, and fails on a backslash followed
    by anything else (or by nothing) and on a quote that no backslash
    precedes: it succeeds only on text in which every backslash and every
    quote is escaped. *)
Fixpoint unescape (s : str) : option str :=
  match s with
  | [] => Some []
  | c :: r =>
    if (c =? BACKSLASH)%N then
      match r with
      | c' :: r' =>
        if (c' =? BACKSLASH)%N || (c' =? QUOTE)%N
        then (fun t => c' :: t) <$> unescape r'
        else None
      | [] => None
      end
    else if (c =? QUOTE)%N then None
    else (fun t => c :: t) <$> unescape r
  end.

(** [normalizeForEngine] on one code point of the decomposed word: the
    four combining marks become their markers, other non-ASCII code
    points are dropped, ASCII is kept. *)
Definition festival_char (c : N) : str :=
  if (c =? 770)%N then u "+"              (* circumflex *)
  else if (c =? 776)%N then u ":"         (* diaeresis *)
  else if (c =? 769)%N then u "/"         (* acute *)
  else if (c =? 768)%N then [BACKSLASH]   (* grave *)
  else if (c <? 128)%N then [c]
  else [].

(** The table [map_festival_to_ipa] uses by default, written out as
    code points: label, then IPA. *)
Definition default_table_code_points : list (str * str) :=
  [
    ([105], [105]); ([101], [101]); ([97], [97]); ([111], [111]);
     ([117], [117]); ([121], [616]); ([64], [601]);
     ([105; 105], [105; 720]); ([101; 101], [101; 720]);
     ([97; 97], [97; 720]); ([111; 111], [111; 720; 720]);
     ([117; 117], [117; 720]); ([121; 121], [616; 720]);
     ([64; 64], [601; 720]); ([111; 97], [111; 97]);
     ([111; 105], [111; 105]); ([111; 117], [111; 117]);
     ([111; 121], [111; 616]); ([97; 105], [97; 105]);
     ([97; 117], [97; 117]); ([97; 121], [97; 616]);
     ([97; 97; 121], [97; 720; 616]); ([117; 121], [117; 616]);
     ([105; 117], [105; 117]); ([101; 105], [101; 105]);
     ([101; 117], [101; 117]); ([101; 121], [101; 616]);
     ([121; 101], [616; 101]); ([112], [112]); ([116], [116]);
     ([107], [107]); ([98], [98]); ([100], [100]); ([103], [103]);
     ([102], [102]); ([116; 104], [952]); ([104], [104]); ([120], [967]);
     ([118], [118]); ([100; 104], [240]); ([115], [115]); ([122], [122]);
     ([115; 104], [643]); ([122; 104], [658]); ([99; 104], [116; 865; 643]);
     ([106; 104], [100; 865; 658]); ([108; 104], [620]);
     ([114; 104], [114; 805; 688]); ([108], [108]); ([114], [114]);
     ([119], [119]); ([106], [106]); ([109], [109]); ([110], [110]);
     ([110; 103], [331]); ([109; 104], [109; 805]);
     ([110; 104], [110; 805]); ([110; 103; 104], [331; 778]);
     ([108; 119], [108; 695]); ([110; 119], [110; 695]);
     ([114; 119], [114; 695]); ([104; 104], [104]);
     ([121; 117], [616; 117]); ([115; 105; 108], [32]); ([35], []) ]%N.

(** [s] occurs in [t]. *)
Definition contains (t s : str) : Prop :=
  exists before after, t = before ++ s ++ after.

Definition is_ascii (c : N) : Prop := (c < 128)%N.

(** [destroy] called [n] times in a row on the same object. *)
Fixpoint destroy_times (n : nat) (self : transcription.TempFile)
  : M transcription.TempFile :=
  match n with
  | O => ret self
  | S n' => bindM (transcription.destroy self) (destroy_times n')
  end.

(** What an invocation that times out does, in order: the start of the
    process, [loops] rounds of poll and sleep, the last poll, the kill
    and the line printed. *)
Definition timeout_events (command : str) (loops : nat) : list event :=
  [Popen command]
  ++ concat (replicate loops [Poll; Sleep (1 # 10)])
  ++ [Poll; Kill;
      Print (u "Festivl timed out after "
             ++ fmt_d (int_of_Q (inject_Z (Z.of_nat loops) * (1 # 10)))
             ++ u "s")].

(** How often an event of the kind [p] occurs in a trace. *)
Fixpoint count (p : event -> bool) (tr : list event) : nat :=
  match tr with
  | [] => 0
  | e :: r => if p e then S (count p r) else count p r
  end.

Definition polls : list event -> nat :=
  count (fun e => match e with Poll => true | _ => false end).
Definition sleeps : list event -> nat :=
  count (fun e => match e with Sleep _ => true | _ => false end).
Definition kills : list event -> nat :=
  count (fun e => match e with Kill => true | _ => false end).

(** A reader of string literals: it takes the text up to the first quote
    that no backslash precedes, a backslash standing for the code point
    that follows it, and gives the text read and what follows the
    closing quote. *)
Fixpoint read_string_literal (s : str) : option (str * str) :=
  match s with
  | [] => None
  | c :: r =>
    if (c =? QUOTE)%N then Some ([], r)
    else if (c =? BACKSLASH)%N then
      match r with
      | c' :: r' =>
        (fun tr : str * str => (c' :: tr.1, tr.2)) <$> read_string_literal r'
      | [] => None
      end
    else (fun tr : str * str => (c :: tr.1, tr.2)) <$> read_string_literal r
  end.

(** The five code points [random_string] makes of the draws [d] to
    [d + 4], and the path [TempFile] builds with them. *)
Definition random_name `{Host} (d : nat) : str :=
  List.map (fun i =>
              nth (system_random (d + i)
                   mod length transcription.ascii_uppercase_digits)%nat
                transcription.ascii_uppercase_digits 0%N)
    (seq 0 5).

Definition temp_path `{Host} (prefix suffix : str) (d : nat) : str :=
  gettempdir ++ path_sep ++ prefix ++ random_name d ++ suffix.

(** The code points [strip_punctuation] keeps: those whose category is
    neither punctuation, nor separator, nor control or other. *)
Definition kept `{UnicodeCategory} (c : N) : bool :=
  negb (startswith (category c) (u "P"))
  && negb (startswith (category c) (u "Z"))
  && negb (startswith (category c) (u "C")).

(** What an invocation does when the engine is seen to have exited at
    poll [k]: the start of the process, [k] rounds of poll and sleep, and
    the poll that sees the exit. *)
Definition exit_events (command : str) (k : nat) : list event :=
  [Popen command] ++ concat (replicate k [Poll; Sleep (1 # 10)]) ++ [Poll].

(** The time spent in [time.sleep], in seconds: the sum of the durations
    of the sleeps of a trace. *)
Fixpoint time_slept (tr : list event) : Q :=
  match tr with
  | [] => 0%Q
  | Sleep seconds :: r => (seconds + time_slept r)%Q
  | _ :: r => time_slept r
  end.

(** The body [tempf.destroy()] of a [with] block: its outcome and the
    object as it leaves it. *)
Definition calls_destroy (tempf : transcription.TempFile)
  : world -> result unit * transcription.TempFile * world :=
  fun w =>
    match transcription.destroy tempf w with
    | (Ok self, w') => (Ok tt, self, w')
    | (Raise e, w') => (Raise e, tempf, w')
    | (Diverge, w') => (Diverge, tempf, w')
    end.

(** A body of a [with] block that does not touch the object. *)
Definition leaves_object {A} (body : transcription.TempFile -> M A)
  (tempf : transcription.TempFile)
  : world -> result A * transcription.TempFile * world :=
  fun w => let '(r, w') := body tempf w in (r, tempf, w').

End spec.

(* ===================================================================== *)
(** * Properties *)
(* ===================================================================== *)

Import transcription spec.

(** ** The definitions at work *)

Example u_decodes_utf8 : u "tŷ əː" = [116; 375; 32; 601; 720]%N.
Proof. reflexivity. Qed.

Example chunks_of_five_by_two :
  shared.chunks [1; 2; 3; 4; 5]%nat 2 = Ok [[1; 2]; [3; 4]; [5]]%nat.
Proof. reflexivity. Qed.

Example chunks_by_zero :
  shared.chunks [1; 2; 3]%nat 0
  = Raise (ValueError (u "range() arg 3 must not be zero")).
Proof. reflexivity. Qed.

Example estimate_remaining_time_example :
  shared.estimate_remaining_time 2 10 100 3725 = Ok (u "4h01m40s").
Proof. vm_compute. reflexivity. Qed.

Example festival_escape_example :
  festival_escape [97; BACKSLASH; QUOTE; 98]%N
  = [97; BACKSLASH; BACKSLASH; BACKSLASH; QUOTE; 98]%N.
Proof. reflexivity. Qed.

Example split_and_strip_example :
  split_ws (u "  0.05 100 k " ++ [LF]) = [u "0.05"; u "100"; u "k"]
  /\ strip (u " caffi,12" ++ [CR; LF]) = u "caffi,12"
  /\ split_on COMMA (u "a,b,,c") = [u "a"; u "b"; u ""; u "c"].
Proof. repeat split; reflexivity. Qed.

Example map_festival_to_ipa_example :
  map_festival_to_ipa (u "# k a f i sil lw") false false true
  = Ok (u "kafi lw")
  /\ map_festival_to_ipa (u "# k a f i sil lw") true true true
     = Ok (u "kafɪ lʷ").
Proof. split; vm_compute; reflexivity. Qed.

(** The table built by the code is the table of the source, entry by
    entry. *)
Example default_table_entries :
  forallb (fun kv => bool_decide (festival_to_ipa_mapping false true true
                                    !! kv.1 = Some kv.2))
    default_table_code_points = true
  /\ size (festival_to_ipa_mapping false true true) = 65%nat
  /\ length default_table_code_points = 65%nat.
Proof. repeat split; vm_compute; reflexivity. Qed.

(** A run of the worker on the sample host. *)
Example transcribe_line_run_example :
  fst (@transcribe_line sample.nfkd_welsh sample.host sample.festival_caffi
         1 (u "caffi,12" ++ [LF]) 30 sample.empty_world)
  = Ok (u "kafi,12,caffi" ++ [CR; LF]).
Proof. vm_compute. reflexivity. Qed.

(** With a negative limit the range of the polling loop is empty: the
    engine is neither polled nor killed, and the temporary file is read
    as it is. *)
Example negative_timeout_skips_the_loop :
  @transcribe_string sample.nfkd_welsh sample.host sample.festival_hang
    1 (u "tŷ") (-1) sample.empty_world
  = (Ok [],
     World ∅ 5
       [Popen (format_command (u "ty+") (u "/tmp/festival-ABCDE.segs"))]).
Proof. vm_compute. reflexivity. Qed.

(** ** Chunking and the order of the output *)

Section chunking.
Context {A : Type}.
Implicit Types (lst : list A) (P m k : nat).

Lemma nchunks_bounds n P :
  (1 <= P)%nat ->
  (n <= nchunks n P * P)%nat /\
  (forall k, (k < nchunks n P)%nat -> (k * P < n)%nat).
Proof.
  intros HP. unfold nchunks.
  set (q := (Z.of_nat n + Z.of_nat P - 1) / Z.of_nat P).
  assert (Hq : Z.of_nat P * q <= Z.of_nat n + Z.of_nat P - 1
               < Z.of_nat P * (q + 1)).
  { pose proof (Z.mul_div_le (Z.of_nat n + Z.of_nat P - 1) (Z.of_nat P)).
    pose proof (Z.mul_succ_div_gt (Z.of_nat n + Z.of_nat P - 1) (Z.of_nat P)).
    unfold q. lia. }
  assert (0 <= q) by (apply Z.div_pos; lia).
  split.
  - nia.
  - intros k Hk. nia.
Qed.

Lemma slice_chunk lst (p : Z) k :
  1 <= p -> (k * Z.to_nat p < length lst)%nat ->
  slice lst (0 + Z.of_nat k * p) (0 + Z.of_nat k * p + p)
  = take (Z.to_nat p) (drop (k * Z.to_nat p) lst).
Proof.
  intros Hp Hk. unfold slice, slice_index.
  assert (Hi : 0 <= 0 + Z.of_nat k * p) by nia.
  destruct (Z.ltb_spec (0 + Z.of_nat k * p) 0) as [|_]; [lia|].
  destruct (Z.ltb_spec (0 + Z.of_nat k * p + p) 0) as [|_]; [lia|].
  assert (Hlt : 0 + Z.of_nat k * p < Z.of_nat (length lst)) by nia.
  rewrite (Z.min_l (0 + Z.of_nat k * p)) by lia.
  replace (Z.to_nat (0 + Z.of_nat k * p)) with (k * Z.to_nat p)%nat by nia.
  destruct (Z.le_ge_cases (0 + Z.of_nat k * p + p) (Z.of_nat (length lst))).
  - rewrite Z.min_l by lia. f_equal. lia.
  - rewrite Z.min_r by lia.
    rewrite !take_ge; [done | rewrite length_drop; nia | rewrite length_drop; nia].
Qed.

Lemma chunks_eq lst (p : Z) :
  1 <= p ->
  shared.chunks lst p
  = Ok (List.map (fun k => take (Z.to_nat p) (drop (k * Z.to_nat p) lst))
          (seq 0 (nchunks (length lst) (Z.to_nat p)))).
Proof.
  intros Hp. unfold shared.chunks, range.
  destruct (Z.eqb_spec p 0) as [|_]; [lia|].
  destruct (Z.ltb_spec 0 p) as [_|]; [|lia]. cbn [bind].
  f_equal. rewrite List.map_map.
  replace (Z.to_nat ((Z.of_nat (length lst) - 0 + p - 1) / p))
    with (nchunks (length lst) (Z.to_nat p)).
  2:{ unfold nchunks. rewrite Z2Nat.id by lia. do 2 f_equal. lia. }
  apply List.map_ext_in. intros k Hk. apply List.in_seq in Hk.
  apply slice_chunk; [done|].
  apply (nchunks_bounds (length lst) (Z.to_nat p)); lia.
Qed.

Lemma concat_take_drop lst P m :
  concat (List.map (fun k => take P (drop (k * P) lst)) (seq 0 m))
  = take (m * P) lst.
Proof.
  induction m as [|m IH]; [done|].
  rewrite List.seq_S, List.map_app, concat_app, IH. cbn.
  rewrite app_nil_r, take_take_drop. f_equal. lia.
Qed.

End chunking.

Section orchestrator.
Variable worker : str -> result str.

Lemma pool_map_Ok (chunk : list str) ys :
  pool_map worker chunk = Ok ys ->
  Forall2 (fun x y => worker x = Ok y) chunk ys.
Proof.
  revert ys. induction chunk as [|x r IH]; intros ys; cbn.
  - intros [= <-]. constructor.
  - destruct (worker x) eqn:Hx; [|done..].
    destruct (pool_map worker r) eqn:Hr; [|done..].
    intros [= <-]. constructor; auto.
Qed.

Lemma pool_map_all_ok (chunk : list str) :
  Forall (fun x => is_ok (worker x) = true) chunk ->
  exists ys, pool_map worker chunk = Ok ys.
Proof.
  induction 1 as [|x r Hx _ [ys IH]]; cbn; [by eexists|].
  destruct (worker x); [|done..]. rewrite IH. by eexists.
Qed.

Lemma for_each_write_line outfile (ys pre : list str) w :
  fs w !! outfile = Some pre ->
  exists w', for_each ys (write_line outfile) w = (Ok tt, w')
             /\ fs w' !! outfile = Some (pre ++ ys).
Proof.
  revert pre w. induction ys as [|y r IH]; intros pre w Hpre; cbn.
  - exists w. by rewrite app_nil_r.
  - unfold bindM, write_line at 1. rewrite Hpre. cbn.
    edestruct (IH (pre ++ [y])) as (w' & -> & Hw');
      [|exists w'; split; [done|by rewrite Hw', <- app_assoc]].
    cbn. apply lookup_insert_eq.
Qed.

(** What [write_chunks] leaves in the output file: the results of an
    initial part of the input, in the order of the input. *)
Lemma write_chunks_spec outfile (chunks : list (list str)) c pre w :
  fs w !! outfile = Some pre ->
  exists r w' out,
    write_chunks worker outfile chunks c w = (r, w')
    /\ fs w' !! outfile = Some (pre ++ out)
    /\ Forall2 (fun x y => worker x = Ok y)
         (take (length out) (concat chunks)) out
    /\ (Forall (fun x => is_ok (worker x) = true) (concat chunks) ->
        r = Ok (c + Z.of_nat (length (concat chunks)))
        /\ length out = length (concat chunks)).
Proof.
  revert c pre w. induction chunks as [|chunk rest IH]; intros c pre w Hpre.
  - exists (Ok c), w, []. cbn. rewrite app_nil_r.
    split; [done|]. split; [done|]. split; [constructor|].
    intros _. split; [f_equal; lia|done].
  - cbn [write_chunks]. unfold bindM at 1, lift.
    destruct (pool_map worker chunk) as [ys| e |] eqn:Hmap.
    + pose proof (pool_map_Ok _ _ Hmap) as Hys.
      pose proof (Forall2_length _ _ _ Hys) as Hlen.
      destruct (for_each_write_line outfile ys pre w Hpre) as (w1 & Hw1 & Hf1).
      unfold bindM. rewrite Hw1.
      destruct (IH (c + Z.of_nat (length chunk)) (pre ++ ys) w1 Hf1)
        as (r & w' & out & -> & Hout & Hrel & Hall).
      exists r, w', (ys ++ out). split; [done|].
      split; [by rewrite Hout, app_assoc|]. split.
      * cbn [concat]. rewrite length_app, <- Hlen, take_app_add'; [|done].
        by apply Forall2_app.
      * cbn [concat]. intros Hok. apply Forall_app in Hok as [_ Hok].
        destruct (Hall Hok) as [-> Hl]. rewrite !length_app, Hl, Hlen.
        split; [f_equal; lia|done].
    + exists (Raise e), w, []. rewrite app_nil_r.
      split; [done|]. split; [done|]. split; [constructor|].
      intros Hok; cbn [concat] in Hok; apply Forall_app in Hok as [Hok _].
      destruct (pool_map_all_ok _ Hok) as [ys Hys]; congruence.
    + exists Diverge, w, []. rewrite app_nil_r.
      split; [done|]. split; [done|]. split; [constructor|].
      intros Hok; cbn [concat] in Hok; apply Forall_app in Hok as [Hok _].
      destruct (pool_map_all_ok _ Hok) as [ys Hys]; congruence.
Qed.

End orchestrator.

Lemma map_fmap {A B} (f : A -> B) (l : list A) : List.map f l = f <$> l.
Proof. reflexivity. Qed.

Lemma Forall2_take_lookup {A B} (R : A -> B -> Prop) (l : list A) (out : list B) :
  Forall2 R (take (length out) l) out ->
  forall i y, out !! i = Some y -> exists x, l !! i = Some x /\ R x y.
Proof.
  intros HF i y Hy.
  destruct (Forall2_lookup_r _ _ _ _ _ HF Hy) as (x & Hx & HR).
  exists x. split; [|done].
  rewrite lookup_take_Some in Hx. tauto.
Qed.

(** C1. For a pool size [p >= 1], [shared.chunks] cuts the list of
    records into consecutive chunks: chunk [k] is the [p] records from
    position [k * p] on, every chunk but the last has exactly [p] records,
    the last has between 1 and [p], and the chunks put end to end are the
    list.  [transcribe_file], which maps every chunk in order and writes
    its results in order, therefore leaves in the output file, at every
    position [i] it has written, the result of input record [i]; when no
    record fails, it writes one output record per input record. *)
Theorem chunks_partition_preserves_order :
  forall (lst : list str) (p : Z),
    1 <= p ->
    exists cs : list (list str),
      shared.chunks lst p = Ok cs
      /\ concat cs = lst
      /\ (forall k c, cs !! k = Some c ->
            c = take (Z.to_nat p) (drop (k * Z.to_nat p) lst)
            /\ (1 <= length c <= Z.to_nat p)%nat
            /\ ((S k < length cs)%nat -> length c = Z.to_nat p))
      /\ (forall (worker : str -> result str) infile outfile w,
            fs w !! infile = Some lst -> infile <> outfile ->
            exists r w' out,
              transcribe_file worker infile outfile p w = (r, w')
              /\ fs w' !! outfile = Some out
              /\ (forall i y, out !! i = Some y ->
                    exists x, lst !! i = Some x /\ worker x = Ok y)
              /\ (Forall (fun x => is_ok (worker x) = true) lst ->
                    r = Ok (Z.of_nat (length lst))
                    /\ length out = length lst)).
Proof.
  intros lst p Hp.
  set (P := Z.to_nat p). assert (HP : (1 <= P)%nat) by lia.
  destruct (nchunks_bounds (length lst) P HP) as [Hcover Hstart].
  eexists. split; [by apply chunks_eq|].
  assert (Hcat : concat (List.map (fun k => take P (drop (k * P) lst))
                           (seq 0 (nchunks (length lst) P))) = lst).
  { rewrite concat_take_drop. by apply take_ge. }
  split; [exact Hcat|]. split.
  - intros k c. rewrite map_fmap, list_lookup_fmap, length_fmap, length_seq.
    intros Hk. apply fmap_Some in Hk as (k' & Hk & ->).
    apply lookup_seq in Hk as [-> Hk]. cbn.
    split; [done|]. rewrite length_take, length_drop.
    pose proof (Hstart k Hk). split; [lia|].
    intros HS. pose proof (Hstart (S k) HS). lia.
  - intros worker infile outfile w Hin Hne.
    unfold transcribe_file, bindM at 1, isfile. rewrite Hin.
    rewrite bool_decide_eq_true_2 by by eexists. cbn [negb].
    unfold bindM at 1, create_empty. unfold bindM at 1, read_lines.
    cbn [fs set_fs]. rewrite lookup_insert_ne by done. rewrite Hin.
    destruct (Z.ltb_spec p 1) as [|_]; [lia|].
    unfold bindM at 1, lift. rewrite chunks_eq by done. fold P.
    set (w0 := set_fs _ w).
    destruct (write_chunks_spec worker outfile
                (List.map (fun k => take P (drop (k * P) lst))
                   (seq 0 (nchunks (length lst) P))) 0 [] w0)
      as (r & w' & out & Hrun & Hout & Hrel & Hall).
    { apply lookup_insert_eq. }
    rewrite Hcat in Hrel, Hall.
    exists r, w', out. split; [done|]. split; [done|]. split.
    + by apply Forall2_take_lookup.
    + intros Hok. destruct (Hall Hok) as [-> ->]. done.
Qed.

(** The instance of C1 for three records and a pool of two. *)
Lemma chunks_partition_preserves_order_witness :
  1 <= 2 /\
  exists cs : list (list str),
    shared.chunks [u "a,1"; u "b,2"; u "c,3"] 2 = Ok cs
    /\ concat cs = [u "a,1"; u "b,2"; u "c,3"]
    /\ (forall k c, cs !! k = Some c ->
          c = take (Z.to_nat 2) (drop (k * Z.to_nat 2) [u "a,1"; u "b,2"; u "c,3"])
          /\ (1 <= length c <= Z.to_nat 2)%nat
          /\ ((S k < length cs)%nat -> length c = Z.to_nat 2))
    /\ (forall (worker : str -> result str) infile outfile w,
          fs w !! infile = Some [u "a,1"; u "b,2"; u "c,3"] -> infile <> outfile ->
          exists r w' out,
            transcribe_file worker infile outfile 2 w = (r, w')
            /\ fs w' !! outfile = Some out
            /\ (forall i y, out !! i = Some y ->
                  exists x, [u "a,1"; u "b,2"; u "c,3"] !! i = Some x /\ worker x = Ok y)
            /\ (Forall (fun x => is_ok (worker x) = true) [u "a,1"; u "b,2"; u "c,3"] ->
                  r = Ok (Z.of_nat (length [u "a,1"; u "b,2"; u "c,3"]))
                  /\ length out = length [u "a,1"; u "b,2"; u "c,3"])).
Proof.
  split; [lia|].
  apply (chunks_partition_preserves_order [u "a,1"; u "b,2"; u "c,3"] 2). lia.
Defined.

(** ** Escaping *)

Lemma replace_app old new (a b : str) :
  replace old new (a ++ b) = replace old new a ++ replace old new b.
Proof. unfold replace. apply flat_map_app. Qed.

Lemma festival_escape_unfold s :
  festival_escape s
  = replace QUOTE [BACKSLASH; QUOTE]
      (replace BACKSLASH [BACKSLASH; BACKSLASH] s).
Proof. reflexivity. Qed.

Lemma festival_escape_chars s :
  festival_escape s = flat_map escape_char s.
Proof.
  rewrite festival_escape_unfold.
  induction s as [|c s IH]; [done|].
  change (c :: s) with ([c] ++ s).
  rewrite !replace_app, IH, flat_map_app. f_equal.
  unfold replace, escape_char. cbn [flat_map].
  destruct (N.eqb_spec c BACKSLASH) as [->|Hb]; [done|].
  cbn [flat_map app]. rewrite app_nil_r.
  destruct (N.eqb_spec c QUOTE) as [->|Hq]; [done|]. done.
Qed.

Lemma unescape_escape_char c (t : str) :
  unescape (escape_char c ++ t) = (fun r => c :: r) <$> unescape t.
Proof.
  unfold escape_char.
  destruct (N.eqb_spec c BACKSLASH) as [->|Hb]; [done|].
  destruct (N.eqb_spec c QUOTE) as [->|Hq]; [done|].
  cbn. rewrite (proj2 (N.eqb_neq _ _) Hb), (proj2 (N.eqb_neq _ _) Hq). done.
Qed.

Lemma unescape_escape s : unescape (flat_map escape_char s) = Some s.
Proof.
  induction s as [|c s IH]; [done|].
  cbn [flat_map]. by rewrite unescape_escape_char, IH.
Qed.

(** C3. [festival_escape] first doubles every backslash and then puts a
    backslash in front of every double quote; the result is the input
    with every backslash and every quote replaced by its escape, from
    which [unescape] recovers the input (so the function is injective),
    and in which no backslash and no quote is left unescaped. *)
Theorem festival_escape_reversible :
  forall s : str,
    festival_escape s
    = replace QUOTE [BACKSLASH; QUOTE]
        (replace BACKSLASH [BACKSLASH; BACKSLASH] s)
    /\ festival_escape s = flat_map escape_char s
    /\ unescape (festival_escape s) = Some s
    /\ (forall s', festival_escape s' = festival_escape s -> s' = s).
Proof.
  intros s. split; [apply festival_escape_unfold|].
  split; [apply festival_escape_chars|].
  assert (Hrev : forall t, unescape (festival_escape t) = Some t).
  { intros t. rewrite festival_escape_chars. apply unescape_escape. }
  split; [apply Hrev|].
  intros s' Heq. pose proof (Hrev s') as Hs'. rewrite Heq, Hrev in Hs'.
  congruence.
Qed.

(** ** Normalisation for the engine *)

Lemma replace_marks_char (c : N) :
  fold_left (fun string kv => replace (fst kv) (snd kv) string)
    utf8_to_festival_mapping [c]
  = if (c =? 770)%N then u "+"
    else if (c =? 776)%N then u ":"
    else if (c =? 769)%N then u "/"
    else if (c =? 768)%N then [BACKSLASH]
    else [c].
Proof.
  cbn [fold_left utf8_to_festival_mapping fst snd].
  unfold replace at 4. cbn [flat_map].
  destruct (N.eqb_spec c 770) as [->|H1]; [reflexivity|].
  cbn [app flat_map]. unfold replace at 3. cbn [flat_map].
  destruct (N.eqb_spec c 776) as [->|H2]; [reflexivity|].
  cbn [app flat_map]. unfold replace at 2. cbn [flat_map].
  destruct (N.eqb_spec c 769) as [->|H3]; [reflexivity|].
  cbn [app flat_map]. unfold replace. cbn [flat_map].
  destruct (N.eqb_spec c 768) as [->|H4]; reflexivity.
Qed.

Lemma replace_marks_app (a b : str) :
  fold_left (fun string kv => replace (fst kv) (snd kv) string)
    utf8_to_festival_mapping (a ++ b)
  = fold_left (fun string kv => replace (fst kv) (snd kv) string)
      utf8_to_festival_mapping a
    ++ fold_left (fun string kv => replace (fst kv) (snd kv) string)
         utf8_to_festival_mapping b.
Proof.
  cbn [fold_left utf8_to_festival_mapping fst snd].
  by rewrite !replace_app.
Qed.

Lemma encode_ascii_all_ascii (b : list Byte.byte) (s : str) :
  encode_ascii_ignore s = b ->
  forallb (fun x => (Byte.to_N x <? 128)%N) b = true.
Proof.
  revert b. induction s as [|c s IH]; intros b <-; [done|].
  unfold encode_ascii_ignore. cbn [omap list_omap].
  destruct (N.ltb_spec c 128) as [Hc|Hc]; [|by apply IH].
  destruct (Byte.of_N c) as [x|] eqn:Hx; [|by apply IH].
  cbn [forallb]. apply Byte.to_of_N in Hx. rewrite Hx.
  rewrite (proj2 (N.ltb_lt _ _) Hc). by apply IH.
Qed.

Lemma decode_encode_ascii (s : str) :
  decode_ascii (encode_ascii_ignore s)
  = Ok (flat_map (fun c => if (c <? 128)%N then [c] else []) s).
Proof.
  unfold decode_ascii.
  rewrite (encode_ascii_all_ascii _ s eq_refl). f_equal.
  induction s as [|c s IH]; [done|].
  unfold encode_ascii_ignore. cbn [omap list_omap flat_map].
  destruct (N.ltb_spec c 128) as [Hc|Hc]; [|exact IH].
  destruct (Byte.of_N c) as [x|] eqn:Hx.
  - cbn [List.map app]. apply Byte.to_of_N in Hx. rewrite Hx. f_equal. exact IH.
  - apply Byte.of_N_None_iff in Hx. lia.
Qed.

Lemma map_utf8_to_festival_chars `{Unicodedata} (s : str) :
  map_utf8_to_festival s = Ok (flat_map festival_char (normalize_NFKD s)).
Proof.
  unfold map_utf8_to_festival. rewrite decode_encode_ascii. f_equal.
  induction (normalize_NFKD s) as [|c t IH]; [done|].
  change (c :: t) with ([c] ++ t).
  rewrite replace_marks_app, !flat_map_app, IH. f_equal.
  rewrite replace_marks_char. unfold festival_char. cbn [flat_map].
  destruct (N.eqb_spec c 770) as [->|H1]; [reflexivity|].
  destruct (N.eqb_spec c 776) as [->|H2]; [reflexivity|].
  destruct (N.eqb_spec c 769) as [->|H3]; [reflexivity|].
  destruct (N.eqb_spec c 768) as [->|H4]; [reflexivity|].
  cbn [flat_map]. by rewrite app_nil_r.
Qed.

Lemma festival_char_ascii (c : N) : Forall is_ascii (festival_char c).
Proof.
  unfold festival_char.
  destruct (N.eqb_spec c 770); [vm_compute; by repeat constructor|].
  destruct (N.eqb_spec c 776); [vm_compute; by repeat constructor|].
  destruct (N.eqb_spec c 769); [vm_compute; by repeat constructor|].
  destruct (N.eqb_spec c 768); [vm_compute; by repeat constructor|].
  destruct (N.ltb_spec c 128); [|constructor].
  constructor; [assumption|constructor].
Qed.

Lemma festival_chars_on_ascii (s : str) :
  Forall is_ascii s -> flat_map festival_char s = s.
Proof.
  induction 1 as [|c s Hc _ IH]; [done|].
  cbn [flat_map]. rewrite IH. unfold festival_char, is_ascii in *.
  destruct (N.eqb_spec c 770); [lia|].
  destruct (N.eqb_spec c 776); [lia|].
  destruct (N.eqb_spec c 769); [lia|].
  destruct (N.eqb_spec c 768); [lia|].
  destruct (N.ltb_spec c 128); [done|lia].
Qed.

(** C4. [map_utf8_to_festival] never raises.  Its result is the NFKD
    form of the word in which, code point by code point and in place,
    the four combining marks circumflex, diaeresis, acute and grave
    have become [+], [:], [/] and [\], every other code point outside
    ASCII is gone and ASCII is kept.  With the decompositions Unicode
    gives for [â] and [é], the words [â] and [café] become [a+] and
    [cafe/]. *)
Theorem map_utf8_to_festival_marks :
  forall (U : Unicodedata),
    normalize_NFKD (u "â") = [97; 770]%N ->
    normalize_NFKD (u "café") = [99; 97; 102; 101; 769]%N ->
    (forall string : str,
        map_utf8_to_festival string
        = Ok (flat_map festival_char (normalize_NFKD string)))
    /\ festival_char 770 = u "+" /\ festival_char 776 = u ":"
    /\ festival_char 769 = u "/" /\ festival_char 768 = [BACKSLASH]
    /\ map_utf8_to_festival (u "â") = Ok (u "a+")
    /\ map_utf8_to_festival (u "café") = Ok (u "cafe/").
Proof.
  intros U Ha Hcafe.
  split; [apply map_utf8_to_festival_chars|].
  do 4 (split; [reflexivity|]).
  rewrite !map_utf8_to_festival_chars, Ha, Hcafe. split; reflexivity.
Qed.

(** The instance of C4 for the decompositions of the Welsh alphabet. *)
Lemma map_utf8_to_festival_marks_witness :
  @normalize_NFKD sample.nfkd_welsh (u "â") = [97; 770]%N
  /\ @normalize_NFKD sample.nfkd_welsh (u "café") = [99; 97; 102; 101; 769]%N
  /\ @map_utf8_to_festival sample.nfkd_welsh (u "â") = Ok (u "a+")
  /\ @map_utf8_to_festival sample.nfkd_welsh (u "café") = Ok (u "cafe/").
Proof.
  split; [reflexivity|]. split; [reflexivity|].
  apply (map_utf8_to_festival_marks sample.nfkd_welsh); reflexivity.
Defined.

(** C10. Provided NFKD leaves ASCII text as it is (as Unicode's does),
    the result of [map_utf8_to_festival] is ASCII only, and the function
    maps its own result to itself. *)
Theorem map_utf8_to_festival_idempotent :
  forall (U : Unicodedata),
    (forall s : str, Forall is_ascii s -> normalize_NFKD s = s) ->
    forall w : str,
      exists out : str,
        map_utf8_to_festival w = Ok out
        /\ Forall is_ascii out
        /\ map_utf8_to_festival out = Ok out.
Proof.
  intros U Hascii w. eexists. split; [apply map_utf8_to_festival_chars|].
  assert (Hout : Forall is_ascii (flat_map festival_char (normalize_NFKD w))).
  { induction (normalize_NFKD w) as [|c t IH]; [constructor|].
    cbn [flat_map]. apply Forall_app. split; [apply festival_char_ascii|done]. }
  split; [done|].
  rewrite map_utf8_to_festival_chars, (Hascii _ Hout).
  f_equal. by apply festival_chars_on_ascii.
Qed.

Lemma decompose_in_other (table : list (N * str)) (c : N) :
  forallb (fun kd => negb (c =? fst kd)%N) table = true ->
  sample.decompose_in table c = [c].
Proof.
  induction table as [|[k d] table IH]; [done|].
  cbn [forallb sample.decompose_in fst]. intros [Hk Ht]%andb_prop.
  apply negb_true_iff in Hk. rewrite Hk. by apply IH.
Qed.

Lemma nfkd_welsh_ascii (s : str) :
  Forall is_ascii s -> @normalize_NFKD sample.nfkd_welsh s = s.
Proof.
  induction 1 as [|c s Hc _ IH]; [done|].
  cbn [normalize_NFKD sample.nfkd_welsh flat_map] in *. rewrite IH.
  rewrite decompose_in_other; [done|].
  apply forallb_forall. intros [k d] Hin. cbn [fst].
  apply negb_true_iff, N.eqb_neq. intros ->.
  assert (Hkeys : forallb (fun kd => (128 <=? fst kd)%N)
                    sample.welsh_decompositions = true) by reflexivity.
  rewrite forallb_forall in Hkeys. specialize (Hkeys _ Hin).
  cbn [fst] in Hkeys. apply N.leb_le in Hkeys. unfold is_ascii in Hc. lia.
Qed.

(** The instance of C10 for the decompositions of the Welsh alphabet and
    the word [tŷ]. *)
Lemma map_utf8_to_festival_idempotent_witness :
  (forall s : str, Forall is_ascii s -> @normalize_NFKD sample.nfkd_welsh s = s)
  /\ exists out : str,
       @map_utf8_to_festival sample.nfkd_welsh (u "tŷ") = Ok out
       /\ Forall is_ascii out
       /\ @map_utf8_to_festival sample.nfkd_welsh out = Ok out.
Proof.
  split; [exact nfkd_welsh_ascii|].
  apply (map_utf8_to_festival_idempotent sample.nfkd_welsh nfkd_welsh_ascii).
Defined.

(** ** Segments to IPA *)

Lemma map_items_unknown (m : gmap str str) (items : list str) (acc : str) :
  Exists (fun item => m !! strip item = None) items ->
  exists item,
    item ∈ items /\ m !! strip item = None
    /\ map_items m items acc
       = Raise (During (KeyError (strip item)) (TypeError tuple_is_immutable)).
Proof.
  revert acc. induction items as [|item rest IH]; intros acc HE.
  - inversion HE.
  - cbn [map_items]. destruct (m !! strip item) as [ipa|] eqn:Hitem.
    + apply Exists_cons in HE as [HE|HE]; [congruence|].
      destruct (IH (acc ++ ipa) HE) as (it & Hin & Hno & Hrun).
      exists it. split; [by right|done].
    + exists item. split; [by left|done].
Qed.

(** C2. On a segment string with a label that is not in the table in
    use, [map_festival_to_ipa] returns no string.  What it raises is not
    the [KeyError] carrying a message that names the label: the assignment
    [ex.args[0] = ...] in the handler raises a [TypeError] first, whose
    message does not name the label; the [KeyError] is only its context.
    So it is on the labels [k a zz i]. *)
Theorem map_festival_to_ipa_unknown_label :
  (forall (string : str) (tense_lax labialisation long_schwa : bool),
     Exists (fun item =>
               festival_to_ipa_mapping tense_lax labialisation long_schwa
                 !! strip item = None) (split_ws string) ->
     exists item,
       item ∈ split_ws string
       /\ map_festival_to_ipa string tense_lax labialisation long_schwa
          = Raise (During (KeyError (strip item))
                     (TypeError tuple_is_immutable)))
  /\ map_festival_to_ipa (u "k a zz i") false true true
     = Raise (During (KeyError (u "zz")) (TypeError tuple_is_immutable))
  /\ raised_exn (During (KeyError (u "zz")) (TypeError tuple_is_immutable))
     = TypeError tuple_is_immutable
  /\ ~ contains tuple_is_immutable (u "zz").
Proof.
  split.
  { intros string tl lab ls HE.
    destruct (map_items_unknown _ _ [] HE) as (item & Hin & _ & Hrun).
    exists item. split; [exact Hin|].
    unfold map_festival_to_ipa. rewrite Hrun. reflexivity. }
  split; [vm_compute; reflexivity|]. split; [reflexivity|].
  intros (before & after & Heq).
  vm_compute in Heq.
  repeat (destruct before as [|? before];
          [discriminate Heq || (injection Heq as ? ?; discriminate)
          |try discriminate Heq; injection Heq as _ Heq]).
Qed.

(** C5. With [encode_long_schwa=False] the label [@@] is still mapped to
    the long schwa: the overlay is built and never merged into the table,
    and the option changes nothing in the table or in any result. *)
Theorem long_schwa_option_has_no_effect :
  map_festival_to_ipa (u "@@") false true false = Ok (u "əː")
  /\ map_festival_to_ipa (u "@@") false true false <> Ok (u "ə")
  /\ festival_long_schwa_augmentation !! u "@@" = Some (u "ə")
  /\ (forall tense_lax labialisation,
        festival_to_ipa_mapping tense_lax labialisation false !! u "@@"
        = Some (u "əː"))
  /\ (forall string tense_lax labialisation,
        map_festival_to_ipa string tense_lax labialisation false
        = map_festival_to_ipa string tense_lax labialisation true).
Proof.
  split; [vm_compute; reflexivity|].
  split; [vm_compute; discriminate|].
  split; [vm_compute; reflexivity|].
  split; [intros [] []; vm_compute; reflexivity|].
  reflexivity.
Qed.

(** ** The temporary file *)

Lemma destroy_destroyed (self : TempFile) (w : world) :
  destroyed self = true -> destroy self w = (Ok self, w).
Proof. intros Hd. unfold destroy. by rewrite Hd. Qed.

Lemma destroy_times_destroyed (n : nat) (self : TempFile) (w : world) :
  destroyed self = true -> destroy_times n self w = (Ok self, w).
Proof.
  intros Hd. induction n as [|n IH]; [done|].
  cbn [destroy_times]. unfold bindM. by rewrite destroy_destroyed.
Qed.

(** The claim C6 as stated fails: destroying an object whose file is
    already gone raises [FileNotFoundError]. *)
Lemma destroy_raises_when_file_is_gone :
  fs sample.empty_world !! filepath sample.tempfile = None
  /\ destroy sample.tempfile sample.empty_world
     = (Raise (FileNotFoundError (filepath sample.tempfile)), sample.empty_world)
  /\ ~ (forall (self : TempFile) (w : world),
          fs w !! filepath self = None ->
          exists self' w', destroy self w = (Ok self', w')).
Proof.
  split; [reflexivity|]. split; [reflexivity|].
  intros Hclaim.
  destruct (Hclaim sample.tempfile sample.empty_world eq_refl) as (self' & w' & Hrun).
  discriminate Hrun.
Qed.

(** C6, amended. On an object not yet destroyed whose file exists,
    [destroy] unlinks the file and marks the object destroyed; from then
    on any number of calls, in any state of the file system, change
    nothing and raise nothing.  On an object not yet destroyed whose
    file is gone, [destroy] raises the [FileNotFoundError] of
    [os.unlink] and the object stays undestroyed. *)
Theorem destroy_idempotent_once_succeeded :
  forall (self : TempFile) (w : world),
    destroyed self = false ->
    (forall content, fs w !! filepath self = Some content ->
       exists self',
         destroy self w = (Ok self', set_fs (delete (filepath self) (fs w)) w)
         /\ destroyed self' = true
         /\ filepath self' = filepath self
         /\ fs (set_fs (delete (filepath self) (fs w)) w) !! filepath self = None
         /\ (forall n, destroy_times (S n) self w
                       = (Ok self', set_fs (delete (filepath self) (fs w)) w))
         /\ (forall n w2, destroy_times n self' w2 = (Ok self', w2)))
    /\ (fs w !! filepath self = None ->
        destroy self w = (Raise (FileNotFoundError (filepath self)), w)).
Proof.
  intros self w Hd. split.
  - intros content Hfile.
    set (self' := mkTempFile true (prefix self) (suffix self) (tempdir self)
                    (randomstring self) (filename self) (filepath self)).
    assert (Hrun : destroy self w
                   = (Ok self', set_fs (delete (filepath self) (fs w)) w)).
    { unfold destroy, bindM, unlink. rewrite Hd. cbn [negb]. by rewrite Hfile. }
    exists self'. split; [exact Hrun|]. split; [reflexivity|]. split; [reflexivity|].
    split; [apply lookup_delete_eq|]. split.
    + intros n. cbn [destroy_times]. unfold bindM. rewrite Hrun.
      by apply destroy_times_destroyed.
    + intros n w2. by apply destroy_times_destroyed.
  - intros Hgone. unfold destroy, bindM, unlink. rewrite Hd. cbn [negb].
    by rewrite Hgone.
Qed.

(** The instance of C6 for the temporary file of the sample host. *)
Lemma destroy_idempotent_once_succeeded_witness :
  destroyed sample.tempfile = false
  /\ fs sample.world_with_tempfile !! filepath sample.tempfile = Some []
  /\ destroy_times 3 sample.tempfile sample.world_with_tempfile
     = destroy sample.tempfile sample.world_with_tempfile.
Proof.
  split; [reflexivity|]. split; [reflexivity|].
  destruct (destroy_idempotent_once_succeeded sample.tempfile
              sample.world_with_tempfile eq_refl) as [Hok _].
  destruct (Hok [] eq_refl) as (self' & Hrun & _ & _ & _ & Htimes & _).
  rewrite (Htimes 2%nat). symmetry. exact Hrun.
Defined.

(** ** The estimate of the remaining time *)

(** C9. For [1 <= count <= total] and an elapsed time that is not
    negative, [estimate_remaining_time] computes, in exact arithmetic,
    a remaining time equal to [(elapsed / count) * (total - count)], which
    is not negative. *)
Theorem time_remaining_formula :
  forall (count total : Z) (start_timestamp now : Q),
    1 <= count <= total ->
    (0 <= now - start_timestamp)%Q ->
    exists remaining : Q,
      shared.time_remaining count total start_timestamp now = Ok remaining
      /\ (remaining ==
          ((now - start_timestamp) / inject_Z count)
          * (inject_Z total - inject_Z count))%Q
      /\ (0 <= remaining)%Q.
Proof.
  intros count total start now [Hc Ht] He.
  unfold shared.time_remaining.
  destruct (Z.eqb_spec count 0) as [|_]; [lia|].
  eexists. split; [reflexivity|].
  assert (Hc0 : ~ (inject_Z count == 0)%Q).
  { unfold Qeq. cbn. lia. }
  assert (Heq : ((now - start) / inject_Z count * inject_Z total - (now - start) ==
                 (now - start) / inject_Z count * (inject_Z total - inject_Z count))%Q).
  { field. exact Hc0. }
  split; [exact Heq|]. rewrite Heq.
  apply Qmult_le_0_compat.
  - apply Qle_shift_div_l; [unfold Qlt; cbn; lia|]. by rewrite Qmult_0_l.
  - unfold Qle. cbn. lia.
Qed.

(** The instance of C9 for 2 records of 10 done after 3625 seconds. *)
Lemma time_remaining_formula_witness :
  1 <= 2 <= 10
  /\ (0 <= 3725 - 100)%Q
  /\ exists remaining : Q,
       shared.time_remaining 2 10 100 3725 = Ok remaining
       /\ (remaining == ((3725 - 100) / inject_Z 2) * (inject_Z 10 - inject_Z 2))%Q
       /\ (0 <= remaining)%Q.
Proof.
  split; [lia|]. split; [by vm_compute|].
  apply (time_remaining_formula 2 10 100 3725); [lia|by vm_compute].
Defined.

(** ** Binary64 on whole seconds *)

Lemma digits2_log2 (p : positive) :
  Z.pos (SpecFloat.digits2_pos p) = Z.log2 (Z.pos p) + 1.
Proof.
  induction p as [p IH|p IH|]; cbn [SpecFloat.digits2_pos].
  - rewrite Pos2Z.inj_succ, IH, Pos2Z.inj_xI, Z.log2_succ_double by lia. lia.
  - rewrite Pos2Z.inj_succ, IH, Pos2Z.inj_xO, Z.log2_double by lia. lia.
  - reflexivity.
Qed.

Lemma digits2_bounds (m : positive) (j : Z) :
  2 ^ (j - 1) <= Z.pos m < 2 ^ j -> Z.pos (SpecFloat.digits2_pos m) = j.
Proof.
  intros H. rewrite digits2_log2.
  assert (Hj : 1 <= j).
  { destruct (Z.le_gt_cases 1 j) as [|Hlt]; [assumption|].
    assert (2 ^ j <= 2 ^ 0) by (destruct (Z.le_gt_cases 0 j);
      [apply Z.pow_le_mono_r; lia|rewrite Z.pow_neg_r by lia; lia]).
    change (2 ^ 0) with 1 in *. lia. }
  rewrite (Z.log2_unique (Z.pos m) (j - 1)); [lia|lia|].
  replace (Z.succ (j - 1)) with j by lia. exact H.
Qed.

Lemma iter_xO (p t : positive) :
  Z.pos (Pos.iter xO p t) = Z.pos p * 2 ^ Z.pos t.
Proof.
  induction t as [|t IH] using Pos.peano_ind.
  - cbn [Pos.iter]. lia.
  - rewrite Pos.iter_succ, Pos2Z.inj_xO, IH, Pos2Z.inj_succ, Z.pow_succ_r by lia.
    lia.
Qed.

Lemma shr_fexp_53 (m : positive) (e : Z) (l : SpecFloat.location) :
  2 ^ 52 <= Z.pos m < 2 ^ 53 -> -1074 <= e ->
  SpecFloat.shr_fexp 53 1024 (Z.pos m) e l
  = (SpecFloat.shr_record_of_loc (Z.pos m) l, e).
Proof.
  intros Hm He. unfold SpecFloat.shr_fexp. cbn [SpecFloat.Zdigits2].
  rewrite (digits2_bounds m 53) by exact Hm.
  replace (SpecFloat.fexp 53 1024 (53 + e) - e) with 0
    by (unfold SpecFloat.fexp, SpecFloat.emin; lia).
  reflexivity.
Qed.

Lemma shr_record_of_loc_m m l :
  SpecFloat.shr_m (SpecFloat.shr_record_of_loc m l) = m.
Proof. destruct l as [|[]]; reflexivity. Qed.

Lemma loc_of_shr_record_of_loc m l :
  SpecFloat.loc_of_shr_record (SpecFloat.shr_record_of_loc m l) = l.
Proof. destruct l as [|[]]; reflexivity. Qed.

Lemma round_nearest_even_bounds m l :
  m <= SpecFloat.round_nearest_even m l <= m + 1.
Proof.
  unfold SpecFloat.round_nearest_even.
  destruct l as [|[]]; [lia|destruct (Z.even m); lia|lia|lia].
Qed.

(** Rounding a mantissa of 53 bits: no shift. *)
Lemma round_aux_53 (s : bool) (m m' : positive) (e : Z) (l : SpecFloat.location) :
  2 ^ 52 <= Z.pos m < 2 ^ 53 -> -1074 <= e <= 971 ->
  SpecFloat.round_nearest_even (Z.pos m) l = Z.pos m' ->
  Z.pos m' < 2 ^ 53 ->
  SpecFloat.binary_round_aux 53 1024 s (Z.pos m) e l
  = SpecFloat.S754_finite s m' e.
Proof.
  intros Hm He Hr Hm'. unfold SpecFloat.binary_round_aux.
  rewrite shr_fexp_53 by (try exact Hm; lia).
  rewrite shr_record_of_loc_m, loc_of_shr_record_of_loc, Hr.
  pose proof (round_nearest_even_bounds (Z.pos m) l) as Hb. rewrite Hr in Hb.
  rewrite shr_fexp_53 by lia.
  cbn [SpecFloat.shr_record_of_loc SpecFloat.shr_m].
  destruct (Z.leb_spec e (1024 - 53)); [reflexivity|lia].
Qed.

(** Rounding an odd mantissa of 54 bits that is not exact: one bit is
    shifted out and the result is rounded up. *)
Lemma round_aux_54_odd (s : bool) (p : positive) (e : Z) (c : comparison) :
  2 ^ 53 <= Z.pos p~1 < 2 ^ 54 -> Z.pos p + 1 < 2 ^ 53 ->
  -1074 <= e <= 970 ->
  SpecFloat.binary_round_aux 53 1024 s (Z.pos p~1) e (SpecFloat.loc_Inexact c)
  = SpecFloat.S754_finite s (Pos.succ p) (e + 1).
Proof.
  intros Hp Hsucc He. unfold SpecFloat.binary_round_aux.
  assert (Hs : SpecFloat.shr_fexp 53 1024 (Z.pos p~1) e (SpecFloat.loc_Inexact c)
               = ({| SpecFloat.shr_m := Z.pos p; SpecFloat.shr_r := true;
                     SpecFloat.shr_s := true |}, e + 1)).
  { unfold SpecFloat.shr_fexp. cbn [SpecFloat.Zdigits2].
    rewrite (digits2_bounds p~1 54) by exact Hp.
    replace (SpecFloat.fexp 53 1024 (54 + e) - e) with 1
      by (unfold SpecFloat.fexp, SpecFloat.emin; lia).
    destruct c; reflexivity. }
  rewrite Hs. cbn [SpecFloat.shr_m SpecFloat.loc_of_shr_record
                   SpecFloat.round_nearest_even].
  change (Z.pos p + 1) with (Z.succ (Z.pos p)).
  rewrite <- Pos2Z.inj_succ.
  assert (Hlow : 2 ^ 52 <= Z.pos (Pos.succ p)).
  { rewrite Pos2Z.inj_succ. rewrite (Pos2Z.inj_xI p) in Hp.
    change (2 ^ 53) with (2 * 2 ^ 52) in Hp. lia. }
  rewrite shr_fexp_53 by (rewrite ?Pos2Z.inj_succ; lia).
  cbn [SpecFloat.shr_record_of_loc SpecFloat.shr_m].
  destruct (Z.leb_spec (e + 1) (1024 - 53)); [reflexivity|lia].
Qed.

Lemma float_of_int_pos (p : positive) (d : Z) :
  Z.pos (SpecFloat.digits2_pos p) = d -> d <= 52 ->
  float_of_int (Z.pos p)
  = SpecFloat.S754_finite false (Pos.iter xO p (Z.to_pos (53 - d))) (d - 53).
Proof.
  intros Hd Hle. assert (1 <= d) by lia.
  unfold float_of_int, SpecFloat.binary_normalize, SpecFloat.binary_round.
  rewrite Hd.
  replace (SpecFloat.fexp 53 1024 (d + 0)) with (d - 53)
    by (unfold SpecFloat.fexp, SpecFloat.emin; lia).
  unfold SpecFloat.shl_align.
  destruct (d - 53 - 0) as [|k|k] eqn:Hk; [lia|lia|].
  assert (Hk' : k = Z.to_pos (53 - d)) by lia. subst k.
  assert (Hm : 2 ^ 52 <= Z.pos (Pos.iter xO p (Z.to_pos (53 - d))) < 2 ^ 53).
  { rewrite iter_xO, Z2Pos.id by lia.
    rewrite digits2_log2 in Hd.
    pose proof (Z.log2_spec (Z.pos p) ltac:(lia)) as Hlog.
    replace (Z.log2 (Z.pos p)) with (d - 1) in Hlog by lia.
    replace (Z.succ (d - 1)) with d in Hlog by lia.
    replace (2 ^ 52) with (2 ^ (d - 1) * 2 ^ (53 - d))
      by (rewrite <- Z.pow_add_r by lia; f_equal; lia).
    replace (2 ^ 53) with (2 ^ d * 2 ^ (53 - d))
      by (rewrite <- Z.pow_add_r by lia; f_equal; lia).
    assert (0 < 2 ^ (53 - d)) by (apply Z.pow_pos_nonneg; lia).
    nia. }
  apply round_aux_53; [exact Hm|lia|reflexivity|lia].
Qed.

Lemma div_eucl_unique (a b q r : Z) :
  0 <= r < b -> a = b * q + r -> Z.div_eucl a b = (q, r).
Proof.
  intros Hr Ha.
  pose proof (Z.div_unique_pos a b q r Hr Ha) as Hq.
  pose proof (Z.mod_unique_pos a b q r Hr Ha) as Hm.
  unfold Z.div, Z.modulo in Hq, Hm.
  destruct (Z.div_eucl a b) as [q' r']. cbn in Hq, Hm. congruence.
Qed.

Lemma div_core (t : Z) (mx : positive) (d : Z) :
  Z.pos mx = 8 * t -> 2 ^ 52 <= Z.pos mx < 2 ^ 53 -> -1023 <= d ->
  SpecFloat.SFdiv_core_binary 53 1024 (Z.pos mx) (d - 53)
    7205759403792794 (-56)
  = (10 * t - 1, d - 50,
     SpecFloat.loc_Inexact (2 * (7205759403792794 - 4 * t)
                            ?= 7205759403792794)).
Proof.
  intros Ht Hmx Hd. unfold SpecFloat.SFdiv_core_binary.
  cbn [SpecFloat.Zdigits2].
  rewrite (digits2_bounds mx 53) by exact Hmx.
  change (Z.pos (SpecFloat.digits2_pos 7205759403792794)) with 53.
  replace (Z.min (SpecFloat.fexp 53 1024 (53 + (d - 53) - (53 + -56)))
             (d - 53 - -56)) with (d - 50)
    by (unfold SpecFloat.fexp, SpecFloat.emin; lia).
  replace (d - 53 - -56 - (d - 50)) with 53 by lia.
  rewrite Z.shiftl_mul_pow2 by lia.
  rewrite (div_eucl_unique _ _ (10 * t - 1) (7205759403792794 - 4 * t))
    by (change (2 ^ 52) with 4503599627370496 in Hmx;
        change (2 ^ 53) with 9007199254740992 in *; lia).
  unfold SpecFloat.new_location.
  change (Z.even 7205759403792794) with true. cbv iota.
  unfold SpecFloat.new_location_even.
  destruct (Z.eqb_spec (7205759403792794 - 4 * t) 0) as [H0|_].
  { change (2 ^ 53) with 9007199254740992 in Hmx. lia. }
  reflexivity.
Qed.

(** In binary64, [int(timeout/0.1)] of a whole number of seconds is ten
    times that number, as long as binary64 holds the product. *)
Lemma timeout_loops_binary64_whole_seconds (seconds : Z) :
  0 <= seconds -> 10 * seconds < 2 ^ 53 ->
  timeout_loops_binary64 (float_of_int seconds) = Some (10 * seconds).
Proof.
  intros H0 Hmax. unfold timeout_loops_binary64.
  destruct seconds as [|p|p]; [reflexivity| |lia].
  set (n := Z.pos p) in *.
  set (d := Z.pos (SpecFloat.digits2_pos p)).
  assert (Hlog : 2 ^ (d - 1) <= n < 2 ^ d).
  { unfold d. rewrite digits2_log2.
    pose proof (Z.log2_spec n ltac:(lia)) as Hl.
    replace (Z.log2 (Z.pos p) + 1 - 1) with (Z.log2 n) by (unfold n; lia).
    exact Hl. }
  assert (Hd1 : 1 <= d) by (unfold d; lia).
  assert (Hd50 : d <= 50).
  { destruct (Z.le_gt_cases d 50) as [|Hgt]; [assumption|].
    assert (2 ^ 50 <= 2 ^ (d - 1)) by (apply Z.pow_le_mono_r; lia).
    change (2 ^ 50) with 1125899906842624 in *.
    change (2 ^ 53) with 9007199254740992 in *. lia. }
  unfold n at 1. rewrite (float_of_int_pos p d) by (unfold d; lia).
  set (mx := Pos.iter xO p (Z.to_pos (53 - d))).
  set (t := n * 2 ^ (50 - d)).
  assert (Hpow : 0 < 2 ^ (50 - d)) by (apply Z.pow_pos_nonneg; lia).
  assert (Hmx : Z.pos mx = 8 * t).
  { unfold mx, t. rewrite iter_xO, Z2Pos.id by lia. fold n.
    replace (53 - d) with (3 + (50 - d)) by lia.
    rewrite Z.pow_add_r by lia. change (2 ^ 3) with 8. lia. }
  assert (Ht : 2 ^ 49 <= t < 2 ^ 50).
  { unfold t.
    replace (2 ^ 49) with (2 ^ (d - 1) * 2 ^ (50 - d))
      by (rewrite <- Z.pow_add_r by lia; f_equal; lia).
    replace (2 ^ 50) with (2 ^ d * 2 ^ (50 - d))
      by (rewrite <- Z.pow_add_r by lia; f_equal; lia).
    nia. }
  change (2 ^ 49) with 562949953421312 in Ht.
  change (2 ^ 50) with 1125899906842624 in Ht.
  unfold float_div, float_0_1, SpecFloat.SFdiv.
  rewrite (div_core t) by (rewrite ?Hmx; try exact Hmx;
    change (2 ^ 52) with 4503599627370496;
    change (2 ^ 53) with 9007199254740992; lia).
  cbn [xorb].
  destruct (Z.lt_ge_cases (10 * t) (2 ^ 53)) as [Hsmall|Hbig].
  - (* 53 bits: rounded up to 10 t *)
    change (2 ^ 53) with 9007199254740992 in Hsmall.
    replace (2 * (7205759403792794 - 4 * t) ?= 7205759403792794) with Gt
      by (symmetry; apply Z.compare_gt_iff; lia).
    replace (10 * t - 1) with (Z.pos (Z.to_pos (10 * t - 1)))
      by (rewrite Z2Pos.id; lia).
    rewrite (round_aux_53 false _ (Z.to_pos (10 * t)));
      [|rewrite Z2Pos.id by lia;
        change (2 ^ 52) with 4503599627370496;
        change (2 ^ 53) with 9007199254740992; lia
       |lia
       |cbn [SpecFloat.round_nearest_even]; rewrite !Z2Pos.id by lia; lia
       |rewrite Z2Pos.id by lia; change (2 ^ 53) with 9007199254740992; lia].
    cbn [int_of_float]. f_equal.
    destruct (d - 50) as [|k|k] eqn:Hk; [|lia|].
    + rewrite Z2Pos.id by lia. unfold t.
      replace (50 - d) with 0 by lia. change (2 ^ 0) with 1. lia.
    + rewrite Z2Pos.id by lia. unfold t.
      replace (Z.pos k) with (50 - d) by lia.
      rewrite Z.mul_assoc. apply Z.div_mul. lia.
  - (* 54 bits: one bit shifted out, rounded up to 5 t *)
    change (2 ^ 53) with 9007199254740992 in Hbig, Hmax.
    assert (Hd49 : d <= 49).
    { destruct (Z.le_gt_cases d 49) as [|Hgt]; [assumption|].
      assert (d = 50) by lia. unfold t in Hbig.
      replace (50 - d) with 0 in Hbig by lia. change (2 ^ 0) with 1 in Hbig.
      lia. }
    replace (10 * t - 1) with (Z.pos (Z.to_pos (5 * t - 1))~1)
      by (rewrite (Pos2Z.inj_xI (Z.to_pos (5 * t - 1))), Z2Pos.id; lia).
    rewrite round_aux_54_odd;
      [|rewrite (Pos2Z.inj_xI (Z.to_pos (5 * t - 1))), Z2Pos.id by lia;
        change (2 ^ 53) with 9007199254740992;
        change (2 ^ 54) with 18014398509481984; lia
       |rewrite Z2Pos.id by lia; change (2 ^ 53) with 9007199254740992; lia
       |lia].
    cbn [int_of_float]. f_equal.
    assert (Hsucc : Z.pos (Pos.succ (Z.to_pos (5 * t - 1))) = 5 * t)
      by (rewrite Pos2Z.inj_succ, Z2Pos.id; lia).
    rewrite Hsucc.
    destruct (d - 50 + 1) as [|k|k] eqn:Hk; [|lia|].
    + unfold t. replace (50 - d) with 1 by lia. change (2 ^ 1) with 2. lia.
    + unfold t. replace (50 - d) with (1 + Z.pos k) by lia.
      rewrite Z.pow_add_r by lia. change (2 ^ 1) with 2.
      replace (5 * (n * (2 * 2 ^ Z.pos k))) with (10 * n * 2 ^ Z.pos k) by lia.
      apply Z.div_mul. lia.
Qed.

Lemma iter_pos_iter {A} (f : A -> A) (n : positive) (x : A) :
  SpecFloat.iter_pos f n x = Pos.iter f x n.
Proof.
  revert x. induction n as [n IH|n IH|]; intros x; cbn [SpecFloat.iter_pos Pos.iter].
  - rewrite !IH, <- !Pos.iter_swap. reflexivity.
  - rewrite !IH. reflexivity.
  - reflexivity.
Qed.

Lemma shr_1_nonneg (m : Z) (r s : bool) :
  0 <= m ->
  SpecFloat.shr_1 {| SpecFloat.shr_m := m; SpecFloat.shr_r := r;
                     SpecFloat.shr_s := s |}
  = {| SpecFloat.shr_m := m / 2; SpecFloat.shr_r := Z.odd m;
       SpecFloat.shr_s := r || s |}.
Proof.
  intros Hm. rewrite <- Z.div2_div.
  destruct m as [|[p|p|]|p]; [reflexivity..|lia].
Qed.

(** Shifting out [k] bits of which the first is 0. *)
Lemma shr_low (k : positive) :
  forall (P M rho : Z) (r s : bool),
    0 <= M -> P = M * 2 ^ Z.pos k + rho -> 0 <= rho < 2 ^ (Z.pos k - 1) ->
    Pos.iter SpecFloat.shr_1
      {| SpecFloat.shr_m := P; SpecFloat.shr_r := r; SpecFloat.shr_s := s |} k
    = {| SpecFloat.shr_m := M; SpecFloat.shr_r := false;
         SpecFloat.shr_s := r || s || negb (rho =? 0) |}.
Proof.
  induction k as [|k IH] using Pos.peano_ind; intros P M rho r s HM HP Hrho.
  - change (2 ^ (1 - 1)) with 1 in Hrho. assert (rho = 0) by lia. subst rho.
    cbn [Pos.iter]. rewrite shr_1_nonneg by lia. subst P.
    change (2 ^ 1) with 2. rewrite Z.add_0_r, Z.div_mul by lia.
    rewrite Z.odd_mul. change (Z.odd 2) with false.
    rewrite andb_false_r, orb_false_r. reflexivity.
  - rewrite Pos.iter_succ_r.
    rewrite Pos2Z.inj_succ in HP, Hrho.
    replace (Z.succ (Z.pos k) - 1) with (Z.pos k) in Hrho by lia.
    rewrite Z.pow_succ_r in HP by lia.
    assert (Hk : 0 < 2 ^ Z.pos k) by (apply Z.pow_pos_nonneg; lia).
    rewrite shr_1_nonneg by nia.
    assert (Hhalf : P / 2 = M * 2 ^ Z.pos k + rho / 2).
    { subst P. replace (M * (2 * 2 ^ Z.pos k) + rho)
        with (rho + (M * 2 ^ Z.pos k) * 2) by lia.
      rewrite Z.div_add by lia. lia. }
    assert (Hodd : Z.odd P = Z.odd rho).
    { subst P. replace (M * (2 * 2 ^ Z.pos k) + rho)
        with (rho + 2 * (M * 2 ^ Z.pos k)) by lia.
      apply Z.odd_add_mul_2. }
    rewrite (IH (P / 2) M (rho / 2)); [|exact HM|exact Hhalf|].
    2:{ split; [apply Z.div_pos; lia|].
        apply Z.div_lt_upper_bound; [lia|].
        replace (2 * 2 ^ (Z.pos k - 1)) with (2 ^ Z.pos k); [lia|].
        rewrite <- Z.pow_succ_r by lia. f_equal. lia. }
    f_equal. rewrite Hodd.
    pose proof (Z.div_mod rho 2 ltac:(lia)) as Hdm.
    rewrite Zmod_odd in Hdm.
    destruct (Z.odd rho), r, s, (Z.eqb_spec rho 0), (Z.eqb_spec (rho / 2) 0);
      try reflexivity; lia.
Qed.

(** Rounding a product whose part below the 53 bits kept is not zero
    and less than half a unit: the 53 bits are kept as they are. *)
Lemma round_aux_down (s : bool) (P M : positive) (k : positive) (rho e : Z) :
  Z.pos P = Z.pos M * 2 ^ Z.pos k + rho -> 0 < rho < 2 ^ (Z.pos k - 1) ->
  2 ^ 52 <= Z.pos M < 2 ^ 53 ->
  -1074 <= e + Z.pos k <= 971 ->
  SpecFloat.binary_round_aux 53 1024 s (Z.pos P) e SpecFloat.loc_Exact
  = SpecFloat.S754_finite s M (e + Z.pos k).
Proof.
  intros HP Hrho HM He. unfold SpecFloat.binary_round_aux.
  assert (Hk : 0 < 2 ^ Z.pos k) by (apply Z.pow_pos_nonneg; lia).
  assert (Hk1 : 2 ^ Z.pos k = 2 * 2 ^ (Z.pos k - 1)).
  { rewrite <- Z.pow_succ_r by lia. f_equal. lia. }
  assert (Hs : SpecFloat.shr_fexp 53 1024 (Z.pos P) e SpecFloat.loc_Exact
               = ({| SpecFloat.shr_m := Z.pos M; SpecFloat.shr_r := false;
                     SpecFloat.shr_s := true |}, e + Z.pos k)).
  { unfold SpecFloat.shr_fexp. cbn [SpecFloat.Zdigits2].
    rewrite (digits2_bounds P (53 + Z.pos k)).
    2:{ replace (53 + Z.pos k - 1) with (52 + Z.pos k) by lia.
        rewrite !Z.pow_add_r by lia. nia. }
    replace (SpecFloat.fexp 53 1024 (53 + Z.pos k + e) - e) with (Z.pos k)
      by (unfold SpecFloat.fexp, SpecFloat.emin; lia).
    cbn [SpecFloat.shr SpecFloat.shr_record_of_loc].
    rewrite iter_pos_iter.
    rewrite (shr_low k (Z.pos P) (Z.pos M) rho) by lia.
    destruct (Z.eqb_spec rho 0); [lia|reflexivity]. }
  rewrite Hs. cbn [SpecFloat.shr_m SpecFloat.loc_of_shr_record
                   SpecFloat.round_nearest_even].
  rewrite shr_fexp_53 by lia.
  cbn [SpecFloat.shr_record_of_loc SpecFloat.shr_m].
  destruct (Z.leb_spec (e + Z.pos k) (1024 - 53)); [reflexivity|lia].
Qed.

(** [float(n)] for a whole number that binary64 holds. *)
Lemma float_of_int_exact (p : positive) (d : Z) :
  Z.pos (SpecFloat.digits2_pos p) = d -> d <= 53 ->
  float_of_int (Z.pos p)
  = SpecFloat.S754_finite false (Z.to_pos (Z.pos p * 2 ^ (53 - d))) (d - 53).
Proof.
  intros Hd Hle. destruct (Z.eq_dec d 53) as [->|Hne].
  - change (2 ^ (53 - 53)) with 1. change (53 - 53) with 0.
    rewrite Z.mul_1_r, Pos2Z.id.
    unfold float_of_int, SpecFloat.binary_normalize, SpecFloat.binary_round.
    rewrite Hd. change (SpecFloat.fexp 53 1024 (53 + 0)) with 0.
    cbn [SpecFloat.shl_align Z.sub Z.opp Z.add].
    rewrite digits2_log2 in Hd.
    pose proof (Z.log2_spec (Z.pos p) ltac:(lia)) as Hlog.
    replace (Z.log2 (Z.pos p)) with 52 in Hlog by lia.
    apply round_aux_53; [exact Hlog|lia|reflexivity|lia].
  - rewrite (float_of_int_pos p d) by lia. f_equal.
    apply Pos2Z.inj. rewrite iter_xO, !Z2Pos.id; [reflexivity| |lia].
    assert (0 < 2 ^ (53 - d)) by (apply Z.pow_pos_nonneg; lia). lia.
Qed.

Lemma log2_digits (n : Z) (p : positive) :
  n = Z.pos p ->
  let d := Z.pos (SpecFloat.digits2_pos p) in
  1 <= d /\ 2 ^ (d - 1) <= n < 2 ^ d.
Proof.
  intros ->. cbv zeta. rewrite digits2_log2.
  pose proof (Z.log2_spec (Z.pos p) ltac:(lia)) as Hl.
  pose proof (Z.log2_nonneg (Z.pos p)).
  replace (Z.log2 (Z.pos p) + 1 - 1) with (Z.log2 (Z.pos p)) by lia.
  split; [lia|exact Hl].
Qed.

(** In binary64, [timeout_loops*0.1] of ten times a whole number of
    seconds is that number. *)
Lemma timeout_printed_binary64_whole_seconds (seconds : Z) :
  0 <= seconds -> 10 * seconds < 2 ^ 53 ->
  timeout_printed_binary64 (10 * seconds) = Some seconds.
Proof.
  intros H0 Hmax. unfold timeout_printed_binary64.
  destruct seconds as [|p|p]; [reflexivity| |lia].
  set (n := Z.pos p) in *.
  destruct (log2_digits n p eq_refl) as [Hd1 Hn].
  set (d := Z.pos (SpecFloat.digits2_pos p)) in *.
  change (10 * n) with (Z.pos (10 * p)) at 1.
  destruct (log2_digits (10 * n) (10 * p) eq_refl) as [Hx1 Hx].
  set (dx := Z.pos (SpecFloat.digits2_pos (10 * p))) in *.
  change (2 ^ 53) with 9007199254740992 in Hmax.
  assert (Hdx53 : dx <= 53).
  { destruct (Z.le_gt_cases dx 53) as [|Hgt]; [assumption|].
    assert (2 ^ 53 <= 2 ^ (dx - 1)) by (apply Z.pow_le_mono_r; lia).
    change (2 ^ 53) with 9007199254740992 in *. lia. }
  assert (Hdx : dx = d + 3 \/ dx = d + 4).
  { assert (Hlo : d + 3 <= dx).
    { destruct (Z.le_gt_cases (d + 3) dx) as [|Hgt]; [assumption|].
      assert (2 ^ dx <= 2 ^ (d + 2)) by (apply Z.pow_le_mono_r; lia).
      replace (d + 2) with (3 + (d - 1)) in * by lia.
      rewrite Z.pow_add_r in * by lia. change (2 ^ 3) with 8 in *. lia. }
    assert (Hhi : dx <= d + 4).
    { destruct (Z.le_gt_cases dx (d + 4)) as [|Hgt]; [assumption|].
      assert (2 ^ (d + 4) <= 2 ^ (dx - 1)) by (apply Z.pow_le_mono_r; lia).
      replace (d + 4) with (4 + d) in * by lia.
      rewrite Z.pow_add_r in * by lia. change (2 ^ 4) with 16 in *. lia. }
    lia. }
  rewrite (float_of_int_exact (10 * p) dx) by (fold dx; lia).
  unfold float_mul, float_0_1, SpecFloat.SFmul. cbn [xorb].
  set (j := 53 - dx).
  assert (Hj : 0 <= j) by (unfold j; lia).
  assert (Hpj : 0 < 2 ^ j) by (apply Z.pow_pos_nonneg; lia).
  assert (Hpd : 0 < 2 ^ (53 - d)) by (apply Z.pow_pos_nonneg; lia).
  set (k := d + j + 3).
  assert (Hk : 1 <= k) by (unfold k; lia).
  rewrite (round_aux_down false _ (Z.to_pos (n * 2 ^ (53 - d))) (Z.to_pos k)
             (n * 2 ^ (j + 2))).
  - (* the value read back *)
    rewrite Z2Pos.id by lia. cbn [int_of_float]. f_equal.
    rewrite Z2Pos.id by nia.
    replace (dx - 53 + -56 + k) with (d - 53) by (unfold k, j; lia).
    destruct (d - 53) as [|q|q] eqn:Hq; [|lia|].
    + replace (53 - d) with 0 by lia. change (2 ^ 0) with 1. lia.
    + replace (Z.pos q) with (53 - d) by lia. apply Z.div_mul. lia.
  - (* the product *)
    rewrite Pos2Z.inj_mul, !Z2Pos.id by nia.
    change (Z.pos (10 * p)) with (10 * n). fold j.
    replace (n * 2 ^ (53 - d) * 2 ^ k) with (n * 2 ^ (j + 56)).
    2:{ rewrite <- Z.mul_assoc, <- Z.pow_add_r by lia. do 2 f_equal.
        unfold k. lia. }
    rewrite !Z.pow_add_r by lia.
    change (2 ^ 56) with 72057594037927936. change (2 ^ 2) with 4. lia.
  - rewrite Z2Pos.id by lia. split; [nia|].
    replace (k - 1) with (d + (j + 2)) by (unfold k; lia).
    rewrite (Z.pow_add_r 2 d) by lia.
    assert (0 < 2 ^ (j + 2)) by (apply Z.pow_pos_nonneg; lia). nia.
  - rewrite Z2Pos.id by nia.
    replace (2 ^ 52) with (2 ^ (d - 1) * 2 ^ (53 - d))
      by (rewrite <- Z.pow_add_r by lia; f_equal; lia).
    replace (2 ^ 53) with (2 ^ d * 2 ^ (53 - d))
      by (rewrite <- Z.pow_add_r by lia; f_equal; lia).
    nia.
  - rewrite Z2Pos.id by lia. unfold k, j. lia.
Qed.

(** On the float 1.7 the two readings part: binary64 rounds the quotient
    up to 17, the exact quotient of that float by a tenth is below 17. *)
Example timeout_loops_binary64_1_7 :
  timeout_loops_binary64 (SpecFloat.S754_finite false 7656119366529843 (-52))
  = Some 17
  /\ int_of_Q ((7656119366529843 # 4503599627370496) / (1 # 10)) = 16.
Proof. split; vm_compute; reflexivity. Qed.

(** ** The time limit on the engine *)

Lemma int_of_Q_floor (x : Q) : (0 <= x)%Q -> int_of_Q x = Qfloor x.
Proof.
  destruct x as [n d]. unfold Qle, int_of_Q, Qfloor. cbn. intros Hn.
  apply Z.quot_div_nonneg; lia.
Qed.

Lemma timeout_loops_bounds (timeout : Q) :
  (0 <= timeout)%Q ->
  0 <= int_of_Q (timeout / (1 # 10))
  /\ (inject_Z (int_of_Q (timeout / (1 # 10))) * (1 # 10) <= timeout)%Q
  /\ (timeout < inject_Z (int_of_Q (timeout / (1 # 10)) + 1) * (1 # 10))%Q.
Proof.
  intros Ht.
  assert (Hq : (0 <= timeout / (1 # 10))%Q).
  { apply Qle_shift_div_l; [reflexivity|]. by rewrite Qmult_0_l. }
  rewrite int_of_Q_floor by exact Hq.
  pose proof (Qfloor_le (timeout / (1 # 10))) as Hlo.
  pose proof (Qlt_floor (timeout / (1 # 10))) as Hhi.
  assert (Heq : (timeout / (1 # 10) * (1 # 10) == timeout)%Q) by field.
  split.
  - change 0 with (Qfloor 0). by apply Qfloor_resp_le.
  - split.
    + assert (H1 : (inject_Z (Qfloor (timeout / (1 # 10))) * (1 # 10)
                    <= timeout / (1 # 10) * (1 # 10))%Q).
      { apply Qmult_le_r; [reflexivity|exact Hlo]. }
      eapply Qle_trans; [exact H1|]. rewrite Heq. apply Qle_refl.
    + assert (H1 : (timeout / (1 # 10) * (1 # 10)
                    < inject_Z (Qfloor (timeout / (1 # 10)) + 1) * (1 # 10))%Q).
      { apply Qmult_lt_r; [reflexivity|exact Hhi]. }
      eapply Qle_lt_trans; [|exact H1].
      rewrite Heq. apply Qle_refl.
Qed.

Section engine_round_trip.
Context {U : Unicodedata} {H : Host} {F : Festival}.

Lemma random_string_run (n : nat) (w : world) :
  exists rs, random_string n w = (Ok rs, World (fs w) (draws w + n) (trace w)).
Proof.
  revert w. induction n as [|n IH]; intros w.
  - exists []. cbn [random_string]. unfold ret. destruct w as [f d t].
    cbn [fs draws trace]. do 2 f_equal. lia.
  - cbn [random_string]. unfold bindM at 1, choice.
    destruct (IH (World (fs w) (S (draws w)) (trace w))) as [rs Hrs].
    unfold bindM at 1. rewrite Hrs. eexists. unfold ret.
    cbn [fs draws trace]. do 2 f_equal. lia.
Qed.

(** What a successful [TempFile(prefix, suffix)] has done. *)
Lemma TempFile_init_Ok (fuel : nat) (pre suf : str) (w w1 : world) tempf :
  TempFile_init fuel pre suf w = (Ok tempf, w1) ->
  destroyed tempf = false
  /\ fs w !! filepath tempf = None
  /\ fs w1 = <[filepath tempf := []]> (fs w)
  /\ trace w1 = trace w.
Proof.
  revert w. induction fuel as [|fuel IH]; intros w.
  { cbn [TempFile_init]. unfold lift. intros Hrun. discriminate Hrun. }
  cbn [TempFile_init]. unfold bindM at 1.
  destruct (random_string_run 5 w) as [rs ->].
  unfold bindM at 1, isfile. cbn [fs].
  case_bool_decide as Hfile.
  - intros Hrun. apply IH in Hrun. exact Hrun.
  - unfold bindM, create_empty, ret. cbn [fs draws trace set_fs].
    intros Hrun. injection Hrun as <- <-.
    cbn [fs draws trace destroyed filepath].
    split; [reflexivity|]. split; [|split; reflexivity].
    by apply eq_None_not_Some.
Qed.

(** The loop on a process that is running at every poll, from
    iteration [i] on. *)
Lemma poll_loop_hang (command : str) (timeout : Q) (L : nat) :
  (forall n, festival_poll command n = None) ->
  forall (d i : nat) (w : world),
    (i + d = L)%nat ->
    poll_loop command timeout (Z.of_nat L) (List.map Z.of_nat (seq i (S d))) w
    = (Raise (Exception (timeout_message timeout command)),
       World (fs w) (draws w)
         (trace w ++ concat (replicate d [Poll; Sleep (1 # 10)])
          ++ [Poll; Kill;
              Print (u "Festivl timed out after "
                     ++ fmt_d (int_of_Q (inject_Z (Z.of_nat L) * (1 # 10)))
                     ++ u "s")])).
Proof.
  intros Hhang. induction d as [|d IH]; intros i w Hi.
  - cbn [seq List.map poll_loop]. rewrite Hhang.
    destruct (Z.ltb_spec (Z.of_nat i) (Z.of_nat L)) as [|_]; [lia|].
    unfold bindM, do_event, raise, emit. cbn [fs draws trace replicate concat].
    rewrite <- !app_assoc. reflexivity.
  - change (seq i (S (S d))) with (i :: seq (S i) (S d)).
    rewrite List.map_cons.
    remember (List.map Z.of_nat (seq (S i) (S d))) as rest eqn:Hrest.
    cbn [poll_loop]. rewrite Hhang. subst rest.
    destruct (Z.ltb_spec (Z.of_nat i) (Z.of_nat L)) as [_|]; [|lia].
    unfold bindM at 1, do_event at 1. unfold bindM at 1, do_event at 1.
    rewrite (IH (S i)) by lia. unfold emit.
    cbn [fs draws trace replicate concat].
    rewrite <- !app_assoc. reflexivity.
Qed.

(** [transcribe_string] on an engine that never exits. *)
Lemma transcribe_string_hang (fuel : nat) (string s : str) (timeout : Q)
    (w w1 : world) (tempf : TempFile) :
  (0 <= timeout)%Q ->
  map_utf8_to_festival string = Ok s ->
  TempFile_init fuel (u "festival-") (u ".segs") w = (Ok tempf, w1) ->
  let command :=
    format_command (festival_escape s) (festival_escape (get_path tempf)) in
  festival_start command = None ->
  (forall n, festival_poll command n = None) ->
  transcribe_string fuel string timeout w
  = (Raise (Exception (timeout_message timeout command)),
     World (fs w) (draws w1)
       (trace w
        ++ timeout_events command
             (Z.to_nat (int_of_Q (timeout / (1 # 10)))))).
Proof.
  intros Ht Hs Hinit command Hstart Hhang.
  destruct (timeout_loops_bounds timeout Ht) as (Hloops & _ & _).
  destruct (TempFile_init_Ok _ _ _ _ _ _ Hinit) as (Hd & Hfresh & Hfs & Htr).
  unfold transcribe_string. unfold bindM at 1, lift at 1. rewrite Hs.
  unfold bindM at 1. unfold with_TempFile. unfold bindM at 1. rewrite Hinit.
  fold command. unfold bindM at 1, popen. rewrite Hstart.
  unfold do_event at 1. unfold bindM at 1.
  set (L := Z.to_nat (int_of_Q (timeout / (1 # 10)))).
  replace (int_of_Q (timeout / (1 # 10))) with (Z.of_nat L) by lia.
  unfold range1. replace (Z.to_nat (Z.of_nat L + 1)) with (S L) by lia.
  rewrite (poll_loop_hang command timeout L Hhang L 0%nat) by lia.
  unfold destroy, bindM, unlink. rewrite Hd. cbn [negb fs emit].
  rewrite Hfs, lookup_insert_eq. unfold ret, set_fs. cbn [fs draws trace].
  rewrite delete_insert_id by exact Hfresh.
  unfold timeout_events, emit. cbn [fs draws trace].
  rewrite Htr, <- !app_assoc. reflexivity.
Qed.

End engine_round_trip.

Lemma count_app (p : event -> bool) (a b : list event) :
  count p (a ++ b) = (count p a + count p b)%nat.
Proof.
  induction a as [|e a IH]; [reflexivity|].
  cbn [app count]. destruct (p e); rewrite IH; reflexivity.
Qed.

Lemma timeout_events_counts (command : str) (loops : nat) :
  polls (timeout_events command loops) = S loops
  /\ sleeps (timeout_events command loops) = loops
  /\ kills (timeout_events command loops) = 1%nat.
Proof.
  unfold polls, sleeps, kills, timeout_events.
  rewrite !count_app.
  assert (Hrounds :
    count (fun e => match e with Poll => true | _ => false end)
      (concat (replicate loops [Poll; Sleep (1 # 10)])) = loops
    /\ count (fun e => match e with Sleep _ => true | _ => false end)
         (concat (replicate loops [Poll; Sleep (1 # 10)])) = loops
    /\ count (fun e => match e with Kill => true | _ => false end)
         (concat (replicate loops [Poll; Sleep (1 # 10)])) = 0%nat).
  { induction loops as [|n (IH1 & IH2 & IH3)]; [done|].
    cbn [replicate concat app count]. rewrite IH1, IH2, IH3. done. }
  destruct Hrounds as (-> & -> & ->). cbn [count]. lia.
Qed.

Lemma contains_middle (a s b : str) : contains (a ++ s ++ b) s.
Proof. by exists a, b. Qed.

Lemma time_slept_app (a b : list event) :
  (time_slept (a ++ b) == time_slept a + time_slept b)%Q.
Proof.
  induction a as [|e a IH]; cbn [app time_slept]; [ring|].
  destruct e; rewrite ?IH; ring.
Qed.

Lemma time_slept_rounds (loops : nat) :
  (time_slept (concat (replicate loops [Poll; Sleep (1 # 10)]))
   == inject_Z (Z.of_nat loops) * (1 # 10))%Q.
Proof.
  induction loops as [|n IH]; [reflexivity|].
  cbn [replicate concat app time_slept]. rewrite IH.
  rewrite Nat2Z.inj_succ. unfold Z.succ. rewrite inject_Z_plus. ring.
Qed.

Lemma time_slept_timeout_events (command : str) (loops : nat) :
  (time_slept (timeout_events command loops)
   == inject_Z (Z.of_nat loops) * (1 # 10))%Q.
Proof.
  unfold timeout_events. rewrite !time_slept_app, time_slept_rounds.
  cbn [time_slept]. ring.
Qed.

(** On a whole number of seconds the number of rounds is ten times the
    limit. *)
Lemma timeout_loops_whole_seconds (seconds : Z) :
  int_of_Q (inject_Z seconds / (1 # 10)) = 10 * seconds.
Proof.
  unfold int_of_Q, Qdiv, Qinv, Qmult, inject_Z. cbn [Qnum Qden].
  rewrite Z.quot_1_r. lia.
Qed.

Lemma timeout_printed_whole_seconds (seconds : Z) :
  int_of_Q (inject_Z (10 * seconds) * (1 # 10)) = seconds.
Proof.
  unfold int_of_Q, Qmult, inject_Z. cbn [Qnum Qden].
  replace (10 * seconds * 1) with (seconds * 10) by lia.
  change (Z.pos (1 * 10)) with 10. apply Z.quot_mul. lia.
Qed.

(** C7. When the engine started for a word never exits, and the time
    limit is a whole number of seconds (as the limits of the program, 5
    and 30, are) in the range where binary64 holds ten times the limit
    exactly, [transcribe_string] polls the engine [int(timeout/0.1) + 1]
    times, that is ten times the limit plus once, with a sleep of 0.1 s
    between two polls, then kills it and raises an exception whose
    message holds the command and the time limit; no transcription is
    returned.  The time slept is less than the limit plus one interval,
    and the temporary file is removed.  The number of rounds and the
    seconds in the line printed, which the model computes in exact
    arithmetic, are the ones binary64 gives. *)
Theorem timeout_kills_and_raises :
  forall (U : Unicodedata) (H : Host) (F : Festival)
         (fuel : nat) (string s : str) (seconds : Z)
         (w w1 : world) (tempf : TempFile),
    0 <= seconds ->
    10 * seconds < 2 ^ 53 ->
    map_utf8_to_festival string = Ok s ->
    TempFile_init fuel (u "festival-") (u ".segs") w = (Ok tempf, w1) ->
    let timeout := inject_Z seconds in
    let command :=
      format_command (festival_escape s) (festival_escape (get_path tempf)) in
    let loops := Z.to_nat (int_of_Q (timeout / (1 # 10))) in
    festival_start command = None ->
    (forall n, festival_poll command n = None) ->
    exists (msg : str) (w' : world),
      transcribe_string fuel string timeout w = (Raise (Exception msg), w')
      /\ trace w' = trace w ++ timeout_events command loops
      /\ Z.of_nat (polls (timeout_events command loops))
         = int_of_Q (timeout / (1 # 10)) + 1
      /\ Z.of_nat (polls (timeout_events command loops)) = 10 * seconds + 1
      /\ sleeps (timeout_events command loops) = loops
      /\ kills (timeout_events command loops) = 1%nat
      /\ (time_slept (timeout_events command loops) < timeout + (1 # 10))%Q
      /\ contains msg command
      /\ contains msg (fmt_s_number timeout)
      /\ fs w' = fs w
      /\ timeout_loops_binary64 (float_of_int seconds)
         = Some (Z.of_nat loops)
      /\ timeout_printed_binary64 (Z.of_nat loops)
         = Some (int_of_Q (inject_Z (Z.of_nat loops) * (1 # 10))).
Proof.
  intros U H F fuel string s seconds w w1 tempf Hsec Hrange Hs Hinit timeout
    command loops Hstart Hhang.
  assert (Ht : (0 <= timeout)%Q).
  { unfold timeout, Qle, inject_Z. cbn [Qnum Qden]. lia. }
  pose proof (timeout_loops_whole_seconds seconds) as Hten.
  fold timeout in Hten.
  destruct (timeout_events_counts command loops) as (Hp & Hsl & Hk).
  eexists _, _. split.
  { apply (transcribe_string_hang fuel string s timeout w w1 tempf); assumption. }
  cbn [trace fs]. split; [reflexivity|].
  split; [rewrite Hp; unfold loops; lia|].
  split; [rewrite Hp; unfold loops; lia|].
  split; [exact Hsl|]. split; [exact Hk|].
  split.
  { rewrite time_slept_timeout_events. unfold loops.
    rewrite Z2Nat.id by lia. rewrite Hten. unfold timeout.
    rewrite inject_Z_mult.
    assert (Heq : (inject_Z 10 * inject_Z seconds * (1 # 10)
                   == inject_Z seconds)%Q) by field.
    rewrite Heq. rewrite <- (Qplus_0_r (inject_Z seconds)) at 1.
    apply Qplus_lt_r. reflexivity. }
  split.
  { unfold timeout_message. rewrite !app_assoc.
    rewrite <- (app_assoc _ command). apply contains_middle. }
  split; [unfold timeout_message; apply contains_middle|].
  split; [reflexivity|].
  assert (Hloops : Z.of_nat loops = 10 * seconds) by (unfold loops; lia).
  rewrite Hloops. split.
  - apply timeout_loops_binary64_whole_seconds; assumption.
  - rewrite timeout_printed_whole_seconds.
    apply timeout_printed_binary64_whole_seconds; assumption.
Qed.

(** The instance of C7 for the word [tŷ], a limit of 5 seconds and an
    engine that never exits: 51 polls. *)
Lemma timeout_kills_and_raises_witness :
  0 <= 5
  /\ 10 * 5 < 2 ^ 53
  /\ @map_utf8_to_festival sample.nfkd_welsh (u "tŷ") = Ok (u "ty+")
  /\ @TempFile_init sample.host 1 (u "festival-") (u ".segs") sample.empty_world
     = (Ok sample.tempfile, sample.world_with_tempfile)
  /\ (forall command n, @festival_poll sample.festival_hang command n = None)
  /\ exists (msg : str) (w' : world),
       @transcribe_string sample.nfkd_welsh sample.host sample.festival_hang
         1 (u "tŷ") (inject_Z 5) sample.empty_world
       = (Raise (Exception msg), w')
       /\ polls (trace w') = 51%nat.
Proof.
  split; [lia|]. split; [lia|]. split; [vm_compute; reflexivity|].
  split; [vm_compute; reflexivity|]. split; [reflexivity|].
  destruct (timeout_kills_and_raises sample.nfkd_welsh sample.host
              sample.festival_hang 1 (u "tŷ") (u "ty+") 5
              sample.empty_world sample.world_with_tempfile sample.tempfile)
    as (msg & w' & Hrun & Htr & _).
  - lia.
  - lia.
  - vm_compute; reflexivity.
  - vm_compute; reflexivity.
  - reflexivity.
  - reflexivity.
  - exists msg, w'. split; [exact Hrun|]. rewrite Htr. vm_compute. reflexivity.
Defined.

(** ** One line of the word list *)

Lemma lstrip_spaces (a b : str) :
  Forall (fun c => isspace c = true) a -> lstrip (a ++ b) = lstrip b.
Proof.
  induction 1 as [|c a Hc _ IH]; [reflexivity|].
  cbn [app lstrip]. by rewrite Hc.
Qed.

Lemma lstrip_id (s : str) :
  (forall c, head s = Some c -> isspace c = false) -> lstrip s = s.
Proof.
  destruct s as [|c s]; [reflexivity|].
  intros Hhead. cbn [lstrip]. by rewrite (Hhead c eq_refl).
Qed.

Lemma isspace_comma : isspace COMMA = false.
Proof. reflexivity. Qed.

Lemma strip_line (word freq term : str) :
  (forall c, head word = Some c -> isspace c = false) ->
  (forall c, last freq = Some c -> isspace c = false) ->
  Forall (fun c => isspace c = true) term ->
  strip (word ++ [COMMA] ++ freq ++ term) = word ++ [COMMA] ++ freq.
Proof.
  intros Hword Hfreq Hterm. unfold strip, rstrip.
  rewrite (lstrip_id (word ++ [COMMA] ++ freq ++ term)).
  2:{ destruct word as [|c word']; cbn [app hd_error].
      - intros c [= <-]. apply isspace_comma.
      - intros c' [= <-]. by apply Hword. }
  rewrite !app_assoc, rev_app_distr, lstrip_spaces.
  2:{ by apply List.Forall_rev. }
  rewrite lstrip_id; [apply rev_involutive|].
  intros c. rewrite rev_app_distr.
  destruct (rev freq) as [|c' f'] eqn:Hrev.
  - rewrite rev_app_distr. cbn [rev app hd_error]. intros [= <-].
    apply isspace_comma.
  - cbn [app hd_error]. intros [= <-]. apply Hfreq.
    rewrite <- (rev_involutive freq), Hrev. cbn [rev].
    apply last_snoc.
Qed.

Lemma split_on_aux_no_sep (sep : N) (cur b : str) :
  sep ∉ b -> split_on_aux sep cur b = [rev cur ++ b].
Proof.
  revert cur. induction b as [|c b IH]; intros cur Hb.
  - cbn. by rewrite app_nil_r.
  - cbn [split_on_aux]. apply not_elem_of_cons in Hb as [Hc Hb].
    destruct (N.eqb_spec c sep) as [->|_]; [done|].
    rewrite IH by done. cbn [rev]. by rewrite <- app_assoc.
Qed.

Lemma split_on_aux_sep (sep : N) (cur a b : str) :
  sep ∉ a ->
  split_on_aux sep cur (a ++ sep :: b) = (rev cur ++ a) :: split_on_aux sep [] b.
Proof.
  revert cur. induction a as [|c a IH]; intros cur Ha.
  - cbn [app split_on_aux]. rewrite N.eqb_refl. by rewrite app_nil_r.
  - cbn [app split_on_aux]. apply not_elem_of_cons in Ha as [Hc Ha].
    destruct (N.eqb_spec c sep) as [->|_]; [done|].
    rewrite IH by done. cbn [rev]. by rewrite <- app_assoc.
Qed.

Lemma split_line (word freq : str) :
  COMMA ∉ word -> COMMA ∉ freq ->
  split_on COMMA (word ++ [COMMA] ++ freq) = [word; freq].
Proof.
  intros Hw Hf. unfold split_on. cbn [app].
  rewrite split_on_aux_sep by done. by rewrite split_on_aux_no_sep.
Qed.

Lemma last_fields_run (output : list str) (fields : list str) (acc : str) :
  List.map (fun line => last (split_ws line)) output = List.map Some fields ->
  last_fields output acc
  = Ok (acc ++ concat (List.map (fun field => field ++ u " ") fields)).
Proof.
  revert fields acc. induction output as [|line output IH]; intros fields acc.
  - destruct fields; [|discriminate]. intros _. cbn. by rewrite app_nil_r.
  - destruct fields as [|field fields]; [discriminate|].
    cbn [List.map]. intros [= Hline Hrest].
    cbn [last_fields]. unfold last_item. rewrite Hline. cbn [bind].
    rewrite (IH fields) by exact Hrest. cbn [concat]. by rewrite <- !app_assoc.
Qed.

Section engine_answers.
Context {U : Unicodedata} {H : Host} {F : Festival}.

(** The loop on a process first seen to have exited at poll [k]. *)
Lemma poll_loop_exit (command : str) (timeout : Q) (L k : nat) status :
  festival_poll command k = Some status ->
  (forall j, (j < k)%nat -> festival_poll command j = None) ->
  (k <= L)%nat ->
  forall (d i m : nat) (w : world),
    (i + d = k)%nat ->
    poll_loop command timeout (Z.of_nat L)
      (List.map Z.of_nat (seq i (S (d + m)))) w
    = (Ok tt,
       World (festival_files command (fs w)) (draws w)
         (trace w ++ concat (replicate d [Poll; Sleep (1 # 10)]) ++ [Poll])).
Proof.
  intros Hexit Hrun HkL. induction d as [|d IH]; intros i m w Hi.
  - change (seq i (S (0 + m))) with (i :: seq (S i) m).
    rewrite List.map_cons.
    remember (List.map Z.of_nat (seq (S i) m)) as rest eqn:Hrest.
    cbn [poll_loop]. rewrite Nat2Z.id.
    replace i with k by lia. rewrite Hexit.
    unfold bindM, do_event, emit, set_fs. cbn [fs draws trace replicate concat].
    reflexivity.
  - change (seq i (S (S d + m))) with (i :: seq (S i) (S (d + m))).
    rewrite List.map_cons.
    remember (List.map Z.of_nat (seq (S i) (S (d + m)))) as rest eqn:Hrest.
    cbn [poll_loop]. rewrite Nat2Z.id, Hrun by lia. subst rest.
    destruct (Z.ltb_spec (Z.of_nat i) (Z.of_nat L)) as [_|]; [|lia].
    unfold bindM at 1, do_event at 1. unfold bindM at 1, do_event at 1.
    rewrite (IH (S i)) by lia. unfold emit.
    cbn [fs draws trace replicate concat].
    rewrite <- !app_assoc. reflexivity.
Qed.

(** [transcribe_string] on an engine that exits within the limit and
    leaves [output] in the temporary file. *)
Lemma transcribe_string_exit (fuel : nat) (string s : str) (timeout : Q)
    (w w1 : world) (tempf : TempFile) (k : nat) status (output : list str) :
  map_utf8_to_festival string = Ok s ->
  TempFile_init fuel (u "festival-") (u ".segs") w = (Ok tempf, w1) ->
  let command :=
    format_command (festival_escape s) (festival_escape (get_path tempf)) in
  festival_start command = None ->
  festival_poll command k = Some status ->
  (forall j, (j < k)%nat -> festival_poll command j = None) ->
  Z.of_nat k <= int_of_Q (timeout / (1 # 10)) ->
  festival_files command (fs w1) !! filepath tempf = Some output ->
  exists w',
    transcribe_string fuel string timeout w
    = (bind (last_fields output [])
         (fun transcription =>
            map_festival_to_ipa transcription false false true),
       w')
    /\ fs w' = delete (filepath tempf) (festival_files command (fs w1)).
Proof.
  intros Hs Hinit command Hstart Hexit Hrun Hk Hout.
  destruct (TempFile_init_Ok _ _ _ _ _ _ Hinit) as (Hd & Hfresh & Hfs & Htr).
  unfold transcribe_string. unfold bindM at 1, lift at 1. rewrite Hs.
  unfold bindM at 1. unfold with_TempFile. unfold bindM at 1. rewrite Hinit.
  fold command. unfold bindM at 1, popen. rewrite Hstart.
  unfold do_event at 1. unfold bindM at 1.
  set (L := Z.to_nat (int_of_Q (timeout / (1 # 10)))).
  replace (int_of_Q (timeout / (1 # 10))) with (Z.of_nat L) by lia.
  unfold range1. replace (Z.to_nat (Z.of_nat L + 1)) with (S (k + (L - k))) by lia.
  rewrite (poll_loop_exit command timeout L k status Hexit Hrun) by lia.
  unfold read_lines, get_path. cbn [fs emit]. rewrite Hout.
  unfold destroy, bindM, unlink. rewrite Hd. cbn [negb fs]. rewrite Hout.
  unfold ret, set_fs, lift. cbn [fs draws trace].
  destruct (last_fields output []) as [transcription| e |]; cbn [bind];
    eexists; (split; [reflexivity|reflexivity]).
Qed.

(** [transcribe_line] on a line made of a word, a comma, a frequency
    and a terminator. *)
Lemma transcribe_line_run (fuel : nat) (word freq term : str)
    (timeout : Q) (w : world) :
  COMMA ∉ word -> COMMA ∉ freq ->
  (forall c, head word = Some c -> isspace c = false) ->
  (forall c, last freq = Some c -> isspace c = false) ->
  Forall (fun c => isspace c = true) term ->
  transcribe_line fuel (word ++ u "," ++ freq ++ term) timeout w
  = bindM (transcribe_string fuel word timeout)
      (fun transcription =>
         ret (transcription ++ u "," ++ freq ++ u "," ++ word ++ [CR; LF])) w.
Proof.
  intros Hw Hf Hhead Hlast Hterm. unfold transcribe_line.
  change (u ",") with [COMMA].
  rewrite strip_line by assumption. rewrite split_line by assumption.
  reflexivity.
Qed.

End engine_answers.

(** C8. For a line made of a word, a comma, a frequency and a
    terminator (word and frequency without comma, no white space before
    the word or after the frequency), [transcribe_line] returns the
    transcription of the word, the frequency as it is and the word,
    separated by commas and ended by CR LF; when the transcription fails
    it returns no line.  For the line [caffi,12] and the default limit of
    30 seconds, with an engine that exits within the limit and has saved
    the segments k, a, f, i, the line returned is [kafi,12,caffi] with
    CR LF. *)
Theorem transcribe_line_output_format :
  forall (U : Unicodedata) (H : Host) (F : Festival)
         (fuel : nat) (word freq term : str) (timeout : Q) (w : world),
    COMMA ∉ word -> COMMA ∉ freq ->
    (forall c, head word = Some c -> isspace c = false) ->
    (forall c, last freq = Some c -> isspace c = false) ->
    Forall (fun c => isspace c = true) term ->
    (forall transcription w',
        transcribe_string fuel word timeout w = (Ok transcription, w') ->
        transcribe_line fuel (word ++ u "," ++ freq ++ term) timeout w
        = (Ok (transcription ++ u "," ++ freq ++ u "," ++ word ++ [CR; LF]), w'))
    /\ (forall r w',
          transcribe_string fuel word timeout w = (r, w') ->
          is_ok r = false ->
          is_ok (fst (transcribe_line fuel (word ++ u "," ++ freq ++ term)
                        timeout w)) = false)
    /\ (word = u "caffi" -> freq = u "12" -> timeout = 30%Q ->
        normalize_NFKD (u "caffi") = u "caffi" ->
        forall (w1 : world) (tempf : TempFile) (k : nat) (status : Z)
               (output : list str),
          TempFile_init fuel (u "festival-") (u ".segs") w = (Ok tempf, w1) ->
          let command :=
            format_command (u "caffi") (festival_escape (get_path tempf)) in
          festival_start command = None ->
          festival_poll command k = Some status ->
          (forall j, (j < k)%nat -> festival_poll command j = None) ->
          (k <= 300)%nat ->
          festival_files command (fs w1) !! filepath tempf = Some output ->
          List.map (fun line => last (split_ws line)) output
          = [Some (u "k"); Some (u "a"); Some (u "f"); Some (u "i")] ->
          exists w',
            transcribe_line fuel (u "caffi,12" ++ term) 30 w
            = (Ok (u "kafi,12,caffi" ++ [CR; LF]), w')).
Proof.
  intros U H F fuel word freq term timeout w Hw Hf Hhead Hlast Hterm.
  pose proof (transcribe_line_run fuel word freq term timeout w
                Hw Hf Hhead Hlast Hterm) as Hline.
  split; [|split].
  - intros transcription w' Hrun. rewrite Hline. unfold bindM. by rewrite Hrun.
  - intros r w' Hrun Hr. rewrite Hline. unfold bindM. rewrite Hrun.
    destruct r; [discriminate Hr|reflexivity..].
  - intros -> -> -> Hnfkd w1 tempf k status output Hinit command
      Hstart Hexit Hrunning Hk Hout Hsegs.
    assert (Hs : map_utf8_to_festival (u "caffi") = Ok (u "caffi")).
    { rewrite map_utf8_to_festival_chars, Hnfkd. reflexivity. }
    destruct (transcribe_string_exit fuel (u "caffi") (u "caffi") 30 w w1 tempf
                k status output Hs Hinit Hstart Hexit Hrunning)
      as (w' & Hrun & _).
    { change (int_of_Q (30 / (1 # 10))) with 300. lia. }
    { exact Hout. }
    rewrite (last_fields_run output [u "k"; u "a"; u "f"; u "i"] []) in Hrun
      by exact Hsegs.
    exists w'. change (u "caffi,12" ++ term) with (u "caffi" ++ u "," ++ u "12" ++ term).
    rewrite Hline. unfold bindM. rewrite Hrun. reflexivity.
Qed.

(** The instance of C8 for the line [caffi,12] on the sample host, with
    the engine that exits at the third poll. *)
Lemma transcribe_line_output_format_witness :
  (COMMA ∉ u "caffi") /\ (COMMA ∉ u "12")
  /\ Forall (fun c => isspace c = true) [LF]
  /\ exists w',
       @transcribe_line sample.nfkd_welsh sample.host sample.festival_caffi
         1 (u "caffi,12" ++ [LF]) 30 sample.empty_world
       = (Ok (u "kafi,12,caffi" ++ [CR; LF]), w').
Proof.
  assert (Hw : COMMA ∉ u "caffi")
    by (apply (bool_decide_unpack _); vm_compute; exact I).
  assert (Hf : COMMA ∉ u "12")
    by (apply (bool_decide_unpack _); vm_compute; exact I).
  assert (Hterm : Forall (fun c => isspace c = true) [LF])
    by (repeat constructor).
  split; [exact Hw|]. split; [exact Hf|]. split; [exact Hterm|].
  destruct (transcribe_line_output_format sample.nfkd_welsh sample.host
              sample.festival_caffi 1 (u "caffi") (u "12") [LF] 30
              sample.empty_world Hw Hf) as (_ & _ & Hcaffi).
  - intros c [= <-]. reflexivity.
  - intros c [= <-]. reflexivity.
  - exact Hterm.
  - apply (Hcaffi eq_refl eq_refl eq_refl eq_refl
             sample.world_with_tempfile sample.tempfile 2%nat 0
             sample.caffi_segs).
    + vm_compute; reflexivity.
    + reflexivity.
    + reflexivity.
    + intros j Hj. destruct j as [|[|j]]; [reflexivity|reflexivity|lia].
    + lia.
    + vm_compute; reflexivity.
    + vm_compute; reflexivity.
Defined.

(* ===================================================================== *)
(** * Further properties of the code *)
(* ===================================================================== *)

(** ** [shared.chunks] at the edges *)

(** X1. With a chunk size of zero [chunks] raises the [ValueError] of
    [range]; with a negative chunk size it yields nothing at all,
    whatever the list holds. *)
Theorem chunks_size_not_positive :
  forall (A : Type) (lst : list A) (chunk_size : Z),
    chunk_size <= 0 ->
    shared.chunks lst chunk_size
    = if chunk_size =? 0
      then Raise (ValueError (u "range() arg 3 must not be zero"))
      else Ok [].
Proof.
  intros A lst p Hp. unfold shared.chunks, range.
  destruct (Z.eqb_spec p 0) as [->|Hne]; [reflexivity|].
  destruct (Z.ltb_spec 0 p) as [|_]; [lia|].
  assert (Hq : (0 - Z.of_nat (length lst) - p - 1) / - p < 1).
  { apply Z.div_lt_upper_bound; lia. }
  replace (Z.to_nat ((0 - Z.of_nat (length lst) - p - 1) / - p)) with 0%nat
    by lia.
  reflexivity.
Qed.

(** The instance of X1 for a chunk size of -2. *)
Lemma chunks_size_not_positive_witness :
  -2 <= 0 /\ shared.chunks [1; 2; 3]%nat (-2) = Ok [].
Proof.
  split; [lia|].
  apply (chunks_size_not_positive nat [1; 2; 3]%nat (-2)). lia.
Defined.

(** X2. For a chunk size [p >= 1] the number of chunks is the length of
    the list divided by [p], rounded up; no chunk is empty; an empty list
    gives no chunk, and a list of at most [p] records gives one chunk,
    the list itself. *)
Theorem chunks_count :
  forall (A : Type) (lst : list A) (p : Z),
    1 <= p ->
    exists cs : list (list A),
      shared.chunks lst p = Ok cs
      /\ Z.of_nat (length cs) = (Z.of_nat (length lst) + p - 1) / p
      /\ Forall (fun c => c <> []) cs
      /\ (lst = [] -> cs = [])
      /\ (lst <> [] -> Z.of_nat (length lst) <= p -> cs = [lst]).
Proof.
  intros A lst p Hp.
  set (P := Z.to_nat p). assert (HP : (1 <= P)%nat) by lia.
  destruct (nchunks_bounds (length lst) P HP) as [Hcover Hstart].
  eexists. split; [by apply chunks_eq|]. fold P.
  assert (Hn : Z.of_nat (nchunks (length lst) P)
               = (Z.of_nat (length lst) + p - 1) / p).
  { unfold nchunks, P. rewrite !Z2Nat.id; [reflexivity|lia|].
    rewrite Z2Nat.id by lia. apply Z.div_pos; lia. }
  split; [by rewrite length_map, length_seq|]. split.
  { apply Forall_forall. intros c Hc. apply list_elem_of_In, in_map_iff in Hc.
    destruct Hc as (k & <- & Hk%in_seq). intros Hnil.
    apply (f_equal length) in Hnil. rewrite length_take, length_drop in Hnil.
    cbn in Hnil. pose proof (Hstart k ltac:(lia)). lia. }
  split.
  - intros ->. cbn [length] in Hn.
    replace ((Z.of_nat 0 + p - 1) / p) with 0 in Hn
      by (symmetry; apply Z.div_small; lia).
    replace (nchunks (length (@nil A)) P) with 0%nat by (cbn [length]; lia).
    reflexivity.
  - intros Hne Hle.
    assert (Hlen : (0 < length lst)%nat) by (destruct lst; [done|cbn; lia]).
    assert (Hone : (Z.of_nat (length lst) + p - 1) / p = 1).
    { symmetry. apply (Z.div_unique _ _ 1 (Z.of_nat (length lst) - 1)); lia. }
    replace (nchunks (length lst) P) with 1%nat by lia.
    cbn [seq List.map]. rewrite Nat.mul_0_l, drop_0, take_ge by lia.
    reflexivity.
Qed.

(** The instance of X2 for five records and a chunk size of two. *)
Lemma chunks_count_witness :
  1 <= 2
  /\ exists cs : list (list nat),
       shared.chunks [1; 2; 3; 4; 5]%nat 2 = Ok cs
       /\ Z.of_nat (length cs) = 3.
Proof.
  split; [lia|].
  destruct (chunks_count nat [1; 2; 3; 4; 5]%nat 2 ltac:(lia))
    as (cs & Hcs & Hn & _).
  exists cs. split; [exact Hcs|]. rewrite Hn. reflexivity.
Defined.

Lemma slice_map {A B} (f : A -> B) (lst : list A) (i j : Z) :
  slice (List.map f lst) i j = List.map f (slice lst i j).
Proof.
  unfold slice. rewrite !map_fmap, length_fmap, fmap_take, fmap_drop.
  reflexivity.
Qed.

(** X3. Chunking commutes with mapping: the chunks of a mapped list are
    the mapped chunks of the list, for every chunk size (and the same
    error for size zero). *)
Theorem chunks_map :
  forall (A B : Type) (f : A -> B) (lst : list A) (chunk_size : Z),
    shared.chunks (List.map f lst) chunk_size
    = bind (shared.chunks lst chunk_size)
        (fun cs => Ok (List.map (List.map f) cs)).
Proof.
  intros A B f lst p. unfold shared.chunks. rewrite length_map.
  destruct (range 0 (Z.of_nat (length lst)) p) as [r| |]; [|reflexivity..].
  cbn [bind]. f_equal. rewrite List.map_map.
  apply List.map_ext. intros i. apply slice_map.
Qed.

(** ** Hours, minutes and seconds *)

Lemma Qfloor_div_60 (x : Q) : Qfloor (x / 60) = Qfloor x / 60.
Proof.
  destruct x as [n d]. unfold Qdiv, Qmult, Qinv, Qfloor. cbn.
  rewrite Z.mul_1_r, Pos2Z.inj_mul, Z.div_div by lia. reflexivity.
Qed.

(** X4. On a whole number [n] of seconds, of either sign, in the range
    where binary64 holds every whole number, so that [divmod] is exact
    on an [int] and on a [float] alike, [seconds_to_hms] returns
    [n // 3600], [(n // 60) % 60] and [n % 60]: the hours carry the
    sign, minutes and seconds are never negative. *)
Theorem seconds_to_hms_whole_seconds :
  forall n : Z,
    Z.abs n < 2 ^ 53 ->
    let '(h, m, s) := shared.seconds_to_hms (inject_Z n) in
    h = inject_Z (n / 3600)
    /\ (m == inject_Z (n / 60 mod 60))%Q
    /\ (s == inject_Z (n mod 60))%Q
    /\ (h * 3600 + m * 60 + s == inject_Z n)%Q.
Proof.
  intros n _. unfold shared.seconds_to_hms, divmod. cbv beta iota zeta.
  rewrite (Qfloor_div_60 (inject_Z n)), Qfloor_Z.
  rewrite (Qfloor_div_60 (inject_Z (n / 60))), Qfloor_Z.
  rewrite Z.div_div by lia. change (60 * 60) with 3600.
  assert (Hm : n / 60 mod 60 = n / 60 - n / 3600 * 60).
  { rewrite Z.mod_eq by lia.
    replace (n / 3600) with (n / 60 / 60)
      by (rewrite Z.div_div by lia; reflexivity).
    lia. }
  assert (Hs : n mod 60 = n - n / 60 * 60).
  { rewrite Z.mod_eq by lia. lia. }
  rewrite Hm, Hs. unfold Z.sub.
  rewrite !inject_Z_plus, !inject_Z_opp, !inject_Z_mult.
  change (inject_Z 60) with 60%Q.
  split; [reflexivity|]. split; [ring|]. split; ring.
Qed.

(** The instance of X4 for 3725 seconds: one hour, two minutes and five
    seconds. *)
Lemma seconds_to_hms_whole_seconds_witness :
  Z.abs 3725 < 2 ^ 53
  /\ let '(h, m, s) := shared.seconds_to_hms (inject_Z 3725) in
     h = 1%Q /\ (m == 2)%Q /\ (s == 5)%Q
     /\ (h * 3600 + m * 60 + s == 3725)%Q.
Proof.
  split; [reflexivity|].
  exact (seconds_to_hms_whole_seconds 3725 eq_refl).
Defined.

(** One second before zero is the last second of the hour before. *)
Example seconds_to_hms_minus_one :
  let '(h, m, s) := shared.seconds_to_hms (inject_Z (-1)) in
  h = (-1)%Q /\ (m == 59)%Q /\ (s == 59)%Q.
Proof. split; [reflexivity|]. split; reflexivity. Qed.

(** ** Punctuation and the alphabets *)

Lemma filter_filter_andb {A} (p q : A -> bool) (l : list A) :
  List.filter q (List.filter p l) = List.filter (fun x => p x && q x) l.
Proof.
  induction l as [|x l IH]; [reflexivity|].
  cbn [List.filter]. destruct (p x); cbn [List.filter andb]; [|exact IH].
  destruct (q x); by rewrite IH.
Qed.

Lemma filter_all_true {A} (p : A -> bool) (l : list A) :
  Forall (fun x => p x = true) l -> List.filter p l = l.
Proof.
  induction 1 as [|x l Hx _ IH]; [reflexivity|].
  cbn [List.filter]. by rewrite Hx, IH.
Qed.

Lemma strip_punctuation_filter `{UnicodeCategory} (string : str) :
  shared.strip_punctuation string = List.filter kept string.
Proof.
  unfold shared.strip_punctuation. rewrite !filter_filter_andb.
  apply filter_ext. intros c. unfold kept. by rewrite andb_assoc.
Qed.

(** X6. [strip_punctuation] keeps, in their order, exactly the code
    points whose category starts with none of P, Z and C: nothing of
    these categories is left, what is left was in the string, a string
    without them is returned as it is, and stripping twice is stripping
    once. *)
Theorem strip_punctuation_keeps_the_rest :
  forall (C : UnicodeCategory) (string : str),
    shared.strip_punctuation string = List.filter kept string
    /\ Forall (fun c => kept c = true) (shared.strip_punctuation string)
    /\ sublist (shared.strip_punctuation string) string
    /\ (Forall (fun c => kept c = true) string ->
        shared.strip_punctuation string = string)
    /\ shared.strip_punctuation (shared.strip_punctuation string)
       = shared.strip_punctuation string.
Proof.
  intros C string.
  assert (Hkept : Forall (fun c => kept c = true) (List.filter kept string)).
  { apply List.Forall_forall. intros c Hc. by apply filter_In in Hc as [_ Hc]. }
  rewrite !strip_punctuation_filter.
  split; [reflexivity|]. split; [exact Hkept|]. split.
  { clear Hkept. induction string as [|c string IH]; [constructor|].
    cbn [List.filter]. destruct (kept c).
    - by apply sublist_skip.
    - by apply sublist_cons. }
  split; [apply filter_all_true|].
  by apply filter_all_true.
Qed.

Lemma all_chars_in_Forall (chars : gset N) (string : str) :
  all_chars_in chars string = true <-> Forall (fun c => c ∈ chars) string.
Proof.
  induction string as [|c string IH]; cbn [all_chars_in].
  - split; [constructor|reflexivity].
  - case_bool_decide as Hc.
    + rewrite IH. split; [by constructor|by inversion 1].
    + split; [discriminate|]. inversion 1; contradiction.
Qed.

Lemma all_chars_in_app (chars : gset N) (a b : str) :
  all_chars_in chars (a ++ b) = all_chars_in chars a && all_chars_in chars b.
Proof.
  induction a as [|c a IH]; [reflexivity|].
  cbn [app all_chars_in]. case_bool_decide; [exact IH|reflexivity].
Qed.

Lemma Forall_filter_iff {A} (p : A -> bool) (P : A -> Prop) (l : list A) :
  Forall P (List.filter p l) <-> Forall (fun x => p x = true -> P x) l.
Proof.
  induction l as [|x l IH]; cbn [List.filter].
  - split; constructor.
  - destruct (p x) eqn:Hp.
    + split; inversion 1; subst; constructor; auto; by apply IH.
    + rewrite IH. split; [constructor; [congruence|done]|by inversion 1].
Qed.

(** X7. [is_welsh_utf8] and [is_welsh_festival_string] accept a string
    exactly when each of its code points that [strip_punctuation] keeps
    is in their alphabet; so the empty string is accepted, a
    concatenation is accepted exactly when both parts are, and a string
    the Festival test accepts that has no kept [+] is accepted by the
    Welsh test. *)
Theorem alphabet_tests_ignore_punctuation :
  forall (C : UnicodeCategory) (a b : str),
    (shared.is_welsh_utf8 a = true
     <-> Forall (fun c => kept c = true -> c ∈ shared.welsh_chars) a)
    /\ (is_welsh_festival_string a = true
        <-> Forall (fun c => kept c = true -> c ∈ festival_chrs) a)
    /\ shared.is_welsh_utf8 (a ++ b)
       = shared.is_welsh_utf8 a && shared.is_welsh_utf8 b
    /\ is_welsh_festival_string (a ++ b)
       = is_welsh_festival_string a && is_welsh_festival_string b
    /\ shared.is_welsh_utf8 [] = true
    /\ (is_welsh_festival_string a = true ->
        Forall (fun c => kept c = true ->
                         c <> 43 /\ c <> 47 /\ c <> 58 /\ c <> 92)%N a ->
        shared.is_welsh_utf8 a = true).
Proof.
  intros C a b.
  assert (Hw : forall s, shared.is_welsh_utf8 s = true
                 <-> Forall (fun c => kept c = true -> c ∈ shared.welsh_chars) s).
  { intros s. unfold shared.is_welsh_utf8.
    rewrite strip_punctuation_filter, all_chars_in_Forall.
    apply Forall_filter_iff. }
  assert (Hf : forall s, is_welsh_festival_string s = true
                 <-> Forall (fun c => kept c = true -> c ∈ festival_chrs) s).
  { intros s. unfold is_welsh_festival_string.
    rewrite strip_punctuation_filter, all_chars_in_Forall.
    apply Forall_filter_iff. }
  split; [apply Hw|]. split; [apply Hf|]. split.
  { unfold shared.is_welsh_utf8.
    by rewrite !strip_punctuation_filter, List.filter_app, all_chars_in_app. }
  split.
  { unfold is_welsh_festival_string.
    by rewrite !strip_punctuation_filter, List.filter_app, all_chars_in_app. }
  split; [reflexivity|].
  intros Hfest Hnone. apply Hw. apply Hf in Hfest.
  rewrite Forall_forall in Hfest, Hnone. apply Forall_forall.
  intros c Hc Hk. specialize (Hfest c Hc Hk). specialize (Hnone c Hc Hk).
  destruct Hnone as (H1 & H2 & H3 & H4).
  unfold festival_chrs in Hfest. rewrite elem_of_list_to_set in Hfest.
  unfold shared.welsh_chars. rewrite elem_of_list_to_set.
  rewrite !elem_of_app in *.
  destruct Hfest as [Hl|[Hb|Hm]].
  - left. revert Hl. generalize c. apply Forall_forall.
    apply (bool_decide_unpack _). vm_compute. exact I.
  - apply list_elem_of_singleton in Hb. unfold BACKSLASH in Hb. lia.
  - exfalso. revert Hm. vm_compute.
    intros Hm. repeat (apply elem_of_cons in Hm as [Hm|Hm]; [lia|]).
    by apply elem_of_nil in Hm.
Qed.

Example alphabet_tests_example :
  @shared.is_welsh_utf8 sample.category_ascii_welsh (u "tŷ'r-hên jam") = true
  /\ @shared.is_welsh_utf8 sample.category_ascii_welsh (u "taxi") = false
  /\ @is_welsh_festival_string sample.category_ascii_welsh (u "ty+ ha:f") = true
  /\ @is_welsh_festival_string sample.category_ascii_welsh (u "jam") = false
  /\ @shared.strip_punctuation sample.category_ascii_welsh (u "a+b: c/'d")
     = u "a+bcd".
Proof. repeat split; vm_compute; reflexivity. Qed.

(** ** The text handed to the engine *)

Lemma length_flat_map_escape (s : str) :
  length (flat_map escape_char s)
  = (length s
     + length (List.filter (fun c => (c =? BACKSLASH)%N || (c =? QUOTE)%N) s))%nat.
Proof.
  induction s as [|c s IH]; [reflexivity|].
  cbn [flat_map List.filter]. rewrite length_app, IH. unfold escape_char.
  destruct (N.eqb_spec c BACKSLASH) as [->|Hb]; [cbn [orb length]; lia|].
  destruct (N.eqb_spec c QUOTE) as [->|Hq]; cbn [orb length]; lia.
Qed.

(** X8. [festival_escape] works code point by code point: the escape of
    a concatenation is the concatenation of the escapes, the result is
    longer than the input by one for every backslash and every quote,
    and a string is returned as it is exactly when it has neither. *)
Theorem festival_escape_pointwise :
  forall a b : str,
    festival_escape (a ++ b) = festival_escape a ++ festival_escape b
    /\ length (festival_escape a)
       = (length a
          + length (List.filter
                      (fun c => (c =? BACKSLASH)%N || (c =? QUOTE)%N) a))%nat
    /\ (BACKSLASH ∉ a -> QUOTE ∉ a -> festival_escape a = a)
    /\ (festival_escape a = a -> (BACKSLASH ∉ a) /\ (QUOTE ∉ a)).
Proof.
  intros a b. rewrite !festival_escape_chars.
  split; [apply flat_map_app|]. split; [apply length_flat_map_escape|].
  split.
  - intros Hb Hq. induction a as [|c a IH]; [reflexivity|].
    apply not_elem_of_cons in Hb as [Hb Hb'].
    apply not_elem_of_cons in Hq as [Hq Hq'].
    cbn [flat_map]. rewrite IH by assumption. unfold escape_char.
    destruct (N.eqb_spec c BACKSLASH) as [->|_]; [contradiction|].
    destruct (N.eqb_spec c QUOTE) as [->|_]; [contradiction|reflexivity].
  - intros Heq. apply (f_equal length) in Heq.
    rewrite length_flat_map_escape in Heq.
    assert (Hnone : List.filter
                      (fun c => (c =? BACKSLASH)%N || (c =? QUOTE)%N) a = []).
    { destruct (List.filter _ a); [reflexivity|cbn [length] in Heq; lia]. }
    assert (Hall : forall c, c ∈ a -> c <> BACKSLASH /\ c <> QUOTE).
    { intros c Hc. apply list_elem_of_In in Hc.
      destruct ((c =? BACKSLASH)%N || (c =? QUOTE)%N) eqn:E.
      - assert (Hin : In c (List.filter
                              (fun c => (c =? BACKSLASH)%N || (c =? QUOTE)%N) a))
          by (apply filter_In; by split).
        rewrite Hnone in Hin. destruct Hin.
      - apply orb_false_iff in E as [E1 E2].
        apply N.eqb_neq in E1. apply N.eqb_neq in E2. by split. }
    split; intros Hin; destruct (Hall _ Hin); contradiction.
Qed.

Lemma read_escape_char (c : N) (t : str) :
  read_string_literal (escape_char c ++ t)
  = (fun tr : str * str => (c :: tr.1, tr.2)) <$> read_string_literal t.
Proof.
  unfold escape_char.
  destruct (N.eqb_spec c BACKSLASH) as [->|Hb]; [reflexivity|].
  destruct (N.eqb_spec c QUOTE) as [->|Hq]; [reflexivity|].
  cbn [app read_string_literal].
  by rewrite (proj2 (N.eqb_neq _ _) Hq), (proj2 (N.eqb_neq _ _) Hb).
Qed.

Lemma read_escaped (s rest : str) :
  read_string_literal (festival_escape s ++ QUOTE :: rest) = Some (s, rest).
Proof.
  rewrite festival_escape_chars.
  induction s as [|c s IH]; [reflexivity|].
  cbn [flat_map]. rewrite <- app_assoc, read_escape_char, IH. reflexivity.
Qed.

Lemma read_escaped_inj (s s' rest rest' : str) :
  festival_escape s ++ QUOTE :: rest = festival_escape s' ++ QUOTE :: rest' ->
  s = s' /\ rest = rest'.
Proof.
  intros Heq. apply (f_equal read_string_literal) in Heq.
  rewrite !read_escaped in Heq. split; congruence.
Qed.

Lemma format_command_shape (string path : str) :
  format_command string path
  = (u "(voice_cb_cy_llg_diphone)" ++ [LF]
     ++ u "(utt.save.segs (utt.synth (Utterance Text ")
    ++ QUOTE :: string
    ++ QUOTE :: u ")) "
    ++ QUOTE :: path
    ++ QUOTE :: (u ")" ++ [LF] ++ u "(exit)" ++ [LF; LF]).
Proof. unfold format_command. rewrite <- !app_assoc. reflexivity. Qed.

(** X9. In the script built for the engine, the escaped text and the
    escaped path each stand between two quotes, and a reader that ends a
    string literal at the first quote no backslash precedes reads back
    from an escaped string the string itself, whatever it holds and
    whatever follows; so two different pairs of text and path never give
    the same script. *)
Theorem script_literals_read_back :
  forall (string path : str),
    (forall rest,
        read_string_literal (festival_escape string ++ QUOTE :: rest)
        = Some (string, rest))
    /\ (exists before between after,
          forall s p,
            format_command s p
            = before ++ QUOTE :: s ++ QUOTE :: between
                     ++ QUOTE :: p ++ QUOTE :: after)
    /\ (forall string' path',
          format_command (festival_escape string) (festival_escape path)
          = format_command (festival_escape string') (festival_escape path') ->
          string = string' /\ path = path').
Proof.
  intros string path. split; [apply read_escaped|]. split.
  - eexists _, _, _. intros s p. apply format_command_shape.
  - intros string' path' Heq. rewrite !format_command_shape in Heq.
    apply app_inv_head in Heq. apply (f_equal tail) in Heq. cbn [tail] in Heq.
    apply read_escaped_inj in Heq as [<- Heq].
    apply app_inv_head in Heq. apply (f_equal tail) in Heq. cbn [tail] in Heq.
    apply read_escaped_inj in Heq as [<- _].
    split; reflexivity.
Qed.

(** ** White space *)

Lemma lstrip_decomp (s : str) :
  exists sp, Forall (fun c => isspace c = true) sp /\ s = sp ++ lstrip s.
Proof.
  induction s as [|c s (sp & Hsp & IH)]; [by exists []|].
  cbn [lstrip]. destruct (isspace c) eqn:Hc.
  - exists (c :: sp). split; [by constructor|]. cbn [app]. by rewrite <- IH.
  - by exists [].
Qed.

Lemma lstrip_head (s : str) (c : N) :
  head (lstrip s) = Some c -> isspace c = false.
Proof.
  induction s as [|c' s IH]; [discriminate|].
  cbn [lstrip]. destruct (isspace c') eqn:Hc; [exact IH|].
  cbn [hd_error]. by intros [= <-].
Qed.

Lemma last_rev_head {A} (l : list A) : last (rev l) = head l.
Proof. destruct l as [|x l]; [reflexivity|]. cbn [rev]. apply last_snoc. Qed.

Lemma strip_ends (t : str) :
  (forall c, head (strip t) = Some c -> isspace c = false)
  /\ (forall c, last (strip t) = Some c -> isspace c = false).
Proof.
  unfold strip, rstrip. set (a := lstrip t). split.
  - intros c Hc.
    destruct (lstrip_decomp (rev a)) as (sp & _ & Hdec).
    apply (f_equal (@rev N)) in Hdec.
    rewrite rev_involutive, rev_app_distr in Hdec.
    destruct (rev (lstrip (rev a))) as [|c' r]; [discriminate|].
    cbn [hd_error] in Hc. injection Hc as ->.
    apply (lstrip_head t). fold a. by rewrite Hdec.
  - intros c. rewrite last_rev_head. apply lstrip_head.
Qed.

Lemma strip_id (s : str) :
  (forall c, head s = Some c -> isspace c = false) ->
  (forall c, last s = Some c -> isspace c = false) ->
  strip s = s.
Proof.
  intros Hhead Hlast. unfold strip, rstrip.
  rewrite (lstrip_id s) by exact Hhead.
  rewrite lstrip_id; [apply rev_involutive|].
  intros c. rewrite <- last_rev_head, rev_involutive. apply Hlast.
Qed.

Lemma split_ws_aux_no_space (cur s : str) :
  Forall (fun c => isspace c = false) cur ->
  Forall (fun item => item <> [] /\ Forall (fun c => isspace c = false) item)
    (split_ws_aux cur s).
Proof.
  revert cur.
  assert (Hrev : forall (x : N) (cur : str),
            Forall (fun c => isspace c = false) (x :: cur) ->
            rev (x :: cur) <> []
            /\ Forall (fun c => isspace c = false) (rev (x :: cur))).
  { intros x cur Hcur. split; [|by apply List.Forall_rev].
    cbn [rev]. intros Hnil. by apply app_eq_nil in Hnil as [_ Hnil]. }
  induction s as [|c s IH]; intros cur Hcur; cbn [split_ws_aux].
  - destruct cur as [|x cur]; [constructor|].
    constructor; [by apply Hrev|constructor].
  - destruct (isspace c) eqn:Hc.
    + destruct cur as [|x cur]; [by apply IH|].
      constructor; [by apply Hrev|]. apply IH. constructor.
    + apply IH. by constructor.
Qed.

Lemma split_ws_items (s : str) :
  Forall (fun item => item <> [] /\ strip item = item) (split_ws s).
Proof.
  eapply Forall_impl; [apply (split_ws_aux_no_space [] s); constructor|].
  intros item [Hne Hns]. split; [exact Hne|].
  apply strip_id.
  - destruct item as [|c item]; [discriminate|].
    intros c' [= <-]. by inversion Hns.
  - intros c Hc. rewrite Forall_forall in Hns. apply Hns.
    apply last_Some in Hc as [l' ->]. apply elem_of_app. right. by left.
Qed.

Lemma split_ws_aux_nil (cur s : str) :
  split_ws_aux cur s = []
  <-> cur = [] /\ Forall (fun c => isspace c = true) s.
Proof.
  revert cur. induction s as [|c s IH]; intros cur; cbn [split_ws_aux].
  - destruct cur as [|x cur].
    + split; [intros _; split; [reflexivity|constructor]|reflexivity].
    + split; [discriminate|]. intros [Hx _]. discriminate Hx.
  - destruct (isspace c) eqn:Hc.
    + destruct cur as [|x cur].
      * rewrite IH. split.
        -- intros [_ H2]. split; [reflexivity|by constructor].
        -- intros [_ H2]. split; [reflexivity|by inversion H2].
      * split; [discriminate|]. intros [Hx _]. discriminate Hx.
    + rewrite IH. split.
      * intros [Hx _]. discriminate Hx.
      * intros [_ H2]. inversion H2; congruence.
Qed.

(** ** Labels and their IPA *)

Lemma map_items_known (m : gmap str str) (items : list str) (acc : str) :
  Forall (fun item => is_Some (m !! strip item)) items ->
  map_items m items acc
  = Ok (acc ++ concat (List.map (fun item => default [] (m !! strip item)) items)).
Proof.
  intros Hall. revert acc.
  induction Hall as [|item items [ipa Hitem] _ IH]; intros acc.
  - cbn. by rewrite app_nil_r.
  - cbn [map_items List.map concat]. rewrite Hitem. cbn [default].
    rewrite IH. by rewrite <- app_assoc.
Qed.

Lemma mapping_dom (tense_lax labialisation long_schwa : bool) :
  dom (festival_to_ipa_mapping tense_lax labialisation long_schwa)
  = dom (festival_to_ipa_mapping false true true).
Proof.
  destruct tense_lax, labialisation, long_schwa;
    apply (bool_decide_unpack _); vm_compute; exact I.
Qed.

Lemma default_labels :
  dom (festival_to_ipa_mapping false true true)
  = list_to_set (List.map fst default_table_code_points).
Proof. apply (bool_decide_unpack _). vm_compute. exact I. Qed.

Lemma map_items_is_ok (m : gmap str str) (string : str) :
  is_ok (map_items m (split_ws string) []) = true
  <-> Forall (fun label => label ∈ dom m) (split_ws string).
Proof.
  pose proof (split_ws_items string) as Hitems.
  destruct (decide (Forall (fun item => is_Some (m !! strip item))
                      (split_ws string))) as [Hall|Hnot].
  - rewrite map_items_known by exact Hall. cbn [is_ok].
    split; [intros _|reflexivity].
    rewrite Forall_forall in Hall, Hitems. apply Forall_forall.
    intros item Hin. apply elem_of_dom.
    specialize (Hall item Hin). destruct (Hitems item Hin) as [_ Hs].
    by rewrite Hs in Hall.
  - apply not_Forall_Exists in Hnot; [|intros x; apply _].
    assert (HE : Exists (fun item => m !! strip item = None) (split_ws string)).
    { eapply Exists_impl; [exact Hnot|]. intros item Hi.
      by apply eq_None_not_Some. }
    destruct (map_items_unknown m _ [] HE) as (item & Hin & Hnone & ->).
    cbn [is_ok]. split; [discriminate|]. intros Hall. exfalso.
    rewrite Forall_forall in Hall, Hitems.
    specialize (Hall item Hin). destruct (Hitems item Hin) as [_ Hs].
    rewrite Hs in Hnone. apply elem_of_dom in Hall as [v Hv]. congruence.
Qed.

Lemma is_ok_bind_Ok {A B} (r : result A) (f : A -> B) :
  is_ok (bind r (fun a => Ok (f a))) = is_ok r.
Proof. by destruct r. Qed.

Lemma map_festival_to_ipa_is_ok (string : str) (a b c : bool) :
  is_ok (map_festival_to_ipa string a b c) = true
  <-> Forall (fun label => label ∈ dom (festival_to_ipa_mapping false true true))
        (split_ws string).
Proof.
  unfold map_festival_to_ipa. rewrite is_ok_bind_Ok, map_items_is_ok.
  by rewrite mapping_dom.
Qed.

(** X10. What [map_festival_to_ipa] returns never starts or ends with
    white space: silences at either end of the segments leave no
    trace. *)
Theorem map_festival_to_ipa_is_stripped :
  forall (string : str) (tense_lax labialisation long_schwa : bool)
         (ipa : str),
    map_festival_to_ipa string tense_lax labialisation long_schwa = Ok ipa ->
    (forall c, head ipa = Some c -> isspace c = false)
    /\ (forall c, last ipa = Some c -> isspace c = false)
    /\ strip ipa = ipa.
Proof.
  intros string a b c ipa. unfold map_festival_to_ipa.
  destruct (map_items _ _ _) as [t| |]; cbn [bind]; [|discriminate..].
  intros [= <-]. destruct (strip_ends t) as [Hh Hl].
  split; [exact Hh|]. split; [exact Hl|]. by apply strip_id.
Qed.

(** The instance of X10 for silence, k, a, silence. *)
Lemma map_festival_to_ipa_is_stripped_witness :
  map_festival_to_ipa (u "sil k a sil") false true true = Ok (u "ka")
  /\ strip (u "ka") = u "ka".
Proof.
  assert (Hrun : map_festival_to_ipa (u "sil k a sil") false true true
                 = Ok (u "ka")) by (vm_compute; reflexivity).
  split; [exact Hrun|].
  apply (map_festival_to_ipa_is_stripped _ _ _ _ _ Hrun).
Defined.

(** X11. Whether [map_festival_to_ipa] accepts a string does not depend
    on its options: it returns a string exactly when every label of
    [string.split()] is one of the 65 labels of the default table, and
    raises otherwise. *)
Theorem map_festival_to_ipa_accepts :
  forall (string : str) (tense_lax labialisation long_schwa : bool),
    (is_ok (map_festival_to_ipa string tense_lax labialisation long_schwa)
     = true
     <-> Forall (fun label => label ∈ List.map fst default_table_code_points)
           (split_ws string))
    /\ forall tense_lax' labialisation' long_schwa',
         is_ok (map_festival_to_ipa string tense_lax labialisation long_schwa)
         = is_ok (map_festival_to_ipa string tense_lax' labialisation'
                    long_schwa').
Proof.
  intros string a b c. split.
  - rewrite map_festival_to_ipa_is_ok, default_labels.
    apply Forall_iff. intros label. apply elem_of_list_to_set.
  - intros a' b' c'.
    pose proof (map_festival_to_ipa_is_ok string a b c) as H1.
    pose proof (map_festival_to_ipa_is_ok string a' b' c') as H2.
    destruct (is_ok (map_festival_to_ipa string a b c)),
             (is_ok (map_festival_to_ipa string a' b' c')); try reflexivity.
    + symmetry. apply H2, H1. reflexivity.
    + apply H1, H2. reflexivity.
Qed.

(** X12. On a string all of whose labels are known, the result is the
    IPA of the labels put end to end, in order and without separator,
    then stripped; the white space between the labels does not matter. *)
Theorem map_festival_to_ipa_value :
  forall (string : str) (tense_lax labialisation long_schwa : bool),
    Forall (fun label =>
              is_Some (festival_to_ipa_mapping tense_lax labialisation
                         long_schwa !! label)) (split_ws string) ->
    map_festival_to_ipa string tense_lax labialisation long_schwa
    = Ok (strip (concat
                   (List.map
                      (fun label =>
                         default [] (festival_to_ipa_mapping tense_lax
                                       labialisation long_schwa !! label))
                      (split_ws string))))
    /\ forall string',
         split_ws string' = split_ws string ->
         map_festival_to_ipa string' tense_lax labialisation long_schwa
         = map_festival_to_ipa string tense_lax labialisation long_schwa.
Proof.
  intros string a b c Hall. split.
  - unfold map_festival_to_ipa.
    pose proof (split_ws_items string) as Hitems.
    rewrite map_items_known.
    + cbn [bind app]. do 3 f_equal. apply List.map_ext_in.
      intros item Hin. rewrite Forall_forall in Hitems.
      destruct (Hitems item) as [_ ->]; [by apply list_elem_of_In|reflexivity].
    + rewrite Forall_forall in Hall, Hitems. apply Forall_forall.
      intros item Hin. destruct (Hitems item Hin) as [_ ->]. by apply Hall.
  - intros string' Heq. unfold map_festival_to_ipa. by rewrite Heq.
Qed.

(** The instance of X12 for the labels of [caffi]. *)
Lemma map_festival_to_ipa_value_witness :
  Forall (fun label =>
            is_Some (festival_to_ipa_mapping false false true !! label))
    (split_ws (u "# k a f i"))
  /\ map_festival_to_ipa (u "# k a f i") false false true = Ok (u "kafi").
Proof.
  assert (Hall : Forall (fun label =>
            is_Some (festival_to_ipa_mapping false false true !! label))
    (split_ws (u "# k a f i"))).
  { apply (bool_decide_unpack _). vm_compute. exact I. }
  split; [exact Hall|].
  destruct (map_festival_to_ipa_value (u "# k a f i") false false true Hall)
    as [-> _].
  vm_compute. reflexivity.
Defined.

Lemma overlay_other (overlay : list (str * str)) (table : gmap str str)
    (label : str) :
  label ∉ List.map fst overlay ->
  update table (list_to_map overlay) !! label = table !! label.
Proof.
  intros Hnot. unfold update. rewrite lookup_union.
  rewrite (not_elem_of_list_to_map_1 overlay label) by exact Hnot.
  by destruct (table !! label).
Qed.

(** X13. The options change the table only at the labels of their
    overlay: switching [encode_labialisation] changes the IPA of no label
    but [lw], [nw] and [rw], and switching [encode_tense_lax] that of no
    label but [i], [e], [aa], [o] and [u]. *)
Theorem options_change_only_their_labels :
  forall (label : str) (tense_lax labialisation long_schwa : bool),
    (label ∉ [u "lw"; u "nw"; u "rw"] ->
     festival_to_ipa_mapping tense_lax false long_schwa !! label
     = festival_to_ipa_mapping tense_lax true long_schwa !! label)
    /\ (label ∉ [u "i"; u "e"; u "aa"; u "o"; u "u"] ->
        festival_to_ipa_mapping true labialisation long_schwa !! label
        = festival_to_ipa_mapping false labialisation long_schwa !! label).
Proof.
  intros label a b c. split.
  - intros Hnot. unfold festival_to_ipa_mapping. cbn [negb].
    unfold festival_labialisation_augmentation.
    by rewrite overlay_other.
  - intros Hnot. unfold festival_to_ipa_mapping.
    assert (Htl : update
                    (update festival_to_ipa_mapping_0 festival_to_ipa_fixes)
                    festival_tense_lax_augmentation !! label
                  = update festival_to_ipa_mapping_0 festival_to_ipa_fixes
                      !! label).
    { destruct (decide (label = u "a")) as [->|Ha].
      - vm_compute. reflexivity.
      - unfold festival_tense_lax_augmentation. apply overlay_other.
        cbn [List.map fst]. intros Hin.
        apply elem_of_cons in Hin as [->|Hin];
          [apply Hnot, list_elem_of_here|].
        apply elem_of_cons in Hin as [->|Hin];
          [apply Hnot, list_elem_of_further, list_elem_of_here|].
        apply elem_of_cons in Hin as [->|Hin]; [by apply Ha|].
        apply Hnot. do 2 apply list_elem_of_further. exact Hin. }
    destruct b; cbn [negb].
    + exact Htl.
    + unfold festival_labialisation_augmentation, update at 1 4.
      rewrite !lookup_union. by rewrite Htl.
Qed.

(** The instance of X13 for the label [k]. *)
Lemma options_change_only_their_labels_witness :
  (u "k" ∉ [u "lw"; u "nw"; u "rw"])
  /\ (u "k" ∉ [u "i"; u "e"; u "aa"; u "o"; u "u"])
  /\ festival_to_ipa_mapping true false true !! u "k"
     = festival_to_ipa_mapping false true true !! u "k".
Proof.
  assert (H1 : u "k" ∉ [u "lw"; u "nw"; u "rw"])
    by (apply (bool_decide_unpack _); vm_compute; exact I).
  assert (H2 : u "k" ∉ [u "i"; u "e"; u "aa"; u "o"; u "u"])
    by (apply (bool_decide_unpack _); vm_compute; exact I).
  split; [exact H1|]. split; [exact H2|].
  destruct (options_change_only_their_labels (u "k") true false true)
    as [Hlab _].
  destruct (options_change_only_their_labels (u "k") false true true)
    as [_ Htl].
  rewrite (Hlab H1). exact (Htl H2).
Defined.

(** ** The segments file *)

(** X14. The loop that takes the last field of every line of the
    segments file fails on a blank line: if a line is empty or white
    space only, [line.split()[-1]] raises [IndexError]; otherwise the
    result is the last fields, each followed by a space. *)
Theorem last_fields_blank_line :
  forall (output : list str) (transcription : str),
    (Exists (fun line => Forall (fun c => isspace c = true) line) output ->
     last_fields output transcription
     = Raise (IndexError (u "list index out of range")))
    /\ (Forall (fun line => Exists (fun c => isspace c = false) line) output ->
        exists fields,
          List.map (fun line => last (split_ws line)) output
          = List.map Some fields
          /\ last_fields output transcription
             = Ok (transcription
                   ++ concat (List.map (fun field => field ++ u " ") fields))).
Proof.
  intros output acc. split.
  - intros HE. revert acc.
    induction output as [|line output IH]; intros acc; [inversion HE|].
    cbn [last_fields]. unfold last_item.
    destruct (last (split_ws line)) as [field|] eqn:Hlast.
    + cbn [bind]. apply IH. apply Exists_cons in HE as [Hblank|HE]; [|exact HE].
      exfalso. assert (Hnil : split_ws line = [])
        by (apply split_ws_aux_nil; by split).
      by rewrite Hnil in Hlast.
    + reflexivity.
  - intros Hall.
    assert (Hfields : exists fields,
               List.map (fun line => last (split_ws line)) output
               = List.map Some fields).
    { induction Hall as [|line output Hline _ [fields IH]]; [by exists []|].
      destruct (last (split_ws line)) as [field|] eqn:Hlast.
      - exists (field :: fields). cbn [List.map]. by rewrite Hlast, IH.
      - exfalso. apply last_None in Hlast.
        apply split_ws_aux_nil in Hlast as [_ Hblank].
        apply Exists_exists in Hline as (c & Hc & Hns).
        rewrite Forall_forall in Hblank. specialize (Hblank c Hc). congruence. }
    destruct Hfields as [fields Hfields]. exists fields.
    split; [exact Hfields|]. by apply last_fields_run.
Qed.

Example last_fields_example :
  last_fields [u "0.05 100 k" ++ [LF]; [LF]; u "0.10 100 a" ++ [LF]] []
  = Raise (IndexError (u "list index out of range"))
  /\ last_fields [u "0.05 100 k" ++ [LF]; u "0.10 100 a" ++ [LF]] []
     = Ok (u "k a ").
Proof. split; reflexivity. Qed.

Section temporary_files.
Context {H : Host}.

Lemma length_alphabet : length ascii_uppercase_digits = 36%nat.
Proof. reflexivity. Qed.

Lemma random_string_draws (n : nat) (w : world) :
  random_string n w
  = (Ok (List.map (fun i =>
                     nth (system_random (draws w + i)
                          mod length ascii_uppercase_digits)%nat
                       ascii_uppercase_digits 0%N) (seq 0 n)),
     World (fs w) (draws w + n) (trace w)).
Proof.
  revert w. induction n as [|n IH]; intros w.
  - cbn [random_string seq List.map]. unfold ret. destruct w as [f d t].
    cbn [fs draws trace]. rewrite Nat.add_0_r. reflexivity.
  - cbn [random_string]. unfold bindM at 1, choice.
    unfold bindM at 1. rewrite IH. unfold ret. cbn [fs draws trace].
    cbn [seq List.map]. rewrite <- seq_shift, List.map_map.
    rewrite Nat.add_0_r.
    replace (S (draws w) + n)%nat with (draws w + S n)%nat by lia.
    rewrite (List.map_ext
               (fun i => nth (system_random (S (draws w) + i)
                              mod length ascii_uppercase_digits)%nat
                           ascii_uppercase_digits 0%N)
               (fun i => nth (system_random (draws w + S i)
                              mod length ascii_uppercase_digits)%nat
                           ascii_uppercase_digits 0%N)).
    + reflexivity.
    + intros i. rewrite <- Nat.add_succ_comm. reflexivity.
Qed.
Lemma random_string_5 (w : world) :
  random_string 5 w
  = (Ok (random_name (draws w)), World (fs w) (draws w + 5) (trace w)).
Proof. unfold random_name. apply random_string_draws. Qed.

Lemma random_name_alnum (d : nat) :
  length (random_name d) = 5%nat
  /\ Forall (fun c => c ∈ ascii_uppercase_digits) (random_name d).
Proof.
  unfold random_name. split; [by rewrite length_map, length_seq|].
  apply List.Forall_forall. intros c Hc. apply in_map_iff in Hc as (i & <- & _).
  apply list_elem_of_In, nth_In. rewrite length_alphabet.
  apply Nat.mod_upper_bound. lia.
Qed.

(** X15. [random_string(length)] takes [length] draws from the system
    random generator and returns as many code points, each an upper-case
    letter or a digit; it touches neither the files nor the process. *)
Theorem random_string_is_alphanumeric :
  forall (length : nat) (w : world),
    exists name,
      random_string length w
      = (Ok name, World (fs w) (draws w + length) (trace w))
      /\ List.length name = length
      /\ Forall (fun c => c ∈ ascii_uppercase_digits) name.
Proof.
  intros n w. eexists. split; [apply random_string_draws|].
  split; [by rewrite length_map, length_seq|].
  apply List.Forall_forall. intros c Hc. apply in_map_iff in Hc as (i & <- & _).
  apply list_elem_of_In, nth_In. rewrite length_alphabet.
  apply Nat.mod_upper_bound. lia.
Qed.

Lemma TempFile_init_step (fuel : nat) (pre suf : str) (w : world) :
  TempFile_init (S fuel) pre suf w
  = if bool_decide (is_Some (fs w !! temp_path pre suf (draws w)))
    then TempFile_init fuel pre suf (World (fs w) (draws w + 5) (trace w))
    else (Ok (mkTempFile false pre suf gettempdir (random_name (draws w))
                (pre ++ random_name (draws w) ++ suf)
                (temp_path pre suf (draws w))),
          World (<[temp_path pre suf (draws w) := []]> (fs w))
            (draws w + 5) (trace w)).
Proof.
  cbn [TempFile_init]. unfold bindM at 1. rewrite random_string_5.
  unfold bindM at 1, isfile. cbn [fs]. unfold temp_path.
  case_bool_decide; reflexivity.
Qed.

(** X16. A [TempFile] that has been made never stands for a file that
    was there before: its path was free, now holds an empty file, and no
    other file has changed.  The path is the temporary directory, the
    separator, the prefix, five upper-case letters or digits and the
    suffix. *)
Theorem TempFile_init_makes_a_new_file :
  forall (fuel : nat) (pre suf : str) (w w1 : world) (tempf : TempFile),
    TempFile_init fuel pre suf w = (Ok tempf, w1) ->
    destroyed tempf = false
    /\ get_filename tempf = pre ++ randomstring tempf ++ suf
    /\ get_path tempf = gettempdir ++ path_sep ++ get_filename tempf
    /\ length (randomstring tempf) = 5%nat
    /\ Forall (fun c => c ∈ ascii_uppercase_digits) (randomstring tempf)
    /\ fs w !! get_path tempf = None
    /\ fs w1 !! get_path tempf = Some []
    /\ (forall path, path <> get_path tempf -> fs w1 !! path = fs w !! path)
    /\ trace w1 = trace w.
Proof.
  intros fuel pre suf. induction fuel as [|fuel IH]; intros w w1 tempf.
  { cbn [TempFile_init]. unfold lift. intros Hrun. discriminate Hrun. }
  rewrite TempFile_init_step. case_bool_decide as Htaken.
  - intros Hrun. apply IH in Hrun. exact Hrun.
  - intros Hrun. injection Hrun as <- <-.
    unfold get_filename, get_path.
    cbn [destroyed filename filepath randomstring fs trace].
    destruct (random_name_alnum (draws w)) as [Hlen Hall].
    split; [reflexivity|]. split; [reflexivity|]. split; [reflexivity|].
    split; [exact Hlen|]. split; [exact Hall|].
    split; [by apply eq_None_not_Some|].
    split; [apply lookup_insert_eq|].
    split; [|reflexivity].
    intros path Hne. by apply lookup_insert_ne.
Qed.

Lemma TempFile_init_io_step {P : Permissions} (fuel : nat) (pre suf : str)
    (w : world) :
  TempFile_init_io (S fuel) pre suf w
  = match fs w !! temp_path pre suf (draws w),
          open_w_error (temp_path pre suf (draws w)) with
    | None, None =>
      (Ok (mkTempFile false pre suf gettempdir (random_name (draws w))
             (pre ++ random_name (draws w) ++ suf)
             (temp_path pre suf (draws w))),
       World (<[temp_path pre suf (draws w) := []]> (fs w))
         (draws w + 5) (trace w))
    | _, _ =>
      TempFile_init_io fuel pre suf (World (fs w) (draws w + 5) (trace w))
    end.
Proof.
  cbn [TempFile_init_io]. unfold bindM at 1. rewrite random_string_5.
  unfold bindM at 1, isfile. cbn [fs]. unfold temp_path.
  set (path := gettempdir ++ path_sep ++ pre ++ random_name (draws w) ++ suf).
  destruct (fs w !! path) as [content|] eqn:Hfile.
  - rewrite bool_decide_eq_true_2 by (by eexists).
    destruct (open_w_error path); reflexivity.
  - rewrite bool_decide_eq_false_2 by (intros [? ?]; discriminate).
    unfold open_w. destruct (open_w_error path) as [msg|]; reflexivity.
Qed.

(** [TempFile_init] is [TempFile_init_io] where every file can be
    opened. *)
Lemma TempFile_init_io_all_writable (fuel : nat) (pre suf : str) (w : world) :
  @TempFile_init_io H all_writable fuel pre suf w = TempFile_init fuel pre suf w.
Proof.
  revert w. induction fuel as [|fuel IH]; intros w; [reflexivity|].
  rewrite TempFile_init_io_step, TempFile_init_step.
  cbn [open_w_error all_writable].
  destruct (fs w !! temp_path pre suf (draws w)) as [content|] eqn:Hfile.
  - rewrite bool_decide_eq_true_2 by (by eexists). apply IH.
  - rewrite bool_decide_eq_false_2 by (intros [? ?]; discriminate).
    reflexivity.
Qed.

(** X17. [TempFile] tries one random name after the other until one is
    free and its file can be opened: if each of the first [k] names
    drawn is taken or cannot be opened for writing, and the next is free
    and can be opened, it makes the file of that name, having taken
    [5 * (k + 1)] draws and changed nothing else; if this holds of the
    names drawn in all the rounds it is given, it is still looking. *)
Theorem TempFile_init_io_skips_names :
  forall (P : Permissions) (fuel k : nat) (pre suf : str) (w : world),
    (forall j, (j < k)%nat ->
       is_Some (fs w !! temp_path pre suf (draws w + 5 * j))
       \/ is_Some (open_w_error (temp_path pre suf (draws w + 5 * j)))) ->
    ((k < fuel)%nat ->
     fs w !! temp_path pre suf (draws w + 5 * k) = None ->
     open_w_error (temp_path pre suf (draws w + 5 * k)) = None ->
     exists tempf,
       TempFile_init_io fuel pre suf w
       = (Ok tempf,
          World (<[temp_path pre suf (draws w + 5 * k) := []]> (fs w))
            (draws w + 5 * (k + 1)) (trace w))
       /\ get_path tempf = temp_path pre suf (draws w + 5 * k))
    /\ ((fuel <= k)%nat ->
        TempFile_init_io fuel pre suf w
        = (Diverge, World (fs w) (draws w + 5 * fuel) (trace w))).
Proof.
  intros P fuel k pre suf. revert k.
  induction fuel as [|fuel IH]; intros k w Hblocked.
  - split; [lia|]. intros _. cbn [TempFile_init_io]. unfold lift.
    destruct w as [f d t]. cbn [fs draws trace].
    replace (d + 5 * 0)%nat with d by lia. reflexivity.
  - rewrite TempFile_init_io_step. destruct k as [|k].
    + split; [|lia]. intros _.
      replace (draws w + 5 * 0)%nat with (draws w) by lia.
      replace (draws w + 5 * (0 + 1))%nat with (draws w + 5)%nat by lia.
      intros Hfree Hopen. rewrite Hfree, Hopen.
      eexists. split; reflexivity.
    + pose proof (Hblocked 0%nat ltac:(lia)) as H0.
      replace (draws w + 5 * 0)%nat with (draws w) in H0 by lia.
      set (w' := World (fs w) (draws w + 5) (trace w)).
      assert (Hnext :
        match fs w !! temp_path pre suf (draws w),
              open_w_error (temp_path pre suf (draws w)) with
        | None, None =>
          (Ok (mkTempFile false pre suf gettempdir (random_name (draws w))
                 (pre ++ random_name (draws w) ++ suf)
                 (temp_path pre suf (draws w))),
           World (<[temp_path pre suf (draws w) := []]> (fs w))
             (draws w + 5) (trace w))
        | _, _ => TempFile_init_io fuel pre suf w'
        end = TempFile_init_io fuel pre suf w').
      { destruct H0 as [[c Hc]|[m Hm]].
        - rewrite Hc. reflexivity.
        - rewrite Hm. destruct (fs w !! temp_path pre suf (draws w));
            reflexivity. }
      rewrite Hnext.
      assert (Hd : forall j, (draws w' + 5 * j)%nat = (draws w + 5 * S j)%nat).
      { intros j. cbn [draws w']. lia. }
      assert (Hblocked' : forall j, (j < k)%nat ->
                is_Some (fs w' !! temp_path pre suf (draws w' + 5 * j))
                \/ is_Some (open_w_error
                              (temp_path pre suf (draws w' + 5 * j)))).
      { intros j Hj. rewrite Hd. cbn [fs w']. apply Hblocked. lia. }
      destruct (IH k w' Hblocked') as [Hfound Hnot]. split.
      * intros Hk Hfree Hopen.
        destruct Hfound as (tempf & Hrun & Hpath); [lia| | |].
        { rewrite Hd. exact Hfree. }
        { rewrite Hd. exact Hopen. }
        exists tempf. rewrite Hrun, Hpath, !Hd. cbn [fs trace w'].
        replace (draws w + 5 * S (k + 1))%nat
          with (draws w + 5 * (S k + 1))%nat by lia.
        split; reflexivity.
      * intros Hk. rewrite Hnot by lia. rewrite Hd. cbn [fs trace w'].
        reflexivity.
Qed.

End temporary_files.

(** The instance of X16 on the sample host. *)
Lemma TempFile_init_makes_a_new_file_witness :
  @TempFile_init sample.host 1 (u "festival-") (u ".segs") sample.empty_world
  = (Ok sample.tempfile, sample.world_with_tempfile)
  /\ fs sample.empty_world !! get_path sample.tempfile = None
  /\ fs sample.world_with_tempfile !! get_path sample.tempfile = Some [].
Proof.
  assert (Hrun : @TempFile_init sample.host 1 (u "festival-") (u ".segs")
                   sample.empty_world
                 = (Ok sample.tempfile, sample.world_with_tempfile))
    by (vm_compute; reflexivity).
  split; [exact Hrun|].
  destruct (TempFile_init_makes_a_new_file (H := sample.host) _ _ _ _ _ _ Hrun)
    as (_ & _ & _ & _ & _ & Hfree & Hnew & _).
  split; [exact Hfree|exact Hnew].
Defined.

(** The instance of X17 on the sample host, when the file of the first
    name drawn cannot be opened: the file made is the one of the second
    name. *)
Lemma TempFile_init_io_skips_names_witness :
  (forall j, (j < 1)%nat ->
     is_Some (fs sample.empty_world
              !! @temp_path sample.host (u "festival-") (u ".segs")
                   (draws sample.empty_world + 5 * j))
     \/ is_Some (@open_w_error sample.refusing
                   (@temp_path sample.host (u "festival-") (u ".segs")
                      (draws sample.empty_world + 5 * j))))
  /\ exists tempf,
       @TempFile_init_io sample.host sample.refusing 2 (u "festival-")
         (u ".segs") sample.empty_world
       = (Ok tempf, World {[ u "/tmp/festival-FGHIJ.segs" := [] ]} 10 [])
       /\ get_path tempf = u "/tmp/festival-FGHIJ.segs".
Proof.
  assert (Hblocked : forall j, (j < 1)%nat ->
     is_Some (fs sample.empty_world
              !! @temp_path sample.host (u "festival-") (u ".segs")
                   (draws sample.empty_world + 5 * j))
     \/ is_Some (@open_w_error sample.refusing
                   (@temp_path sample.host (u "festival-") (u ".segs")
                      (draws sample.empty_world + 5 * j)))).
  { intros j Hj. replace j with 0%nat by lia. right. vm_compute. by eexists. }
  split; [exact Hblocked|].
  destruct (TempFile_init_io_skips_names (H := sample.host) sample.refusing
              2 1 (u "festival-") (u ".segs") sample.empty_world Hblocked)
    as [Hfound _].
  destruct Hfound as (tempf & Hrun & Hpath);
    [lia|vm_compute; reflexivity|vm_compute; reflexivity|].
  exists tempf. rewrite Hrun, Hpath. split; vm_compute; reflexivity.
Defined.

(** What a successful [TempFile(prefix, suffix)] has done, also where
    some files cannot be opened. *)
Lemma TempFile_init_io_Ok {H : Host} {P : Permissions} (fuel : nat)
    (pre suf : str) (w w1 : world) tempf :
  TempFile_init_io fuel pre suf w = (Ok tempf, w1) ->
  destroyed tempf = false /\ fs w1 !! filepath tempf = Some [].
Proof.
  revert w. induction fuel as [|fuel IH]; intros w.
  { cbn [TempFile_init_io]. unfold lift. intros Hrun. discriminate Hrun. }
  rewrite TempFile_init_io_step.
  destruct (fs w !! temp_path pre suf (draws w));
    [intros Hrun; by apply IH in Hrun|].
  destruct (open_w_error (temp_path pre suf (draws w)));
    [intros Hrun; by apply IH in Hrun|].
  intros Hrun. injection Hrun as <- <-. cbn [destroyed filepath fs].
  split; [reflexivity|apply lookup_insert_eq].
Qed.

(** [with_TempFile] is [with_TempFile_obj] where every file can be
    opened and the body leaves the object as it is. *)
Lemma with_TempFile_obj_leaves_object {H : Host} {A} (fuel : nat)
    (pre suf : str) (body : TempFile -> M A) (w : world) :
  @with_TempFile_obj H all_writable A fuel pre suf (leaves_object body) w
  = with_TempFile fuel pre suf body w.
Proof.
  unfold with_TempFile_obj, with_TempFile, bindM.
  rewrite TempFile_init_io_all_writable.
  destruct (TempFile_init fuel pre suf w) as [[tempf|e|] w1]; [|reflexivity..].
  unfold leaves_object. destruct (body tempf w1) as [[a|e|] w2]; reflexivity.
Qed.

(** X18. [with TempFile(...) as tempf] calls [destroy], on every way out
    of its body, on the object as the body has left it.  If the body has
    destroyed the object itself, nothing more is removed and the outcome
    of the body, value or exception, is kept.  If it has not and the
    file is there, the file is removed and the outcome is kept.  If it
    has not and the file is gone, the [FileNotFoundError] of [os.unlink]
    takes the place of the outcome, even of a value.  A body that is
    [tempf.destroy()] and no more leaves the block without an error and
    without the file. *)
Theorem with_TempFile_obj_exit :
  forall (H : Host) (P : Permissions) (A : Type) (fuel : nat) (pre suf : str)
         (body : TempFile -> world -> result A * TempFile * world)
         (w w1 w2 : world) (tempf self : TempFile) (outcome : result A),
    TempFile_init_io fuel pre suf w = (Ok tempf, w1) ->
    body tempf w1 = (outcome, self, w2) ->
    outcome <> Diverge ->
    (destroyed self = true ->
     with_TempFile_obj fuel pre suf body w = (outcome, w2))
    /\ (destroyed self = false -> is_Some (fs w2 !! get_path self) ->
        with_TempFile_obj fuel pre suf body w
        = (outcome, set_fs (delete (get_path self) (fs w2)) w2))
    /\ (destroyed self = false -> fs w2 !! get_path self = None ->
        exists e,
          with_TempFile_obj fuel pre suf body w = (Raise e, w2)
          /\ raised_exn e = FileNotFoundError (get_path self))
    /\ with_TempFile_obj fuel pre suf calls_destroy w
       = (Ok tt, set_fs (delete (get_path tempf) (fs w1)) w1).
Proof.
  intros H P A fuel pre suf body w w1 w2 tempf self outcome Hinit Hbody Hout.
  destruct (TempFile_init_io_Ok _ _ _ _ _ _ Hinit) as [Hd Hmade].
  unfold get_path. split; [|split; [|split]].
  - intros Hdone. unfold with_TempFile_obj, bindM at 1. rewrite Hinit, Hbody.
    destruct outcome as [a|e|]; [| |contradiction];
      unfold destroy; rewrite Hdone; reflexivity.
  - intros Hnot [content Hfile].
    unfold with_TempFile_obj, bindM at 1. rewrite Hinit, Hbody.
    destruct outcome as [a|e|]; [| |contradiction];
      unfold destroy, bindM, unlink; rewrite Hnot; cbn [negb];
      rewrite Hfile; reflexivity.
  - intros Hnot Hgone.
    unfold with_TempFile_obj, bindM at 1. rewrite Hinit, Hbody.
    destruct outcome as [a|e|]; [| |contradiction];
      unfold destroy, bindM, unlink; rewrite Hnot; cbn [negb];
      rewrite Hgone; eexists; split; reflexivity.
  - unfold with_TempFile_obj, bindM at 1. rewrite Hinit.
    unfold calls_destroy, destroy at 1, bindM, unlink.
    rewrite Hd. cbn [negb]. rewrite Hmade. unfold ret.
    unfold destroy. cbn [destroyed negb]. reflexivity.
Qed.

(** The instance of X18 for a body that destroys the object and then
    raises: the exception of the body leaves the block, and nothing is
    removed twice. *)
Lemma with_TempFile_obj_exit_witness :
  @with_TempFile_obj sample.host all_writable str 1 (u "festival-")
    (u ".segs")
    (fun tempf w =>
       match calls_destroy tempf w with
       | (Ok _, self, w') => (Raise (Exception (u "boom")), self, w')
       | (Raise e, self, w') => (Raise e, self, w')
       | (Diverge, self, w') => (Diverge, self, w')
       end)
    sample.empty_world
  = (Raise (Exception (u "boom")), World ∅ 5 []).
Proof.
  destruct (with_TempFile_obj_exit sample.host all_writable str 1
              (u "festival-") (u ".segs")
              (fun tempf w =>
                 match calls_destroy tempf w with
                 | (Ok _, self, w') => (Raise (Exception (u "boom")), self, w')
                 | (Raise e, self, w') => (Raise e, self, w')
                 | (Diverge, self, w') => (Diverge, self, w')
                 end)
              sample.empty_world sample.world_with_tempfile (World ∅ 5 [])
              sample.tempfile
              (mkTempFile true (u "festival-") (u ".segs") (u "/tmp")
                 (u "ABCDE") (u "festival-ABCDE.segs")
                 (u "/tmp/festival-ABCDE.segs"))
              (Raise (Exception (u "boom"))))
    as [Hdone _].
  - vm_compute; reflexivity.
  - vm_compute; reflexivity.
  - discriminate.
  - apply Hdone. reflexivity.
Defined.

(** ** The round trip to the engine *)

Section round_trip.
Context {U : Unicodedata} {H : Host} {F : Festival}.

(** X19. When Festival cannot be started or fed, [transcribe_string]
    raises the exception of the launch, the temporary file it had made
    is removed again, and nothing is polled or killed. *)
Theorem transcribe_string_launch_failure :
  forall (fuel : nat) (string s : str) (timeout : Q)
         (w w1 : world) (tempf : TempFile) (e : exn),
    map_utf8_to_festival string = Ok s ->
    TempFile_init fuel (u "festival-") (u ".segs") w = (Ok tempf, w1) ->
    festival_start
      (format_command (festival_escape s) (festival_escape (get_path tempf)))
    = Some e ->
    transcribe_string fuel string timeout w
    = (Raise e, World (fs w) (draws w1) (trace w)).
Proof.
  intros fuel string s timeout w w1 tempf e Hs Hinit Hstart.
  destruct (TempFile_init_Ok _ _ _ _ _ _ Hinit) as (Hd & Hfresh & Hfs & Htr).
  unfold transcribe_string. unfold bindM at 1, lift at 1. rewrite Hs.
  unfold bindM at 1. unfold with_TempFile. unfold bindM at 1. rewrite Hinit.
  unfold bindM at 1, popen. rewrite Hstart. unfold raise.
  unfold destroy, bindM, unlink. rewrite Hd. cbn [negb].
  rewrite Hfs, lookup_insert_eq. unfold ret, set_fs. cbn [fs draws trace].
  rewrite delete_insert_id by exact Hfresh. rewrite Htr. reflexivity.
Qed.

Lemma poll_loop_deadline (command : str) (timeout : Q) (L : nat) :
  (forall n, (n <= L)%nat -> festival_poll command n = None) ->
  forall (d i : nat) (w : world),
    (i + d = L)%nat ->
    poll_loop command timeout (Z.of_nat L) (List.map Z.of_nat (seq i (S d))) w
    = (Raise (Exception (timeout_message timeout command)),
       World (fs w) (draws w)
         (trace w ++ concat (replicate d [Poll; Sleep (1 # 10)])
          ++ [Poll; Kill;
              Print (u "Festivl timed out after "
                     ++ fmt_d (int_of_Q (inject_Z (Z.of_nat L) * (1 # 10)))
                     ++ u "s")])).
Proof.
  intros Hrunning. induction d as [|d IH]; intros i w Hi.
  - cbn [seq List.map poll_loop]. rewrite Nat2Z.id, Hrunning by lia.
    destruct (Z.ltb_spec (Z.of_nat i) (Z.of_nat L)) as [|_]; [lia|].
    unfold bindM, do_event, raise, emit. cbn [fs draws trace replicate concat].
    rewrite <- !app_assoc. reflexivity.
  - change (seq i (S (S d))) with (i :: seq (S i) (S d)).
    rewrite List.map_cons.
    remember (List.map Z.of_nat (seq (S i) (S d))) as rest eqn:Hrest.
    cbn [poll_loop]. rewrite Nat2Z.id, Hrunning by lia. subst rest.
    destruct (Z.ltb_spec (Z.of_nat i) (Z.of_nat L)) as [_|]; [|lia].
    unfold bindM at 1, do_event at 1. unfold bindM at 1, do_event at 1.
    rewrite (IH (S i)) by lia. unfold emit.
    cbn [fs draws trace replicate concat].
    rewrite <- !app_assoc. reflexivity.
Qed.

(** X20. The time limit looks at a fixed number of polls only.  For a
    limit of a whole number of seconds, in the range where binary64
    holds ten times the limit exactly, these are the first
    [int(timeout/0.1) + 1], ten times the limit plus one: an engine that
    is still running at each of them is killed and reported as timed
    out, whatever it would have done afterwards. *)
Theorem transcribe_string_deadline :
  forall (fuel : nat) (string s : str) (seconds : Z)
         (w w1 : world) (tempf : TempFile),
    0 <= seconds ->
    10 * seconds < 2 ^ 53 ->
    map_utf8_to_festival string = Ok s ->
    TempFile_init fuel (u "festival-") (u ".segs") w = (Ok tempf, w1) ->
    let timeout := inject_Z seconds in
    let command :=
      format_command (festival_escape s) (festival_escape (get_path tempf)) in
    let loops := Z.to_nat (10 * seconds) in
    festival_start command = None ->
    (forall n, (n <= loops)%nat -> festival_poll command n = None) ->
    timeout_loops_binary64 (float_of_int seconds) = Some (Z.of_nat loops)
    /\ transcribe_string fuel string timeout w
       = (Raise (Exception (timeout_message timeout command)),
          World (fs w) (draws w1) (trace w ++ timeout_events command loops)).
Proof.
  intros fuel string s seconds w w1 tempf Hsec Hrange Hs Hinit timeout
    command loops Hstart Hrunning.
  split.
  { unfold loops. rewrite Z2Nat.id by lia.
    apply timeout_loops_binary64_whole_seconds; assumption. }
  destruct (TempFile_init_Ok _ _ _ _ _ _ Hinit) as (Hd & Hfresh & Hfs & Htr).
  unfold transcribe_string. unfold bindM at 1, lift at 1. rewrite Hs.
  unfold bindM at 1. unfold with_TempFile. unfold bindM at 1. rewrite Hinit.
  fold command. unfold bindM at 1, popen. rewrite Hstart.
  unfold do_event at 1. unfold bindM at 1.
  unfold timeout. rewrite timeout_loops_whole_seconds. fold timeout.
  replace (10 * seconds) with (Z.of_nat loops) by (unfold loops; lia).
  unfold range1. replace (Z.to_nat (Z.of_nat loops + 1)) with (S loops) by lia.
  rewrite (poll_loop_deadline command timeout loops Hrunning loops 0%nat) by lia.
  unfold destroy, bindM, unlink. rewrite Hd. cbn [negb fs emit].
  rewrite Hfs, lookup_insert_eq. unfold ret, set_fs. cbn [fs draws trace].
  rewrite delete_insert_id by exact Hfresh.
  unfold timeout_events, emit. cbn [fs draws trace].
  rewrite Htr, <- !app_assoc. reflexivity.
Qed.

(** X21. When the engine is first seen to have exited at poll [k], within
    the limit, [transcribe_string] has polled [k + 1] times and slept [k]
    times, without a sleep after the poll that saw the exit, and it has
    not killed the process; the temporary file is removed after it has
    been read. *)
Theorem transcribe_string_stops_at_exit :
  forall (fuel : nat) (string s : str) (timeout : Q)
         (w w1 : world) (tempf : TempFile) (k : nat) (status : Z)
         (output : list str),
    map_utf8_to_festival string = Ok s ->
    TempFile_init fuel (u "festival-") (u ".segs") w = (Ok tempf, w1) ->
    let command :=
      format_command (festival_escape s) (festival_escape (get_path tempf)) in
    festival_start command = None ->
    festival_poll command k = Some status ->
    (forall j, (j < k)%nat -> festival_poll command j = None) ->
    Z.of_nat k <= int_of_Q (timeout / (1 # 10)) ->
    festival_files command (fs w1) !! filepath tempf = Some output ->
    exists r w',
      transcribe_string fuel string timeout w = (r, w')
      /\ trace w' = trace w ++ exit_events command k
      /\ polls (exit_events command k) = S k
      /\ sleeps (exit_events command k) = k
      /\ kills (exit_events command k) = 0%nat
      /\ fs w' = delete (filepath tempf) (festival_files command (fs w1)).
Proof.
  intros fuel string s timeout w w1 tempf k status output Hs Hinit command
    Hstart Hexit Hrun Hk Hout.
  destruct (TempFile_init_Ok _ _ _ _ _ _ Hinit) as (Hd & Hfresh & Hfs & Htr).
  assert (Hcounts : polls (exit_events command k) = S k
                    /\ sleeps (exit_events command k) = k
                    /\ kills (exit_events command k) = 0%nat).
  { unfold polls, sleeps, kills, exit_events. rewrite !count_app.
    assert (Hrounds :
      count (fun e => match e with Poll => true | _ => false end)
        (concat (replicate k [Poll; Sleep (1 # 10)])) = k
      /\ count (fun e => match e with Sleep _ => true | _ => false end)
           (concat (replicate k [Poll; Sleep (1 # 10)])) = k
      /\ count (fun e => match e with Kill => true | _ => false end)
           (concat (replicate k [Poll; Sleep (1 # 10)])) = 0%nat).
    { clear. induction k as [|n (IH1 & IH2 & IH3)]; [repeat split|].
      cbn [replicate concat app count]. rewrite IH1, IH2, IH3.
      repeat split. }
    destruct Hrounds as (-> & -> & ->). cbn [count]. lia. }
  destruct Hcounts as (Hp & Hsl & Hkl).
  unfold transcribe_string. unfold bindM at 1, lift at 1. rewrite Hs.
  unfold bindM at 1. unfold with_TempFile. unfold bindM at 1. rewrite Hinit.
  fold command. unfold bindM at 1, popen. rewrite Hstart.
  unfold do_event at 1. unfold bindM at 1.
  set (L := Z.to_nat (int_of_Q (timeout / (1 # 10)))).
  replace (int_of_Q (timeout / (1 # 10))) with (Z.of_nat L) by lia.
  unfold range1.
  replace (Z.to_nat (Z.of_nat L + 1)) with (S (k + (L - k))) by lia.
  rewrite (poll_loop_exit command timeout L k status Hexit Hrun) by lia.
  unfold read_lines, get_path. cbn [fs emit]. rewrite Hout.
  unfold destroy, bindM, unlink. rewrite Hd. cbn [negb fs]. rewrite Hout.
  unfold ret, set_fs, lift. cbn [fs draws trace].
  assert (Htrace : (trace w1 ++ [Popen command])
                   ++ concat (replicate k [Poll; Sleep (1 # 10)]) ++ [Poll]
                   = trace w ++ exit_events command k).
  { unfold exit_events. rewrite Htr, <- !app_assoc. reflexivity. }
  destruct (last_fields output []) as [transcription| e |];
    [destruct (map_festival_to_ipa transcription false false true)| |];
    eexists _, _; (split; [reflexivity|]); cbn [trace fs];
    (split; [exact Htrace|]); (split; [exact Hp|]); (split; [exact Hsl|]);
    (split; [exact Hkl|reflexivity]).
Qed.

End round_trip.

(** The instance of X19 on the sample host, with no Festival. *)
Lemma transcribe_string_launch_failure_witness :
  @map_utf8_to_festival sample.nfkd_welsh (u "tŷ") = Ok (u "ty+")
  /\ @TempFile_init sample.host 1 (u "festival-") (u ".segs") sample.empty_world
     = (Ok sample.tempfile, sample.world_with_tempfile)
  /\ @transcribe_string sample.nfkd_welsh sample.host sample.festival_missing
       1 (u "tŷ") 5 sample.empty_world
     = (Raise (FileNotFoundError (u "festival")), World ∅ 5 []).
Proof.
  split; [vm_compute; reflexivity|]. split; [vm_compute; reflexivity|].
  apply (transcribe_string_launch_failure (U := sample.nfkd_welsh)
           (H := sample.host) (F := sample.festival_missing)
           1 (u "tŷ") (u "ty+") 5 sample.empty_world
           sample.world_with_tempfile sample.tempfile).
  - vm_compute; reflexivity.
  - vm_compute; reflexivity.
  - reflexivity.
Defined.

(** The instance of X20 for a limit of 5 seconds and the engine that
    needs six. *)
Lemma transcribe_string_deadline_witness :
  0 <= 5
  /\ 10 * 5 < 2 ^ 53
  /\ (forall command n, (n <= 50)%nat ->
        @festival_poll sample.festival_slow command n = None)
  /\ @festival_poll sample.festival_slow [] 60 = Some 0
  /\ exists msg w',
       @transcribe_string sample.nfkd_welsh sample.host sample.festival_slow
         1 (u "tŷ") (inject_Z 5) sample.empty_world
       = (Raise (Exception msg), w')
       /\ kills (trace w') = 1%nat.
Proof.
  assert (Hrunning : forall command n, (n <= 50)%nat ->
            @festival_poll sample.festival_slow command n = None).
  { intros command n Hn. cbn [festival_poll sample.festival_slow].
    destruct (Nat.ltb_spec n 60); [reflexivity|lia]. }
  split; [lia|]. split; [lia|]. split; [exact Hrunning|].
  split; [reflexivity|].
  eexists _, _. split.
  - apply (transcribe_string_deadline (U := sample.nfkd_welsh)
             (H := sample.host) (F := sample.festival_slow)
             1 (u "tŷ") (u "ty+") 5 sample.empty_world
             sample.world_with_tempfile sample.tempfile).
    + lia.
    + lia.
    + vm_compute; reflexivity.
    + vm_compute; reflexivity.
    + reflexivity.
    + intros n Hn. apply Hrunning.
      change (Z.to_nat (10 * 5)) with 50%nat in Hn. exact Hn.
  - vm_compute. reflexivity.
Defined.

(** The instance of X21 for the engine that exits at the third poll. *)
Lemma transcribe_string_stops_at_exit_witness :
  @festival_poll sample.festival_caffi [] 2 = Some 0
  /\ exists r w',
       @transcribe_string sample.nfkd_welsh sample.host sample.festival_caffi
         1 (u "caffi") 30 sample.empty_world = (r, w')
       /\ polls (trace w') = 3%nat /\ kills (trace w') = 0%nat.
Proof.
  split; [reflexivity|].
  destruct (transcribe_string_stops_at_exit (U := sample.nfkd_welsh)
              (H := sample.host) (F := sample.festival_caffi)
              1 (u "caffi") (u "caffi") 30 sample.empty_world
              sample.world_with_tempfile sample.tempfile 2 0 sample.caffi_segs)
    as (r & w' & Hrun & Htr & _).
  - vm_compute; reflexivity.
  - vm_compute; reflexivity.
  - reflexivity.
  - reflexivity.
  - intros j Hj. destruct j as [|[|j]]; [reflexivity|reflexivity|lia].
  - by vm_compute.
  - vm_compute; reflexivity.
  - exists r, w'. split; [exact Hrun|]. rewrite Htr.
    split; vm_compute; reflexivity.
Defined.

(** ** Lines that are not well formed *)

Lemma length_split_on_aux (sep : N) (cur s : str) :
  length (split_on_aux sep cur s)
  = S (length (List.filter (fun c => (c =? sep)%N) s)).
Proof.
  revert cur. induction s as [|c s IH]; intros cur; [reflexivity|].
  cbn [split_on_aux List.filter]. destruct (c =? sep)%N.
  - cbn [length]. by rewrite IH.
  - apply IH.
Qed.

(** X22. A line that, once stripped, does not hold exactly one comma
    makes [transcribe_line] raise [ValueError] before anything is done:
    no temporary file is made, no process is started, no random number
    is drawn. *)
Theorem transcribe_line_malformed :
  forall (U : Unicodedata) (H : Host) (F : Festival)
         (fuel : nat) (line : str) (timeout : Q) (w : world),
    length (List.filter (fun c => (c =? COMMA)%N) (strip line)) <> 1%nat ->
    exists msg,
      transcribe_line fuel line timeout w = (Raise (ValueError msg), w).
Proof.
  intros U H F fuel line timeout w Hcommas.
  unfold transcribe_line, bindM at 1, lift.
  pose proof (length_split_on_aux COMMA [] (strip line)) as Hlen.
  fold (split_on COMMA (strip line)) in Hlen.
  destruct (split_on COMMA (strip line)) as [|a [|b [|c l]]];
    cbn [unpack2]; cbn [length] in Hlen.
  - by eexists.
  - by eexists.
  - exfalso. apply Hcommas. lia.
  - by eexists.
Qed.

(** The instance of X22 for a line with two commas. *)
Lemma transcribe_line_malformed_witness :
  length (List.filter (fun c => (c =? COMMA)%N) (strip (u "a,b,3" ++ [LF])))
  <> 1%nat
  /\ exists msg,
       @transcribe_line sample.nfkd_welsh sample.host sample.festival_caffi
         1 (u "a,b,3" ++ [LF]) 30 sample.empty_world
       = (Raise (ValueError msg), sample.empty_world).
Proof.
  assert (Hc : length (List.filter (fun c => (c =? COMMA)%N)
                         (strip (u "a,b,3" ++ [LF]))) <> 1%nat)
    by (vm_compute; lia).
  split; [exact Hc|].
  apply (transcribe_line_malformed sample.nfkd_welsh sample.host
           sample.festival_caffi 1 (u "a,b,3" ++ [LF]) 30 sample.empty_world Hc).
Defined.

(** ** ASCII words *)

(** X23. Provided NFKD leaves ASCII text as it is, [map_utf8_to_festival]
    returns an ASCII word unchanged, whatever ASCII it holds: letters,
    quotes, backslashes, the marker characters or control characters. *)
Theorem map_utf8_to_festival_ascii :
  forall (U : Unicodedata),
    (forall s : str, Forall is_ascii s -> normalize_NFKD s = s) ->
    forall w : str, Forall is_ascii w -> map_utf8_to_festival w = Ok w.
Proof.
  intros U Hascii w Hw.
  rewrite map_utf8_to_festival_chars, (Hascii w Hw).
  f_equal. by apply festival_chars_on_ascii.
Qed.

(** The instance of X23 for the word [caffi]. *)
Lemma map_utf8_to_festival_ascii_witness :
  (forall s : str, Forall is_ascii s -> @normalize_NFKD sample.nfkd_welsh s = s)
  /\ Forall is_ascii (u "caffi")
  /\ @map_utf8_to_festival sample.nfkd_welsh (u "caffi") = Ok (u "caffi").
Proof.
  assert (Hw : Forall is_ascii (u "caffi")).
  { apply (bool_decide_unpack _). vm_compute. exact I. }
  split; [exact nfkd_welsh_ascii|]. split; [exact Hw|].
  apply (map_utf8_to_festival_ascii sample.nfkd_welsh nfkd_welsh_ascii _ Hw).
Defined.

(** ** The orchestrator at the edges *)

Lemma chunks_nil {A} (p : Z) :
  1 <= p -> shared.chunks (@nil A) p = Ok [].
Proof.
  intros Hp. rewrite chunks_eq by exact Hp. cbn [length].
  replace (nchunks 0 (Z.to_nat p)) with 0%nat; [reflexivity|].
  unfold nchunks. rewrite Z2Nat.id by lia.
  replace ((Z.of_nat 0 + p - 1) / p) with 0; [reflexivity|].
  symmetry. apply Z.div_small. lia.
Qed.

Section orchestrator_edges.
Variable worker : str -> result str.

(** X24. With [verbose] left at [False], [transcribe_file] fails before
    any record is handled in three ways.  When the source file does not
    exist it raises an [IOError] that names it and has touched nothing.
    When the source exists and the destination cannot be opened for
    writing it raises an [IOError] that names the destination and
    carries the text of the error of [open], and has touched nothing
    either.  When both can be opened and the pool size is below one it
    raises the [ValueError] of the pool, but only after the destination
    has been opened: the destination is left empty. *)
Theorem transcribe_file_io_early_errors :
  forall (P : Permissions) (infile outfile : str) (nprocs : Z) (w : world),
    (fs w !! infile = None ->
     exists e msg,
       transcribe_file_io worker infile outfile nprocs w = (Raise e, w)
       /\ raised_exn e = IOError msg /\ contains msg infile)
    /\ (is_Some (fs w !! infile) ->
        forall ex, open_w_error outfile = Some ex ->
        exists e msg,
          transcribe_file_io worker infile outfile nprocs w = (Raise e, w)
          /\ raised_exn e = IOError msg
          /\ contains msg outfile /\ contains msg ex)
    /\ (is_Some (fs w !! infile) -> open_w_error outfile = None ->
        nprocs < 1 ->
        exists msg,
          transcribe_file_io worker infile outfile nprocs w
          = (Raise (ValueError msg), set_fs (<[outfile := []]> (fs w)) w)).
Proof.
  intros P infile outfile nprocs w. split; [|split].
  - intros Hmissing. unfold transcribe_file_io, bindM at 1, isfile.
    rewrite bool_decide_eq_false_2 by (by apply eq_None_not_Some).
    cbn [negb]. unfold raise. eexists _, _. split; [reflexivity|].
    split; [reflexivity|].
    rewrite (app_assoc _ infile). rewrite <- (app_assoc _ infile).
    apply contains_middle.
  - intros Hthere ex Hex. unfold transcribe_file_io, bindM at 1, isfile.
    rewrite bool_decide_eq_true_2 by exact Hthere. cbn [negb].
    unfold bindM at 1, open_w. rewrite Hex. unfold raise.
    eexists _, _. split; [reflexivity|]. split; [reflexivity|]. split.
    + apply contains_middle.
    + exists (u "Error Could not open DEST_FILE (" ++ outfile
              ++ u ") for writing: "), [].
      rewrite app_nil_r, <- !app_assoc. reflexivity.
  - intros Hthere Hopen Hn. unfold transcribe_file_io, bindM at 1, isfile.
    rewrite bool_decide_eq_true_2 by exact Hthere. cbn [negb].
    unfold bindM at 1, open_w. rewrite Hopen. unfold create_empty.
    unfold bindM at 1, read_lines. cbn [fs set_fs].
    assert (Hread : is_Some (<[outfile := []]> (fs w) !! infile)).
    { destruct (decide (outfile = infile)) as [->|Hne].
      - rewrite lookup_insert_eq. by eexists.
      - by rewrite lookup_insert_ne. }
    destruct Hread as [lines ->].
    destruct (Z.ltb_spec nprocs 1) as [_|]; [|lia].
    unfold raise. by eexists.
Qed.

(** X25. With [verbose] left at [False], when the source and the
    destination are the same file and it can be opened, the file is
    emptied before it is read: no record is transcribed, the call ends
    without an error and the word list is lost. *)
Theorem transcribe_file_io_onto_itself :
  forall (P : Permissions) (file : str) (nprocs : Z) (w : world),
    is_Some (fs w !! file) ->
    open_w_error file = None ->
    1 <= nprocs ->
    transcribe_file_io worker file file nprocs w
    = (Ok tt, set_fs (<[file := []]> (fs w)) w).
Proof.
  intros P file nprocs w Hthere Hopen Hn.
  unfold transcribe_file_io, bindM at 1, isfile.
  rewrite bool_decide_eq_true_2 by exact Hthere. cbn [negb].
  unfold bindM at 1, open_w. rewrite Hopen. unfold create_empty.
  unfold bindM at 1, read_lines.
  cbn [fs set_fs]. rewrite lookup_insert_eq.
  destruct (Z.ltb_spec nprocs 1) as [|_]; [lia|].
  unfold bindM at 1, lift. rewrite chunks_nil by exact Hn.
  reflexivity.
Qed.

(** Where every file can be opened and the source exists,
    [transcribe_file_io] does what [transcribe_file] does; it returns
    no count. *)
Lemma transcribe_file_io_all_writable (infile outfile : str) (nprocs : Z)
    (w : world) :
  is_Some (fs w !! infile) ->
  @transcribe_file_io all_writable worker infile outfile nprocs w
  = (let '(r, w') := transcribe_file worker infile outfile nprocs w in
     (bind r (fun _ => Ok tt), w')).
Proof.
  intros Hthere.
  unfold transcribe_file_io, transcribe_file, bindM, isfile, open_w,
    create_empty, read_lines, lift, raise, ret.
  rewrite bool_decide_eq_true_2 by exact Hthere.
  cbn [negb open_w_error all_writable fs set_fs].
  destruct (<[outfile := []]> (fs w) !! infile) as [lines|]; [|reflexivity].
  destruct (nprocs <? 1); [reflexivity|].
  destruct (shared.chunks lines nprocs) as [cs|e|]; [|reflexivity..].
  destruct (write_chunks worker outfile cs 0 _) as [[n|e|] w']; reflexivity.
Qed.

Lemma for_each_write_line_frame outfile (ys : list str) w :
  exists w',
    for_each ys (write_line outfile) w = (Ok tt, w')
    /\ (forall path, path <> outfile -> fs w' !! path = fs w !! path)
    /\ draws w' = draws w /\ trace w' = trace w.
Proof.
  revert w. induction ys as [|y r IH]; intros w.
  - exists w. by cbn.
  - cbn [for_each]. unfold bindM, write_line at 1.
    edestruct IH as (w' & -> & Hfs & Hd & Ht). exists w'.
    split; [reflexivity|]. split; [|split; [exact Hd|exact Ht]].
    intros path Hne. rewrite Hfs by exact Hne. cbn [fs set_fs].
    by apply lookup_insert_ne.
Qed.

Lemma write_chunks_frame outfile (chunks : list (list str)) c w :
  exists r w',
    write_chunks worker outfile chunks c w = (r, w')
    /\ (forall path, path <> outfile -> fs w' !! path = fs w !! path)
    /\ draws w' = draws w /\ trace w' = trace w.
Proof.
  revert c w. induction chunks as [|chunk rest IH]; intros c w.
  - exists (Ok c), w. by cbn.
  - cbn [write_chunks]. unfold bindM at 1, lift.
    destruct (pool_map worker chunk) as [ys|e|].
    + destruct (for_each_write_line_frame outfile ys w)
        as (w1 & Hw1 & Hfs1 & Hd1 & Ht1).
      unfold bindM. rewrite Hw1.
      destruct (IH (c + Z.of_nat (length chunk)) w1)
        as (r & w' & -> & Hfs & Hd & Ht).
      exists r, w'. split; [reflexivity|].
      split; [|split; congruence].
      intros path Hne. by rewrite Hfs, Hfs1.
    + exists (Raise e), w. by repeat split.
    + exists Diverge, w. by repeat split.
Qed.

(** X26. Whatever happens, [transcribe_file] changes no file but the
    destination, draws no random number and starts, polls or kills no
    process itself. *)
Theorem transcribe_file_touches_only_the_destination :
  forall (infile outfile : str) (nprocs : Z) (w : world),
    exists r w',
      transcribe_file worker infile outfile nprocs w = (r, w')
      /\ (forall path, path <> outfile -> fs w' !! path = fs w !! path)
      /\ draws w' = draws w /\ trace w' = trace w.
Proof.
  intros infile outfile nprocs w. unfold transcribe_file, bindM at 1, isfile.
  case_bool_decide as Hthere; cbn [negb].
  2:{ unfold raise. eexists _, _. by repeat split. }
  unfold bindM at 1, create_empty. unfold bindM at 1, read_lines.
  cbn [fs set_fs].
  set (w0 := set_fs (<[outfile := []]> (fs w)) w).
  assert (Hw0 : (forall path, path <> outfile -> fs w0 !! path = fs w !! path)
                /\ draws w0 = draws w /\ trace w0 = trace w).
  { split; [|by split]. intros path Hne. cbn [fs w0 set_fs].
    by apply lookup_insert_ne. }
  destruct Hw0 as (Hfs0 & Hd0 & Ht0).
  destruct (<[outfile := []]> (fs w) !! infile) as [lines|].
  2:{ eexists _, _. split; [reflexivity|]. by repeat split. }
  destruct (Z.ltb_spec nprocs 1).
  { unfold raise. eexists _, _. split; [reflexivity|]. by repeat split. }
  unfold bindM at 1, lift.
  destruct (shared.chunks lines nprocs) as [cs|e|].
  - destruct (write_chunks_frame outfile cs 0 w0)
      as (r & w' & Hrun & Hfs & Hd & Ht).
    exists r, w'. split; [exact Hrun|].
    split; [|split; congruence].
    intros path Hne. by rewrite Hfs, Hfs0.
  - eexists _, _. split; [reflexivity|]. by repeat split.
  - eexists _, _. split; [reflexivity|]. by repeat split.
Qed.

End orchestrator_edges.

(** The instance of X25 for a list of two words. *)
Lemma transcribe_file_io_onto_itself_witness :
  is_Some (fs (World {[ u "words.txt" := [u "a,1"; u "b,2"] ]} 0 [])
           !! u "words.txt")
  /\ @open_w_error sample.refusing (u "words.txt") = None
  /\ 1 <= 4
  /\ @transcribe_file_io sample.refusing (fun line => Ok line)
       (u "words.txt") (u "words.txt") 4
       (World {[ u "words.txt" := [u "a,1"; u "b,2"] ]} 0 [])
     = (Ok tt, World {[ u "words.txt" := [] ]} 0 []).
Proof.
  assert (Hthere : is_Some (fs (World {[ u "words.txt" := [u "a,1"; u "b,2"] ]}
                                  0 []) !! u "words.txt"))
    by (vm_compute; by eexists).
  assert (Hopen : @open_w_error sample.refusing (u "words.txt") = None)
    by (vm_compute; reflexivity).
  split; [exact Hthere|]. split; [exact Hopen|]. split; [lia|].
  rewrite (transcribe_file_io_onto_itself (fun line => Ok line) sample.refusing
             (u "words.txt") 4 _ Hthere Hopen ltac:(lia)).
  vm_compute. reflexivity.
Defined.

(** The second way of X24 on a host that refuses the destination: the
    source is left as it is and no destination is made. *)
Example transcribe_file_io_refused :
  exists e,
    @transcribe_file_io sample.refusing (fun line => Ok line)
      (u "words.txt") (u "/etc/words.txt") 4
      (World {[ u "words.txt" := [u "a,1"; u "b,2"] ]} 0 [])
    = (Raise e, World {[ u "words.txt" := [u "a,1"; u "b,2"] ]} 0 [])
    /\ raised_exn e
       = IOError (u "Error Could not open DEST_FILE (/etc/words.txt) for writing: [Errno 13] Permission denied: '/etc/words.txt'").
Proof. eexists. split; vm_compute; reflexivity. Qed.

Section first_failure.
Variable worker : str -> result str.

Lemma pool_map_fails (chunk : list str) :
  Exists (fun x => is_ok (worker x) = false) chunk ->
  is_ok (pool_map worker chunk) = false.
Proof.
  induction chunk as [|x r IH]; intros HE; [inversion HE|].
  cbn [pool_map]. destruct (worker x) eqn:Hx; [|reflexivity..].
  apply Exists_cons in HE as [HE|HE]; [rewrite Hx in HE; discriminate HE|].
  specialize (IH HE). by destruct (pool_map worker r).
Qed.

Lemma write_chunks_first_failure outfile (good : list (list str))
    (bad : list str) (rest : list (list str)) c pre w :
  fs w !! outfile = Some pre ->
  Forall (Forall (fun x => is_ok (worker x) = true)) good ->
  Exists (fun x => is_ok (worker x) = false) bad ->
  exists r w' out,
    write_chunks worker outfile (good ++ bad :: rest) c w = (r, w')
    /\ is_ok r = false
    /\ fs w' !! outfile = Some (pre ++ out)
    /\ Forall2 (fun x y => worker x = Ok y) (concat good) out.
Proof.
  intros Hpre Hgood Hbad. revert c pre w Hpre.
  induction Hgood as [|chunk good Hchunk _ IH]; intros c pre w Hpre.
  - cbn [app write_chunks]. unfold bindM at 1, lift.
    pose proof (pool_map_fails bad Hbad) as Hfail.
    destruct (pool_map worker bad) as [ys|e|]; [discriminate Hfail| |].
    + exists (Raise e), w, []. rewrite app_nil_r.
      split; [reflexivity|]. split; [reflexivity|]. split; [exact Hpre|].
      constructor.
    + exists Diverge, w, []. rewrite app_nil_r.
      split; [reflexivity|]. split; [reflexivity|]. split; [exact Hpre|].
      constructor.
  - cbn [app write_chunks]. unfold bindM at 1, lift.
    destruct (pool_map_all_ok worker chunk Hchunk) as [ys Hys]. rewrite Hys.
    pose proof (pool_map_Ok worker _ _ Hys) as Hrel.
    destruct (for_each_write_line outfile ys pre w Hpre) as (w1 & Hw1 & Hf1).
    unfold bindM. rewrite Hw1.
    destruct (IH (c + Z.of_nat (length chunk)) (pre ++ ys) w1 Hf1)
      as (r & w' & out & -> & Hr & Hout & Hrel').
    exists r, w', (ys ++ out). split; [reflexivity|]. split; [exact Hr|].
    split; [by rewrite Hout, app_assoc|].
    cbn [concat]. by apply Forall2_app.
Qed.

(** X27. Records are written chunk by chunk, and a chunk with a failing
    record is not written at all: when record [j] is the first the
    worker fails on, [transcribe_file] raises, and the destination holds
    the results of the records of the chunks before the one of [j], that
    is of the first [(j / p) * p] records, and nothing else. *)
Theorem transcribe_file_stops_at_failing_chunk :
  forall (lst : list str) (p : Z) (infile outfile : str) (w : world)
         (j : nat) (x : str),
    1 <= p -> infile <> outfile ->
    fs w !! infile = Some lst ->
    lst !! j = Some x ->
    is_ok (worker x) = false ->
    (forall i y, (i < j)%nat -> lst !! i = Some y -> is_ok (worker y) = true) ->
    exists r w' out,
      transcribe_file worker infile outfile p w = (r, w')
      /\ is_ok r = false
      /\ fs w' !! outfile = Some out
      /\ length out = (j / Z.to_nat p * Z.to_nat p)%nat
      /\ Forall2 (fun x y => worker x = Ok y)
           (take (j / Z.to_nat p * Z.to_nat p) lst) out.
Proof.
  intros lst p infile outfile w j x Hp Hne Hin Hj Hx Hbefore.
  set (P := Z.to_nat p). assert (HP : (1 <= P)%nat) by lia.
  set (k := (j / P)%nat).
  assert (Hjn : (j < length lst)%nat) by (by eapply lookup_lt_Some).
  assert (HkP : (k * P <= j)%nat /\ (j < k * P + P)%nat).
  { unfold k. pose proof (Nat.div_mod_eq j P).
    pose proof (Nat.mod_upper_bound j P ltac:(lia)). nia. }
  destruct (nchunks_bounds (length lst) P HP) as [Hcover Hstart].
  set (m := nchunks (length lst) P) in *.
  assert (Hkm : (k < m)%nat) by nia.
  unfold transcribe_file, bindM at 1, isfile. rewrite Hin.
  rewrite bool_decide_eq_true_2 by by eexists. cbn [negb].
  unfold bindM at 1, create_empty. unfold bindM at 1, read_lines.
  cbn [fs set_fs]. rewrite lookup_insert_ne by done. rewrite Hin.
  destruct (Z.ltb_spec p 1) as [|_]; [lia|].
  unfold bindM at 1, lift. rewrite chunks_eq by done. fold P. fold m.
  set (w0 := set_fs _ w).
  set (chunk := fun i : nat => take P (drop (i * P) lst)).
  replace m with (k + S (m - S k))%nat by lia.
  rewrite seq_app, List.map_app. cbn [seq List.map Nat.add].
  destruct (write_chunks_first_failure outfile
              (List.map chunk (seq 0 k)) (chunk k)
              (List.map chunk (seq (S k) (m - S k))) 0 [] w0)
    as (r & w' & out & Hrun & Hr & Hout & Hrel).
  - apply lookup_insert_eq.
  - apply List.Forall_forall. intros c Hc.
    apply in_map_iff in Hc as (i & <- & Hi%in_seq). unfold chunk.
    apply Forall_forall. intros y Hy.
    apply list_elem_of_lookup in Hy as [t Ht].
    apply lookup_take_Some in Ht as [Ht HtP]. rewrite lookup_drop in Ht.
    apply (Hbefore (i * P + t)%nat y); [nia|exact Ht].
  - apply Exists_exists. exists x. split; [|exact Hx].
    apply list_elem_of_lookup. exists (j - k * P)%nat. unfold chunk.
    rewrite lookup_take_lt by lia. rewrite lookup_drop.
    replace (k * P + (j - k * P))%nat with j by lia. exact Hj.
  - exists r, w', out. split; [exact Hrun|]. split; [exact Hr|].
    split; [exact Hout|].
    unfold chunk in Hrel. rewrite concat_take_drop in Hrel.
    split; [|exact Hrel].
    apply Forall2_length in Hrel. rewrite <- Hrel, length_take. lia.
Qed.

End first_failure.

(** The instance of X27 for five records in chunks of two, of which the
    fourth fails: the first two results are written. *)
Lemma transcribe_file_stops_at_failing_chunk_witness :
  exists r w',
    transcribe_file
      (fun line => if bool_decide (line = u "d,4")
                   then Raise (Exception (u "boom")) else Ok line)
      (u "in") (u "out") 2
      (World {[ u "in" := [u "a,1"; u "b,2"; u "c,3"; u "d,4"; u "e,5"] ]} 0 [])
    = (r, w')
    /\ is_ok r = false
    /\ fs w' !! u "out" = Some [u "a,1"; u "b,2"].
Proof.
  destruct (transcribe_file_stops_at_failing_chunk
              (fun line => if bool_decide (line = u "d,4")
                           then Raise (Exception (u "boom")) else Ok line)
              [u "a,1"; u "b,2"; u "c,3"; u "d,4"; u "e,5"] 2
              (u "in") (u "out")
              (World {[ u "in" := [u "a,1"; u "b,2"; u "c,3"; u "d,4"; u "e,5"] ]}
                 0 [])
              3 (u "d,4"))
    as (r & w' & out & Hrun & Hr & Hout & Hlen & Hrel).
  - lia.
  - by vm_compute.
  - vm_compute; reflexivity.
  - reflexivity.
  - vm_compute; reflexivity.
  - intros i y Hi Hy. destruct i as [|[|[|i]]]; [| | |lia];
      cbn in Hy; injection Hy as <-; vm_compute; reflexivity.
  - exists r, w'. split; [exact Hrun|]. split; [exact Hr|]. rewrite Hout.
    f_equal. change (3 / Z.to_nat 2 * Z.to_nat 2)%nat with 2%nat in Hrel.
    cbn [take] in Hrel.
    inversion Hrel as [|? y1 ? l1 H1 Hrel1]; subst.
    inversion Hrel1 as [|? y2 ? l2 H2 Hrel2]; subst.
    inversion Hrel2; subst.
    vm_compute in H1, H2. injection H1 as <-. injection H2 as <-.
    reflexivity.
Defined.

(** ** The float arithmetic of the time limit *)

(** X28. For a time limit of a whole number of seconds, as long as
    binary64 holds ten times that number, the two float computations of
    [transcribe_string] are exact: [int(timeout/0.1)] is ten times the
    limit and [int(timeout_loops*0.1)], the seconds in the line printed
    at a time-out, is the limit again.  Both are what the exact
    arithmetic of the model gives. *)
Theorem timeout_arithmetic_binary64 :
  forall seconds : Z,
    0 <= seconds -> 10 * seconds < 2 ^ 53 ->
    timeout_loops_binary64 (float_of_int seconds) = Some (10 * seconds)
    /\ timeout_printed_binary64 (10 * seconds) = Some seconds
    /\ int_of_Q (inject_Z seconds / (1 # 10)) = 10 * seconds
    /\ int_of_Q (inject_Z (10 * seconds) * (1 # 10)) = seconds.
Proof.
  intros seconds H0 Hmax.
  split; [apply timeout_loops_binary64_whole_seconds; assumption|].
  split; [apply timeout_printed_binary64_whole_seconds; assumption|].
  split; [apply timeout_loops_whole_seconds|].
  apply timeout_printed_whole_seconds.
Qed.

(** The instance of X28 for the limit of 30 seconds of
    [transcribe_line]: 300 rounds. *)
Lemma timeout_arithmetic_binary64_witness :
  0 <= 30
  /\ 10 * 30 < 2 ^ 53
  /\ timeout_loops_binary64 (float_of_int 30) = Some 300
  /\ timeout_printed_binary64 300 = Some 30.
Proof.
  split; [lia|]. split; [lia|].
  destruct (timeout_arithmetic_binary64 30 ltac:(lia) ltac:(lia))
    as (Hloops & Hprinted & _).
  split; [exact Hloops|exact Hprinted].
Defined.
